(** * updateissue: a shallow embedding of [src/index.ts]

    The development follows the TypeScript source top-down: the stack-frame
    extraction loop of [reportError], the runtime globals that [start] and
    [stop] patch, the [ErrorMonitor] class, and the module-level singleton
    API.  Strings are byte strings: the UTF-8 text of the JavaScript
    string. *)

From Stdlib Require Import ZArith Ascii String DecimalString.
From stdpp Require Import gmap strings list fin_maps.

Local Open Scope Z_scope.

(** ** Regular expressions of the stack scanner

    A JavaScript string is a sequence of UTF-16 code units; here it is the
    byte string of its UTF-8 text.  The patterns of [reportError] test one
    character at a time, so the matcher works on the characters of the
    text.  A character outside the Basic Multilingual Plane is two code
    units in JavaScript: [.] matches each of them and no other part of the
    two patterns matches either, so that no match begins, ends or is split
    between them, and the matcher takes the character as one.

    The two patterns only repeat single character classes, so the matcher is
    a backtracking matcher by continuations whose repetitions recurse on the
    input text.  The order in which alternatives are tried is JavaScript's:
    a greedy repetition takes the longest run first, a lazy one the
    shortest. *)

Module Regex.

(** *** Characters *)

(** A byte [10xxxxxx], which continues a UTF-8 sequence. *)
Definition is_continuation (a : ascii) : bool :=
  let n := N_of_ascii a in N.leb 128 n && N.ltb n 192.

Definition continues (ch : string) : bool :=
  match ch with
  | String b _ => is_continuation b
  | EmptyString => false
  end.

(** The characters of a text, each as the bytes that encode it: a byte that
    is not a continuation byte begins a character, which takes the
    continuation bytes that follow. *)
Fixpoint chars (s : string) : list string :=
  match s with
  | EmptyString => []
  | String a s' =>
      match chars s' with
      | ch :: rest =>
          if continues ch then String a ch :: rest
          else String a "" :: ch :: rest
      | [] => [String a ""]
      end
  end.

(** The text that a list of characters spells. *)
Fixpoint text (cs : list string) : string :=
  match cs with
  | [] => ""
  | ch :: cs' => ch +:+ text cs'
  end.

(** The six payload bits of a continuation byte. *)
Definition payload (b : N) : option N :=
  if N.leb 128 b && N.ltb b 192 then Some (b - 128)%N else None.

(** A code point of at least [m]: the encoding of a character is the
    shortest one. *)
Definition at_least (m n : N) : option N :=
  if N.leb m n then Some n else None.

(** The code point that a character encodes; [None] for bytes that are not
    the UTF-8 encoding of one character. *)
Definition code_point (ch : string) : option N :=
  match map N_of_ascii (list_ascii_of_string ch) with
  | [a] => if N.ltb a 128 then Some a else None
  | [a; b] =>
      if N.leb 192 a && N.ltb a 224
      then x ← payload b; at_least 128 ((a - 192) * 64 + x)
      else None
  | [a; b; c] =>
      if N.leb 224 a && N.ltb a 240
      then x ← payload b; y ← payload c;
           at_least 2048 ((a - 224) * 4096 + x * 64 + y)
      else None
  | [a; b; c; d] =>
      if N.leb 240 a && N.ltb a 248
      then x ← payload b; y ← payload c; z ← payload d;
           at_least 65536 ((a - 240) * 262144 + x * 4096 + y * 64 + z)
      else None
  | _ => None
  end.

(** ECMAScript's LineTerminator: LF, CR, LINE SEPARATOR, PARAGRAPH
    SEPARATOR. *)
Definition line_terminator (n : N) : bool :=
  N.eqb n 10 || N.eqb n 13 || N.eqb n 8232 || N.eqb n 8233.

(** ECMAScript's WhiteSpace: TAB, VT, FF, SPACE, NO-BREAK SPACE, the other
    space separators of Unicode (U+1680, U+2000 to U+200A, U+202F, U+205F,
    U+3000) and ZERO WIDTH NO-BREAK SPACE (U+FEFF). *)
Definition white_space (n : N) : bool :=
  N.eqb n 9 || N.eqb n 11 || N.eqb n 12 || N.eqb n 32 || N.eqb n 160
  || N.eqb n 5760 || (N.leb 8192 n && N.leb n 8202) || N.eqb n 8239
  || N.eqb n 8287 || N.eqb n 12288 || N.eqb n 65279.

Inductive cclass :=
  | Dot      (* .   any character except a line terminator *)
  | Space    (* \s  white space and line terminators *)
  | Digit.   (* \d  0 to 9 *)

Definition in_class (c : cclass) (ch : string) : bool :=
  match code_point ch with
  | Some n =>
      match c with
      | Dot => negb (line_terminator n)
      | Space => white_space n || line_terminator n
      | Digit => N.leb 48 n && N.leb n 57
      end
  | None => false
  end.

Inductive regex :=
  | Lit (a : ascii)            (* a literal character *)
  | Star (c : cclass)          (* c*   *)
  | StarLazy (c : cclass)      (* c*?  *)
  | Plus (c : cclass)          (* c+   *)
  | Group (r : regex)          (* (r), capturing *)
  | Cat (r1 r2 : regex).       (* r1 r2 *)

Section Matcher.
Context {R : Type}.

Fixpoint star_greedy (c : cclass) (s : list string)
    (k : list string → option R) : option R :=
  match s with
  | ch :: s' =>
      if in_class c ch
      then match star_greedy c s' k with
           | Some r => Some r
           | None => k s
           end
      else k s
  | [] => k s
  end.

Fixpoint star_lazy (c : cclass) (s : list string)
    (k : list string → option R) : option R :=
  match k s with
  | Some r => Some r
  | None =>
      match s with
      | ch :: s' => if in_class c ch then star_lazy c s' k else None
      | [] => None
      end
  end.

(** The text consumed between [s] and its suffix [rest]. *)
Definition consumed (s rest : list string) : string :=
  text (take (length s - length rest) s).

(** [rmatch r s caps k] matches [r] at the start of [s]; [caps] are the
    groups closed so far, in order.  In the scanner's patterns groups are
    not nested, so this is the numbering of [match[1]], [match[2]], ... *)
Fixpoint rmatch (r : regex) (s : list string) (caps : list string)
    (k : list string → list string → option R) : option R :=
  match r with
  | Lit a =>
      match s with
      | ch :: s' => if String.eqb ch (String a "") then k s' caps else None
      | [] => None
      end
  | Star c => star_greedy c s (λ rest, k rest caps)
  | StarLazy c => star_lazy c s (λ rest, k rest caps)
  | Plus c =>
      match s with
      | ch :: s' =>
          if in_class c ch then star_greedy c s' (λ rest, k rest caps)
          else None
      | [] => None
      end
  | Group r' =>
      rmatch r' s caps (λ rest caps', k rest (caps' ++ [consumed s rest]))
  | Cat r1 r2 =>
      rmatch r1 s caps (λ rest caps', rmatch r2 rest caps' k)
  end.
End Matcher.

Arguments Lit a%_char.

(** The leftmost position at which the pattern matches; the result is
    [match[0]] (the matched text) followed by the groups. *)
Fixpoint search (r : regex) (s : list string) : option (list string) :=
  match rmatch r s [] (λ rest caps, Some (consumed s rest :: caps)) with
  | Some m => Some m
  | None =>
      match s with
      | _ :: s' => search r s'
      | [] => None
      end
  end.

(** [String.prototype.match] with a pattern that has no [g] flag. *)
Definition js_match (r : regex) (s : string) : option (list string) :=
  search r (chars s).

(** [m[i]]; every group of the scanner's patterns takes part in a match. *)
Definition group (m : list string) (i : nat) : string := nth i m EmptyString.

Fixpoint cat (rs : list regex) (last : regex) : regex :=
  match rs with
  | [] => last
  | r :: rs' => Cat r (cat rs' last)
  end.

End Regex.


(** ** String helpers of the runtime *)

(** The line feed, as a string. *)
Definition nl : string := String "010"%char "".

(** [s.split("\n")] *)
Fixpoint split_lines_go (cur : string) (s : string) : list string :=
  match s with
  | EmptyString => [String.rev cur]
  | String a s' =>
      if Ascii.eqb a "010"%char
      then String.rev cur :: split_lines_go EmptyString s'
      else split_lines_go (String a cur) s'
  end.
Definition split_lines (s : string) : list string :=
  split_lines_go EmptyString s.

(** [s.includes(needle)] *)
Fixpoint includes (needle s : string) : bool :=
  if String.prefix needle s then true
  else match s with
       | String _ s' => includes needle s'
       | EmptyString => false
       end.

(** ** Stack-frame extraction ([reportError], the loop over [stackLines]) *)

Module Stack.
Import Regex.

(** The pattern tried first on a line, [\s*at\s+(G1)\s+\((G2):(G3):(G4)\)]
    with the groups G1 = lazy dot-star, G2 = greedy dot-star, G3 = G4 = one
    or more digits. *)
Definition re_call_site : regex :=
  cat [Star Space; Lit "a"; Lit "t"; Plus Space; Group (StarLazy Dot);
       Plus Space; Lit "("; Group (Star Dot); Lit ":"; Group (Plus Digit);
       Lit ":"; Group (Plus Digit)] (Lit ")").

(** The pattern tried when the first fails, [\s*at\s+(G1):(G2):(G3)] with
    G1 = greedy dot-star, G2 = G3 = one or more digits. *)
Definition re_location : regex :=
  cat [Star Space; Lit "a"; Lit "t"; Plus Space; Group (Star Dot);
       Lit ":"; Group (Plus Digit); Lit ":"] (Group (Plus Digit)).

(** The four variables [functionName], [fileName], [line], [col]; [None]
    is [undefined]. *)
Record CallerInfo := {
  functionName : option string;
  fileName : option string;
  line : option string;
  col : option string;
}.

Definition unset : CallerInfo :=
  {| functionName := None; fileName := None; line := None; col := None |}.

(** The assignments made for one [stackLine]. *)
Definition scan_line (ci : CallerInfo) (stackLine : string) : CallerInfo :=
  match js_match re_call_site stackLine with
  | None =>
      match js_match re_location stackLine with
      | Some m =>
          {| functionName := functionName ci;
             fileName := Some (group m 1);
             line := Some (group m 2);
             col := Some (group m 3) |}
      | None => ci
      end
  | Some m =>
      {| functionName := Some (group m 1);
         fileName := Some (group m 2);
         line := Some (group m 3);
         col := Some (group m 4) |}
  end.

(** [fileName && !fileName.includes('node_modules')
              && !fileName.includes('internal/')] *)
Definition meaningful_file (f : string) : bool :=
  negb (String.eqb f "") && negb (includes "node_modules" f)
  && negb (includes "internal/" f).

Definition meaningful (ci : CallerInfo) : bool :=
  match fileName ci with
  | Some f => meaningful_file f
  | None => false
  end.

(** [for (let i = 1; i < stackLines.length; i++) { ...; if (...) break; }],
    on the lines from index [i] on. *)
Fixpoint scan (ci : CallerInfo) (lines : list string) : CallerInfo :=
  match lines with
  | [] => ci
  | stackLine :: rest =>
      let ci' := scan_line ci stackLine in
      if meaningful ci' then ci' else scan ci' rest
  end.

(** [stack] is [errorObj.stack]; [(errorObj.stack || "").split("\n")], then
    the loop from index 1. *)
Definition extract (stack : option string) : CallerInfo :=
  let stackLines := split_lines (default "" stack) in
  scan unset (tail stackLines).

(** The lines the loop visits. *)
Definition stack_frames (stack : option string) : list string :=
  tail (split_lines (default "" stack)).

(** What a line assigns when it is the first one scanned, and whether it
    matches one of the two patterns. *)
Definition frame (stackLine : string) : CallerInfo := scan_line unset stackLine.

Definition is_frame (stackLine : string) : bool :=
  match fileName (frame stackLine) with Some _ => true | None => false end.

Definition is_call_site (stackLine : string) : bool :=
  match js_match re_call_site stackLine with Some _ => true | None => false end.

Definition location (ci : CallerInfo)
  : option string * option string * option string :=
  (fileName ci, line ci, col ci).

(** A file name that carries one of the two markers of an internal or
    third-party frame. *)
Definition marked_internal (f : string) : bool :=
  includes "node_modules" f || includes "internal/" f.

End Stack.


(** ** Configuration *)

(** A value of the pass-through metadata ([[key: string]: any]). *)
Inductive Data :=
  | DNull
  | DBool (b : bool)
  | DNum (n : Z)
  | DStr (s : string).

(** [MonitorOptions], as the caller passes it: every key may be absent.
    [IssueUpdateOptions] is the same shape (its index signature admits every
    key). *)
Record MonitorOptions := {
  opt_endpoint : option string;
  opt_enableConsoleErrors : option bool;
  opt_enablePromiseRejections : option bool;
  opt_enableFunctionWrapping : option bool;
  opt_enableFetchMonitoring : option bool;
  opt_monitorHttpErrors : option bool;
  opt_httpErrorCodes : option (list Z);
  opt_notifier : option string;
  opt_extra : list (string * Data);
}.

(** [{}], the default of the [options] and [data] parameters. *)
Definition no_options : MonitorOptions :=
  {| opt_endpoint := None; opt_enableConsoleErrors := None;
     opt_enablePromiseRejections := None; opt_enableFunctionWrapping := None;
     opt_enableFetchMonitoring := None; opt_monitorHttpErrors := None;
     opt_httpErrorCodes := None; opt_notifier := None; opt_extra := [] |}.

(** [this.options] after the constructor has spread the caller's keys over
    the defaults. *)
Record Options := {
  endpoint : string;
  enableConsoleErrors : bool;
  enablePromiseRejections : bool;
  enableFunctionWrapping : bool;
  enableFetchMonitoring : bool;
  monitorHttpErrors : bool;
  httpErrorCodes : list Z;
  notifier : option string;
  extra : list (string * Data);
}.

Definition spread_over_defaults (o : MonitorOptions) : Options :=
  {| endpoint := default "https://your-backend.com/webhook" (opt_endpoint o);
     enableConsoleErrors := default true (opt_enableConsoleErrors o);
     enablePromiseRejections := default true (opt_enablePromiseRejections o);
     enableFunctionWrapping := default true (opt_enableFunctionWrapping o);
     enableFetchMonitoring := default true (opt_enableFetchMonitoring o);
     monitorHttpErrors := default true (opt_monitorHttpErrors o);
     httpErrorCodes :=
       default [400; 401; 403; 404; 429; 500; 502; 503; 504]
               (opt_httpErrorCodes o);
     notifier := opt_notifier o;
     extra := opt_extra o |}.

(** What a closure created by the monitor reads from the [this] it
    captures: [this.apiKey] and [this.options].  Neither field is assigned
    after the constructor. *)
Record Reporter := {
  rep_apiKey : string;
  rep_options : Options;
}.

(** ** Values of the runtime *)

(** The [errorType] of a report. *)
Inductive ErrorType := uncaught | promise | manual.

(** Values that reach the monitor: what is thrown, rejected, logged or
    returned by a wrapped function.  Objects carry the address [ref] that
    gives them their identity.  A promise is described by the outcome it
    settles with; [PCatch] is the promise returned by [p.catch(h)]. *)
Inductive Value :=
  | VUndefined
  | VNull
  | VBool (b : bool)
  | VNum (n : Z)                   (* the number nearest to the integer [n] *)
  | VStr (s : string)
  | VError (ref : nat) (message : string) (stack : option string)
  | VObject (ref : nat)            (* no callable [then] *)
  | VThenable (ref : nat)          (* a callable [then], no [catch] *)
  | VPromise (p : Promise)
with Promise :=
  | PSettles (ref : nat) (o : Settled)
  | PCatch (ref : nat) (p : Promise) (h : Reaction)
with Settled :=
  | Fulfilled (v : Value)
  | Rejected (reason : Value)
with Reaction :=
  (** [(error) => { monitor.reportError(label, error, 'manual'); throw error; }] *)
  | ReportAndRethrow (monitor : Reporter) (label : string).

(** [x instanceof Error] *)
Definition instanceof_Error (v : Value) : bool :=
  match v with VError _ _ _ => true | _ => false end.

(** Truthiness, as [&&], [||] and [if] see a value. *)
Definition truthy (v : Value) : bool :=
  match v with
  | VUndefined | VNull => false
  | VBool b => b
  | VNum n => negb (n =? 0)
  | VStr s => negb (String.eqb s "")
  | _ => true
  end.

(** [result && typeof result.then === 'function'] *)
Definition is_thenable (v : Value) : bool :=
  match v with VThenable _ | VPromise _ => true | _ => false end.

(** [Number::toString] on integers.  The digits of an integer: *)
Definition decimal (n : Z) : string := NilZero.string_of_int (Z.to_int n).

(** The double nearest to the integer [n > 0]: 53 significant bits, a tie
    going to the even neighbour. *)
Definition to_double (n : Z) : Z :=
  let e := Z.log2 n - 52 in
  if e <=? 0 then n
  else
    let q := n / 2 ^ e in
    let r := n mod 2 ^ e in
    let half := 2 ^ (e - 1) in
    let up := if r =? half then Z.odd q else half <? r in
    (if up then q + 1 else q) * 2 ^ e.

(** The decimal that prints the double [x]: [s * 10 ^ j] with the fewest
    digits [s] among those whose nearest double is [x]; of two such, the
    nearer to [x], and the even [s] when they are equally near. *)
Fixpoint shortest_go (x : Z) (len : Z) (ks : list Z) : Z :=
  match ks with
  | [] => x
  | k :: ks' =>
      if len <=? k then x
      else
        let p := 10 ^ (len - k) in
        let lo := x / p * p in
        let hi := lo + p in
        match to_double lo =? x, to_double hi =? x with
        | true, true =>
            if x - lo <? hi - x then lo
            else if hi - x <? x - lo then hi
            else if Z.even (lo / p) then lo else hi
        | true, false => lo
        | false, true => hi
        | false, false => shortest_go x len ks'
        end
  end.

Definition shortest (x : Z) : Z :=
  shortest_go x (Z.of_nat (String.length (decimal x))) (seqZ 1 17).

Fixpoint strip_zeros (s : string) : string :=
  match s with
  | EmptyString => EmptyString
  | String a s' =>
      match strip_zeros s' with
      | EmptyString => if Ascii.eqb a "0" then EmptyString else String a ""
      | t => String a t
      end
  end.

(** [d.ddde+x] *)
Definition exponent_form (v : Z) : string :=
  let digits := decimal v in
  let x := decimal (Z.of_nat (String.length digits) - 1) in
  match strip_zeros digits with
  | String d EmptyString => String d ("e+" +:+ x)
  | String d more => String d ("." +:+ more +:+ "e+" +:+ x)
  | EmptyString => "0"
  end.

(** [String(n)] for the number that the integer [n] denotes: its nearest
    double.  An integer up to 2^53 is a double and prints in full; a larger
    one prints the shortest decimal that reads back as the same double, with
    an exponent from 10^21 on. *)
Definition Number_toString (n : Z) : string :=
  if Z.abs n <=? 2 ^ 53 then decimal n
  else
    let x := to_double (Z.abs n) in
    let sign := if n <? 0 then "-" else "" in
    if 2 ^ 1024 <=? x then sign +:+ "Infinity"
    else
      let v := shortest x in
      sign +:+ (if v <? 10 ^ 21 then decimal v else exponent_form v).

(** [String(v)] *)
Definition js_String (v : Value) : string :=
  match v with
  | VUndefined => "undefined"
  | VNull => "null"
  | VBool true => "true"
  | VBool false => "false"
  | VNum n => Number_toString n
  | VStr s => s
  | VError _ m _ => if String.eqb m "" then "Error" else "Error: " +:+ m
  | VObject _ | VThenable _ => "[object Object]"
  | VPromise _ => "[object Promise]"
  end.

(** ** Function values *)

(** A function value with its identity [ref].  [Native] is a function of
    the host or of the application; the other constructors are the closures
    that [start] creates, with what each captures. *)
Inductive Fn :=
  | Native (ref : nat)
  | UncaughtHandler (ref : nat) (monitor : Reporter)
  | BrowserRejectionHandler (ref : nat) (monitor : Reporter)
  | NodeRejectionHandler (ref : nat) (monitor : Reporter)
  | ConsoleErrorWrapper (ref : nat) (monitor : Reporter) (originalError : Fn)
  | WindowErrorHandler (ref : nat) (monitor : Reporter)
  | WindowFetchWrapper (ref : nat) (monitor : Reporter) (originalFetch : Fn)
  | GlobalFetchWrapper (ref : nat) (monitor : Reporter) (originalFetch : Fn).

Definition fn_ref (f : Fn) : nat :=
  match f with
  | Native r | UncaughtHandler r _ | BrowserRejectionHandler r _
  | NodeRejectionHandler r _ | ConsoleErrorWrapper r _ _
  | WindowErrorHandler r _ | WindowFetchWrapper r _ _
  | GlobalFetchWrapper r _ _ => r
  end.

#[global] Instance Data_eq_dec : EqDecision Data.
Proof. solve_decision. Defined.
#[global] Instance Options_eq_dec : EqDecision Options.
Proof. solve_decision. Defined.
#[global] Instance Reporter_eq_dec : EqDecision Reporter.
Proof. solve_decision. Defined.
#[global] Instance Fn_eq_dec : EqDecision Fn.
Proof. solve_decision. Defined.

(** ** The runtime: globals, listeners and what the monitor emits *)

(** The payload of a report ([ErrorPayload]); [None] is [undefined]. *)
Record ErrorPayload := {
  p_event : string;
  p_error : string;
  p_stack : option string;
  p_file : option string;
  p_function : option string;
  p_line : option string;
  p_col : option string;
  p_data : Options;
  p_timestamp : string;
  p_errorType : ErrorType;
}.

(** The request handed to the HTTP client; [req_body] is the payload whose
    JSON text is the body. *)
Record Request := {
  req_url : string;
  req_method : string;
  req_authorization : string;
  req_content_type : string;
  req_body : ErrorPayload;
}.

(** Lines written to the console. *)
Inductive ConsoleLine :=
  | LogLine (label : string) (payload : ErrorPayload)  (* console.log *)
  | ErrorLine (sink : Fn) (args : list Value).         (* a sink of console.error *)

(** A call [monitor.reportError(event, err, errorType)] whose promise the
    caller drops. *)
Record ReportCall := {
  call_monitor : Reporter;
  call_event : string;
  call_err : Value;
  call_errorType : ErrorType;
}.

Record World := {
  (** [typeof process !== 'undefined'], with [process.on] and
      [process.removeListener]; the listeners in registration order. *)
  has_process : bool;
  process_listeners : list (string * Fn);
  (** The objects that [window] and [global] denote; [None] when the name
      is undefined.  Both names may denote one object. *)
  window : option nat;
  global : option nat;
  window_listeners : list (string * Fn);
  (** The [fetch] property of each global object; absent is [undefined]. *)
  fetch_of : gmap nat Fn;
  (** [typeof console !== 'undefined'] and the value of [console.error]. *)
  has_console : bool;
  console_error : Fn;
  (** The next unused object address. *)
  next_ref : nat;
  (** What has been written, sent and started so far. *)
  console_out : list ConsoleLine;
  http_log : list Request;
  spawned : list ReportCall;
}.

Definition set_process_listeners (l : list (string * Fn)) (w : World) : World :=
  {| has_process := has_process w; process_listeners := l;
     window := window w; global := global w;
     window_listeners := window_listeners w; fetch_of := fetch_of w;
     has_console := has_console w; console_error := console_error w;
     next_ref := next_ref w; console_out := console_out w;
     http_log := http_log w; spawned := spawned w |}.

Definition set_window_listeners (l : list (string * Fn)) (w : World) : World :=
  {| has_process := has_process w; process_listeners := process_listeners w;
     window := window w; global := global w;
     window_listeners := l; fetch_of := fetch_of w;
     has_console := has_console w; console_error := console_error w;
     next_ref := next_ref w; console_out := console_out w;
     http_log := http_log w; spawned := spawned w |}.

Definition set_fetch_of (m : gmap nat Fn) (w : World) : World :=
  {| has_process := has_process w; process_listeners := process_listeners w;
     window := window w; global := global w;
     window_listeners := window_listeners w; fetch_of := m;
     has_console := has_console w; console_error := console_error w;
     next_ref := next_ref w; console_out := console_out w;
     http_log := http_log w; spawned := spawned w |}.

Definition set_console_error (f : Fn) (w : World) : World :=
  {| has_process := has_process w; process_listeners := process_listeners w;
     window := window w; global := global w;
     window_listeners := window_listeners w; fetch_of := fetch_of w;
     has_console := has_console w; console_error := f;
     next_ref := next_ref w; console_out := console_out w;
     http_log := http_log w; spawned := spawned w |}.

Definition set_next_ref (n : nat) (w : World) : World :=
  {| has_process := has_process w; process_listeners := process_listeners w;
     window := window w; global := global w;
     window_listeners := window_listeners w; fetch_of := fetch_of w;
     has_console := has_console w; console_error := console_error w;
     next_ref := n; console_out := console_out w;
     http_log := http_log w; spawned := spawned w |}.

Definition set_console_out (l : list ConsoleLine) (w : World) : World :=
  {| has_process := has_process w; process_listeners := process_listeners w;
     window := window w; global := global w;
     window_listeners := window_listeners w; fetch_of := fetch_of w;
     has_console := has_console w; console_error := console_error w;
     next_ref := next_ref w; console_out := l;
     http_log := http_log w; spawned := spawned w |}.

Definition set_http_log (l : list Request) (w : World) : World :=
  {| has_process := has_process w; process_listeners := process_listeners w;
     window := window w; global := global w;
     window_listeners := window_listeners w; fetch_of := fetch_of w;
     has_console := has_console w; console_error := console_error w;
     next_ref := next_ref w; console_out := console_out w;
     http_log := l; spawned := spawned w |}.

Definition set_spawned (l : list ReportCall) (w : World) : World :=
  {| has_process := has_process w; process_listeners := process_listeners w;
     window := window w; global := global w;
     window_listeners := window_listeners w; fetch_of := fetch_of w;
     has_console := has_console w; console_error := console_error w;
     next_ref := next_ref w; console_out := console_out w;
     http_log := http_log w; spawned := l |}.

(** [window.fetch] and [global.fetch]: the property of the object the name
    denotes. *)
Definition window_fetch (w : World) : option Fn :=
  o ← window w; fetch_of w !! o.
Definition global_fetch (w : World) : option Fn :=
  o ← global w; fetch_of w !! o.

(** [obj.fetch = f] *)
Definition assign_fetch (obj : nat) (f : Fn) (w : World) : World :=
  set_fetch_of (<[obj := f]> (fetch_of w)) w.

(** A new function or object: its address. *)
Definition fresh (w : World) : nat * World :=
  (next_ref w, set_next_ref (S (next_ref w)) w).

(** *** Listener lists *)

Fixpoint remove_first (x : string * Fn) (l : list (string * Fn))
  : list (string * Fn) :=
  match l with
  | [] => []
  | y :: l' => if decide (x = y) then l' else y :: remove_first x l'
  end.

(** [emitter.on(type, h)]: appended, duplicates allowed. *)
Definition emitter_on (type : string) (h : Fn) (l : list (string * Fn)) :=
  l ++ [(type, h)].

(** [emitter.removeListener(type, h)]: the most recently added instance. *)
Definition emitter_removeListener (type : string) (h : Fn)
    (l : list (string * Fn)) :=
  reverse (remove_first (type, h) (reverse l)).

(** [target.addEventListener(type, h)]: ignored when the same listener is
    already registered for the type. *)
Definition addEventListener (type : string) (h : Fn) (l : list (string * Fn)) :=
  if decide ((type, h) ∈ l) then l else l ++ [(type, h)].

(** [target.removeEventListener(type, h)] *)
Definition removeEventListener (type : string) (h : Fn)
    (l : list (string * Fn)) :=
  remove_first (type, h) l.

(** ** The class [ErrorMonitor] *)

Record ErrorMonitor := {
  apiKey : string;
  options : Options;
  originalHandlers : gmap string Fn;
  isActive : bool;
}.

(** [constructor(apiKey, options = {})] *)
Definition new_ErrorMonitor (apiKey : string) (options : MonitorOptions)
  : ErrorMonitor :=
  {| apiKey := apiKey; options := spread_over_defaults options;
     originalHandlers := ∅; isActive := false |}.

Definition reporter (this : ErrorMonitor) : Reporter :=
  {| rep_apiKey := apiKey this; rep_options := options this |}.

Definition set_isActive (b : bool) (this : ErrorMonitor) : ErrorMonitor :=
  {| apiKey := apiKey this; options := options this;
     originalHandlers := originalHandlers this; isActive := b |}.

(** [this.originalHandlers.set(key, f)] *)
Definition handlers_set (key : string) (f : Fn) (this : ErrorMonitor)
  : ErrorMonitor :=
  {| apiKey := apiKey this; options := options this;
     originalHandlers := <[key := f]> (originalHandlers this);
     isActive := isActive this |}.

(** [this.originalHandlers.clear()] *)
Definition handlers_clear (this : ErrorMonitor) : ErrorMonitor :=
  {| apiKey := apiKey this; options := options this;
     originalHandlers := ∅; isActive := isActive this |}.

(** *** [start]: one definition per block of the method, in source order *)

(** Uncaught exceptions (Node.js). *)
Definition hook_uncaughtException (this : ErrorMonitor) (w : World)
  : ErrorMonitor * World :=
  if has_process w then
    let '(r, w) := fresh w in
    let uncaughtHandler := UncaughtHandler r (reporter this) in
    (handlers_set "uncaughtException" uncaughtHandler this,
     set_process_listeners
       (emitter_on "uncaughtException" uncaughtHandler (process_listeners w)) w)
  else (this, w).

(** Unhandled promise rejections: the browser branch when [window] is
    defined, else the Node.js branch. *)
Definition hook_rejections (this : ErrorMonitor) (w : World)
  : ErrorMonitor * World :=
  if enablePromiseRejections (options this) then
    match window w with
    | Some _ =>
        let '(r, w) := fresh w in
        let rejectionHandler := BrowserRejectionHandler r (reporter this) in
        (handlers_set "unhandledrejection" rejectionHandler this,
         set_window_listeners
           (addEventListener "unhandledrejection" rejectionHandler
              (window_listeners w)) w)
    | None =>
        if has_process w then
          let '(r, w) := fresh w in
          let rejectionHandler := NodeRejectionHandler r (reporter this) in
          (handlers_set "unhandledRejection" rejectionHandler this,
           set_process_listeners
             (emitter_on "unhandledRejection" rejectionHandler
                (process_listeners w)) w)
        else (this, w)
    end
  else (this, w).

(** [console.error] *)
Definition hook_console_error (this : ErrorMonitor) (w : World)
  : ErrorMonitor * World :=
  if enableConsoleErrors (options this) && has_console w then
    let originalError := console_error w in
    let '(r, w) := fresh w in
    (handlers_set "console.error" originalError this,
     set_console_error
       (ConsoleErrorWrapper r (reporter this) originalError) w)
  else (this, w).

(** The browser's [error] event. *)
Definition hook_window_error (this : ErrorMonitor) (w : World)
  : ErrorMonitor * World :=
  match window w with
  | Some _ =>
      let '(r, w) := fresh w in
      let errorHandler := WindowErrorHandler r (reporter this) in
      (handlers_set "error" errorHandler this,
       set_window_listeners
         (addEventListener "error" errorHandler (window_listeners w)) w)
  | None => (this, w)
  end.

(** [window.fetch] *)
Definition hook_window_fetch (this : ErrorMonitor) (w : World)
  : ErrorMonitor * World :=
  if enableFetchMonitoring (options this) then
    match window w with
    | Some win =>
        match fetch_of w !! win with
        | Some originalFetch =>
            let '(r, w) := fresh w in
            (handlers_set "fetch" originalFetch this,
             assign_fetch win
               (WindowFetchWrapper r (reporter this) originalFetch) w)
        | None => (this, w)
        end
    | None => (this, w)
    end
  else (this, w).

(** [global.fetch] *)
Definition hook_global_fetch (this : ErrorMonitor) (w : World)
  : ErrorMonitor * World :=
  if enableFetchMonitoring (options this) then
    match global w with
    | Some glob =>
        match fetch_of w !! glob with
        | Some originalFetch =>
            let '(r, w) := fresh w in
            (handlers_set "global.fetch" originalFetch this,
             assign_fetch glob
               (GlobalFetchWrapper r (reporter this) originalFetch) w)
        | None => (this, w)
        end
    | None => (this, w)
    end
  else (this, w).

Definition start (this : ErrorMonitor) (w : World) : ErrorMonitor * World :=
  if isActive this then (this, w)
  else
    let this := set_isActive true this in
    let '(this, w) := hook_uncaughtException this w in
    let '(this, w) := hook_rejections this w in
    let '(this, w) := hook_console_error this w in
    let '(this, w) := hook_window_error this w in
    let '(this, w) := hook_window_fetch this w in
    hook_global_fetch this w.

(** *** [stop] *)

(** [const h = this.originalHandlers.get(key); if (h) emitter.removeListener(type, h)] *)
Definition unhook_process (this : ErrorMonitor) (key : string) (w : World)
  : World :=
  match originalHandlers this !! key with
  | Some h =>
      set_process_listeners
        (emitter_removeListener key h (process_listeners w)) w
  | None => w
  end.

Definition unhook_window (this : ErrorMonitor) (key : string) (w : World)
  : World :=
  match originalHandlers this !! key with
  | Some h =>
      set_window_listeners
        (removeEventListener key h (window_listeners w)) w
  | None => w
  end.

Definition restore_console_error (this : ErrorMonitor) (w : World) : World :=
  match originalHandlers this !! "console.error" with
  | Some originalError =>
      if has_console w then set_console_error originalError w else w
  | None => w
  end.

Definition restore_window_fetch (this : ErrorMonitor) (w : World) : World :=
  match originalHandlers this !! "fetch", window w with
  | Some originalFetch, Some win => assign_fetch win originalFetch w
  | _, _ => w
  end.

Definition restore_global_fetch (this : ErrorMonitor) (w : World) : World :=
  match originalHandlers this !! "global.fetch", global w with
  | Some originalGlobalFetch, Some glob =>
      assign_fetch glob originalGlobalFetch w
  | _, _ => w
  end.

(** The statements of [stop] between the guard and the [clear()]. *)
Definition restore (this : ErrorMonitor) (w : World) : World :=
  let w :=
    if has_process w
    then unhook_process this "unhandledRejection"
           (unhook_process this "uncaughtException" w)
    else w in
  let w :=
    match window w with
    | Some _ =>
        unhook_window this "error" (unhook_window this "unhandledrejection" w)
    | None => w
    end in
  let w := restore_console_error this w in
  let w := restore_window_fetch this w in
  restore_global_fetch this w.

Definition stop (this : ErrorMonitor) (w : World) : ErrorMonitor * World :=
  if negb (isActive this) then (this, w)
  else
    let this := set_isActive false this in
    let w := restore this w in
    (handlers_clear this, w).

(** ** Evaluation: completions, exceptions, promises *)

Inductive Completion (A : Type) :=
  | Normal (a : A)
  | Throw (e : Value).
Arguments Normal {A} a.
Arguments Throw {A} e.

(** A computation of the runtime: it returns or throws, and changes the
    world. *)
Definition JS (A : Type) : Type := World → Completion A * World.

Definition ret {A} (a : A) : JS A := λ w, (Normal a, w).
Definition throw {A} (e : Value) : JS A := λ w, (Throw e, w).
Definition bind {A B} (c : JS A) (k : A → JS B) : JS B :=
  λ w, match c w with
       | (Normal a, w') => k a w'
       | (Throw e, w') => (Throw e, w')
       end.
(** [try { body } catch (e) { handler }] *)
Definition try_catch {A} (body : JS A) (handler : Value → JS A) : JS A :=
  λ w, match body w with
       | (Normal a, w') => (Normal a, w')
       | (Throw e, w') => handler e w'
       end.
Definition modify (f : World → World) : JS unit := λ w, (Normal tt, f w).

Notation "'do' x <- c ; k" := (bind c (λ x, k))
  (at level 10, x name, c at level 100, k at level 200,
   format "'[v' 'do'  x  <-  c ; '/' k ']'").
Notation "c ;; k" := (bind c (λ _, k))
  (at level 100, k at level 200, right associativity).

(** The outcome of an [async] function body, and the call expression that
    delivers it as a promise: the call itself returns. *)
Definition async (body : JS unit) : World → Settled * World :=
  λ w, match body w with
       | (Normal _, w') => (Fulfilled VUndefined, w')
       | (Throw e, w') => (Rejected e, w')
       end.

Definition promise_of (run : World → Settled * World) : JS Value :=
  λ w, let '(o, w) := run w in
       let '(r, w) := fresh w in
       (Normal (VPromise (PSettles r o)), w).

(** A call of [reportError] whose promise is dropped. *)
Definition spawn (c : ReportCall) : JS unit :=
  modify (λ w, set_spawned (spawned w ++ [c]) w).



(** ** The host *)

(** What a request of the monitor's HTTP client meets. *)
Inductive FetchOutcome :=
  | FetchThrows (e : Value)        (* the call throws *)
  | FetchRejects (reason : Value)  (* the promise rejects: network failure, timeout *)
  | FetchResponds (status : Z).    (* a response with this status *)

(** [response.ok] *)
Definition response_ok (status : Z) : bool :=
  (200 <=? status) && (status <=? 299).

Record Host := {
  (** The imported [fetch]: the outcome of the request, given how many
      requests were sent before it. *)
  transport : nat → Request → FetchOutcome;
  (** The [stack] the runtime gives an error created with this message. *)
  new_stack : string → option string;
  (** [new Date().toISOString()] *)
  now : string;
}.

Definition siren : string :=
  string_of_list_ascii
    (map ascii_of_nat [195; 176; 197; 184; 197; 161; 194; 168]%nat).
Definition reporting_label : string :=
  siren +:+ " Error Monitor - Reporting issue:".
Definition failed_label : string :=
  siren +:+ " Error Monitor - Failed to report error:".

Section Runtime.
Context (host : Host).

(** [new Error(message)], and the errors the runtime itself raises. *)
Definition new_Error (message : string) : JS Value :=
  λ w, let '(r, w) := fresh w in
       (Normal (VError r message (new_stack host message)), w).

Definition throw_new_Error {A} (message : string) : JS A :=
  do e <- new_Error message; throw e.

(** [console.log(label, payload)] *)
Definition console_log (label : string) (payload : ErrorPayload) : JS unit :=
  λ w, if has_console w
       then modify (λ w, set_console_out
                           (console_out w ++ [LogLine label payload]) w) w
       else throw_new_Error "console is not defined" w.

(** A call of the function found in [console.error].  The wrapper that
    [start] installs calls the function it replaced and then reports; any
    other function is a sink of the host, which writes the line and
    returns. *)
Fixpoint call_console_error (f : Fn) (args : list Value) : JS unit :=
  match f with
  | ConsoleErrorWrapper _ monitor originalError =>
      call_console_error originalError args ;;
      match args with
      | firstArg :: rest =>
          if instanceof_Error firstArg then
            spawn {| call_monitor := monitor; call_event := "console_error";
                     call_err := firstArg; call_errorType := manual |}
          else
            match firstArg, rest with
            | VStr label, second :: _ =>
                if instanceof_Error second then
                  spawn {| call_monitor := monitor; call_event := label;
                           call_err := second; call_errorType := manual |}
                else ret tt
            | _, _ => ret tt
            end
      | [] => ret tt
      end
  | sink =>
      modify (λ w, set_console_out (console_out w ++ [ErrorLine sink args]) w)
  end.

(** [console.error(...args)] *)
Definition console_error_call (args : list Value) : JS unit :=
  λ w, if has_console w
       then call_console_error (console_error w) args w
       else throw_new_Error "console is not defined" w.

(** [await fetch(url, init)] inside a [try]: a throw of the call and a
    rejection of its promise both arrive as an exception. *)
Definition await_fetch (req : Request) : JS Z :=
  λ w, let w' := set_http_log (http_log w ++ [req]) w in
       match transport host (length (http_log w)) req with
       | FetchThrows e => (Throw e, w')
       | FetchRejects reason => (Throw reason, w')
       | FetchResponds status => (Normal status, w')
       end.

(** *** [reportError] *)

(** [err instanceof Error ? err : new Error(String(err))] *)
Definition error_object (err : Value) : JS Value :=
  if instanceof_Error err then ret err else new_Error (js_String err).

Definition error_message (errorObj : Value) : string :=
  match errorObj with VError _ m _ => m | _ => "" end.
Definition error_stack (errorObj : Value) : option string :=
  match errorObj with VError _ _ s => s | _ => None end.

Definition build_payload (this : Reporter) (event : string) (errorObj : Value)
    (errorType : ErrorType) : ErrorPayload :=
  let ci := Stack.extract (error_stack errorObj) in
  {| p_event := event;
     p_error := error_message errorObj;
     p_stack := error_stack errorObj;
     p_file := Stack.fileName ci;
     p_function := Stack.functionName ci;
     p_line := Stack.line ci;
     p_col := Stack.col ci;
     p_data := rep_options this;
     p_timestamp := now host;
     p_errorType := errorType |}.

Definition build_request (this : Reporter) (payload : ErrorPayload) : Request :=
  {| req_url := endpoint (rep_options this);
     req_method := "POST";
     req_authorization := "Bearer " +:+ rep_apiKey this;
     req_content_type := "application/json";
     req_body := payload |}.

(** The statements inside [try]. *)
Definition report_try (this : Reporter) (event : string) (err : Value)
    (errorType : ErrorType) : JS unit :=
  do errorObj <- error_object err;
  let payload := build_payload this event errorObj errorType in
  console_log reporting_label payload ;;
  do status <- await_fetch (build_request this payload);
  if negb (response_ok status)
  then throw_new_Error ("Error reporting failed with status "
                        +:+ js_String (VNum status))
  else ret tt.

(** The body of the method, with [this.apiKey] and [this.options] read
    from [this]. *)
Definition report (this : Reporter) (event : string) (err : Value)
    (errorType : ErrorType) : World → Settled * World :=
  async (try_catch (report_try this event err errorType)
           (λ reportErr,
              console_error_call [VStr failed_label; reportErr])).

(** [this.reportError(event, err, errorType)] *)
Definition reportError (this : ErrorMonitor) (event : string) (err : Value)
    (errorType : ErrorType) : JS Value :=
  promise_of (report (reporter this) event err errorType).

(** One dropped call runs. *)
Definition run_next (w : World) : World :=
  match spawned w with
  | [] => w
  | c :: rest =>
      snd (report (call_monitor c) (call_event c) (call_err c)
             (call_errorType c) (set_spawned rest w))
  end.

End Runtime.

(** ** [wrapFunction] *)

(** A function of the application: its [name] and what a call does. *)
Record JsFunction := {
  fn_name : string;
  fn_apply : Value → list Value → JS Value;   (* fn.apply(this, args) *)
}.

(** [a || b] on an optional string and a string. *)
Definition or_else (a : option string) (b : string) : string :=
  match a with
  | Some s => if String.eqb s "" then b else s
  | None => b
  end.

Section Wrapping.
Context (host : Host).

(** [result.catch(handler)] *)
Definition catch_method (result : Value) (handler : Reaction) : JS Value :=
  match result with
  | VPromise p =>
      λ w, let '(r, w) := fresh w in (Normal (VPromise (PCatch r p handler)), w)
  | _ => throw_new_Error host "result.catch is not a function"
  end.

Definition wrapFunction (this : ErrorMonitor) (fn : JsFunction)
    (functionName : option string) : JsFunction :=
  let monitor := reporter this in
  {| fn_name := fn_name fn;
     fn_apply := λ self args,
       try_catch
         (do result <- fn_apply fn self args;
          if truthy result && is_thenable result
          then catch_method result
                 (ReportAndRethrow monitor
                    (or_else functionName
                       (or_else (Some (fn_name fn))
                          "anonymous_async_function")))
          else ret result)
         (λ error,
            spawn {| call_monitor := monitor;
                     call_event :=
                       or_else functionName
                         (or_else (Some (fn_name fn)) "anonymous_function");
                     call_err := error;
                     call_errorType := manual |} ;;
            throw error) |}.

End Wrapping.

(** ** The module: the global monitor and the exported functions *)

(** The monitors the module has constructed, by address, and the variable
    [globalMonitor]. *)
Record Module := {
  monitors : list ErrorMonitor;
  globalMonitor : option nat;
}.

Definition initial_module : Module :=
  {| monitors := []; globalMonitor := None |}.

(** [new ErrorMonitor(apiKey, options)]: the address of the new object. *)
Definition allocate (m : ErrorMonitor) (md : Module) : nat * Module :=
  (length (monitors md),
   {| monitors := monitors md ++ [m]; globalMonitor := globalMonitor md |}).

(** A method call that updates the object at [addr]. *)
Definition update_at (addr : nat)
    (method : ErrorMonitor → World → ErrorMonitor * World)
    (md : Module) (w : World) : Module * World :=
  match monitors md !! addr with
  | Some m =>
      let '(m', w') := method m w in
      ({| monitors := <[addr := m']> (monitors md);
          globalMonitor := globalMonitor md |}, w')
  | None => (md, w)
  end.

Definition set_globalMonitor (g : option nat) (md : Module) : Module :=
  {| monitors := monitors md; globalMonitor := g |}.

(** [monitor(apiKey, options = {})] *)
Definition monitor (apiKey : string) (options : MonitorOptions)
    (md : Module) (w : World) : nat * Module * World :=
  let '(md, w) :=
    match globalMonitor md with
    | Some g => update_at g stop md w
    | None => (md, w)
    end in
  let '(addr, md) := allocate (new_ErrorMonitor apiKey options) md in
  let md := set_globalMonitor (Some addr) md in
  let '(md, w) := update_at addr start md w in
  (addr, md, w).

(** [stopMonitoring()] *)
Definition stopMonitoring (md : Module) (w : World) : Module * World :=
  match globalMonitor md with
  | Some g =>
      let '(md, w) := update_at g stop md w in
      (set_globalMonitor None md, w)
  | None => (md, w)
  end.

(** The object that [globalMonitor] holds, [None] for [null]. *)
Definition the_globalMonitor (md : Module) : option ErrorMonitor :=
  g ← globalMonitor md; monitors md !! g.

(** [getMonitor()] *)
Definition getMonitor (md : Module) : option nat := globalMonitor md.

Section Api.
Context (host : Host).

(** [issueUpdate(apiKey, event, err, data = {})]: the promise of the
    [reportError] call is what the function returns. *)
Definition issueUpdate (apiKey : string) (event : string) (err : Value)
    (data : MonitorOptions) (md : Module) (w : World)
  : Completion Value * Module * World :=
  match the_globalMonitor md with
  | Some m =>
      let '(p, w) := reportError host m event err manual w in (p, md, w)
  | None =>
      let tempMonitor := new_ErrorMonitor apiKey data in
      let '(_, md) := allocate tempMonitor md in
      let '(p, w) := reportError host tempMonitor event err manual w in
      (p, md, w)
  end.

End Api.

(** * Notions used to state the properties *)

(** ** Conditions on monitors and runtimes *)

(** The monitors that the class itself produces: constructed, then started
    and stopped in any runtime. *)
Inductive Reachable : ErrorMonitor → Prop :=
  | reach_new apiKey options : Reachable (new_ErrorMonitor apiKey options)
  | reach_start this w : Reachable this → Reachable (start this w).1
  | reach_stop this w : Reachable this → Reachable (stop this w).1.

(** Every listener registered on [window] was created before the next
    address is handed out. *)
Definition listeners_allocated (w : World) : Prop :=
  ∀ type h, (type, h) ∈ window_listeners w → (fn_ref h < next_ref w)%nat.

(** [window] and [global] do not denote the same object. *)
Definition separate_globals (w : World) : Prop :=
  ∀ o, window w = Some o → global w ≠ Some o.

(** The four global slots that [start] patches. *)
Definition slots (w : World)
  : list (string * Fn) * list (string * Fn) * Fn * gmap nat Fn :=
  (process_listeners w, window_listeners w, console_error w, fetch_of w).

(** The facilities of the runtime, which no method changes. *)
Definition same_env (w v : World) : Prop :=
  has_process v = has_process w ∧ window v = window w
  ∧ global v = global w ∧ has_console v = has_console w.

(** ** What [restore] leaves in each slot, read off the registry *)

Definition drop_listener
    (remove : string → Fn → list (string * Fn) → list (string * Fn))
    (reg : gmap string Fn) (key : string) (l : list (string * Fn))
  : list (string * Fn) :=
  match reg !! key with
  | Some h => remove key h l
  | None => l
  end.

Definition restored_process_listeners (reg : gmap string Fn) (w : World) :=
  if has_process w
  then drop_listener emitter_removeListener reg "unhandledRejection"
         (drop_listener emitter_removeListener reg "uncaughtException"
            (process_listeners w))
  else process_listeners w.

Definition restored_window_listeners (reg : gmap string Fn) (w : World) :=
  match window w with
  | Some _ =>
      drop_listener removeEventListener reg "error"
        (drop_listener removeEventListener reg "unhandledrejection"
           (window_listeners w))
  | None => window_listeners w
  end.

Definition restored_console_error (reg : gmap string Fn) (w : World) : Fn :=
  match reg !! "console.error" with
  | Some originalError => if has_console w then originalError else console_error w
  | None => console_error w
  end.

Definition restored_fetch_of (reg : gmap string Fn) (w : World) : gmap nat Fn :=
  let m :=
    match reg !! "fetch", window w with
    | Some originalFetch, Some win => <[win := originalFetch]> (fetch_of w)
    | _, _ => fetch_of w
    end in
  match reg !! "global.fetch", global w with
  | Some originalGlobalFetch, Some glob => <[glob := originalGlobalFetch]> m
  | _, _ => m
  end.

Definition restored (reg : gmap string Fn) (w : World) :=
  (restored_process_listeners reg w, restored_window_listeners reg w,
   restored_console_error reg w, restored_fetch_of reg w).

(** The state of a [start] in progress, seen from the runtime [w] it began
    in: restoring from the registry gives back the slots of [w], and the
    keys of the blocks still to run are not in the registry. *)
Definition Installing (w : World) (pending : list string)
    (st : ErrorMonitor * World) : Prop :=
  same_env w st.2
  ∧ listeners_allocated st.2
  ∧ restored (originalHandlers st.1) st.2 = slots w
  ∧ ∀ k, k ∈ pending → originalHandlers st.1 !! k = None.

(** ** Keys and listeners *)

(** The keys of the registry, in the order the blocks of [start] set them
    (the second and third are the two branches of one block). *)
Definition all_keys : list string :=
  ["uncaughtException"; "unhandledrejection"; "unhandledRejection";
   "console.error"; "error"; "fetch"; "global.fetch"].

(** [emitter.listeners(type)]: the functions registered for [type]. *)
Definition listeners_for (type : string) (l : list (string * Fn)) : list Fn :=
  omap (λ p, if decide (p.1 = type) then Some p.2 else None) l.

(** ** The request that one call of [reportError] sends *)

Section Sent.
Context (host : Host).

(** [errorObj], computed in the world the call starts in. *)
Definition errorObj_of (err : Value) (w : World) : Value :=
  if instanceof_Error err then err
  else VError (next_ref w) (js_String err) (new_stack host (js_String err)).

Definition request_of (this : Reporter) (event : string) (err : Value)
    (errorType : ErrorType) (w : World) : Request :=
  build_request this
    (build_payload host this event (errorObj_of err w) errorType).

End Sent.

(** ** Calls of the exported functions *)

Inductive ApiCall :=
  | CallMonitor (apiKey : string) (options : MonitorOptions)
  | CallStopMonitoring
  | CallGetMonitor
  | CallIssueUpdate (apiKey : string) (event : string) (err : Value)
      (data : MonitorOptions).

Definition run_call (host : Host) (st : Module * World) (c : ApiCall)
  : Module * World :=
  match c with
  | CallMonitor apiKey options =>
      let '(_, md, w) := monitor apiKey options st.1 st.2 in (md, w)
  | CallStopMonitoring => stopMonitoring st.1 st.2
  | CallGetMonitor => st
  | CallIssueUpdate apiKey event err data =>
      let '(_, md, w) := issueUpdate host apiKey event err data st.1 st.2 in
      (md, w)
  end.

(** A program that uses the module through its exported functions only. *)
Definition run_calls (host : Host) (calls : list ApiCall) (w : World)
  : Module * World :=
  foldl (run_call host) (initial_module, w) calls.

(** Only the monitor that [globalMonitor] refers to may be active. *)
Definition only_global_active (md : Module) : Prop :=
  ∀ i m, monitors md !! i = Some m → isActive m = true →
         globalMonitor md = Some i.

(** * The closures of [start] at work, [wrapObject] and [monitored] *)

(** ** The listeners that [start] registers *)

(** An event object of the browser, with the properties the listeners read;
    a property that the event does not have reads [undefined]. *)
Record DomEvent := {
  ev_type : string;
  ev_reason : Value;            (* event.reason *)
  ev_error : Value;             (* event.error *)
  ev_message : option string;   (* event.message *)
}.

(** [new PromiseRejectionEvent('unhandledrejection', { reason })] *)
Definition PromiseRejectionEvent (reason : Value) : DomEvent :=
  {| ev_type := "unhandledrejection"; ev_reason := reason;
     ev_error := VUndefined; ev_message := None |}.

(** [new ErrorEvent('error', { error, message })] *)
Definition ErrorEvent (error : Value) (message : string) : DomEvent :=
  {| ev_type := "error"; ev_reason := VUndefined;
     ev_error := error; ev_message := Some message |}.

(** [args[i]] *)
Definition arg (i : nat) (args : list Value) : Value := nth i args VUndefined.

Section Listeners.
Context (host : Host).

(** [(error) => { this.reportError('uncaught_exception', error, 'uncaught'); }] *)
Definition uncaughtHandler (monitor : Reporter) (error : Value) : JS unit :=
  spawn {| call_monitor := monitor; call_event := "uncaught_exception";
           call_err := error; call_errorType := uncaught |}.

(** The Node.js listener, [(reason, promise) => { ... }]; the second
    parameter is not read. *)
Definition node_rejectionHandler (monitor : Reporter) (reason rejected : Value)
  : JS unit :=
  do error <- (if instanceof_Error reason then ret reason
               else new_Error host (js_String reason));
  spawn {| call_monitor := monitor;
           call_event := "unhandled_promise_rejection";
           call_err := error; call_errorType := promise |}.

(** The browser listener, [(event) => { ... }]. *)
Definition browser_rejectionHandler (monitor : Reporter) (event : DomEvent)
  : JS unit :=
  do error <- (if instanceof_Error (ev_reason event) then ret (ev_reason event)
               else new_Error host (js_String (ev_reason event)));
  spawn {| call_monitor := monitor;
           call_event := "unhandled_promise_rejection";
           call_err := error; call_errorType := promise |}.

(** [(event) => { const error = event.error || new Error(event.message); ... }];
    [new Error(undefined)] has the empty message. *)
Definition errorHandler (monitor : Reporter) (event : DomEvent) : JS unit :=
  do error <- (if truthy (ev_error event) then ret (ev_error event)
               else new_Error host (default "" (ev_message event)));
  spawn {| call_monitor := monitor; call_event := "global_error";
           call_err := error; call_errorType := uncaught |}.

(** A listener of [process] called with the arguments of the event.  The
    closures that [start] registers on [process] run their bodies; any other
    listener is the application's and is not followed. *)
Definition call_process_listener (h : Fn) (args : list Value) : JS unit :=
  match h with
  | UncaughtHandler _ monitor => uncaughtHandler monitor (arg 0 args)
  | NodeRejectionHandler _ monitor =>
      node_rejectionHandler monitor (arg 0 args) (arg 1 args)
  | _ => ret tt
  end.

(** A listener of [window] called with the event; likewise. *)
Definition call_window_listener (h : Fn) (event : DomEvent) : JS unit :=
  match h with
  | BrowserRejectionHandler _ monitor => browser_rejectionHandler monitor event
  | WindowErrorHandler _ monitor => errorHandler monitor event
  | _ => ret tt
  end.

(** [process.emit(type, ...args)]: the listeners of the type, in the order
    they were registered; an exception of a listener ends the call. *)
Fixpoint emit_each (hs : list Fn) (args : list Value) : JS unit :=
  match hs with
  | [] => ret tt
  | h :: hs' => call_process_listener h args ;; emit_each hs' args
  end.

Definition process_emit (type : string) (args : list Value) : JS unit :=
  λ w, emit_each (listeners_for type (process_listeners w)) args w.

(** [window.dispatchEvent(event)]: likewise, but an exception of a listener
    is reported by the browser and the next listener is called. *)
Fixpoint dispatch_each (hs : list Fn) (event : DomEvent) : JS unit :=
  match hs with
  | [] => ret tt
  | h :: hs' =>
      try_catch (call_window_listener h event) (λ _, ret tt) ;;
      dispatch_each hs' event
  end.

Definition window_dispatchEvent (event : DomEvent) : JS unit :=
  λ w, dispatch_each (listeners_for (ev_type event) (window_listeners w))
         event w.

End Listeners.

(** ** The wrappers of [fetch] *)

(** A response of the application's [fetch], with what the wrappers read. *)
Record Response := {
  resp_ref : nat;
  resp_status : Z;                 (* response.status *)
  resp_statusText : string;        (* response.statusText *)
  resp_text : option string;       (* response.clone().text(); [None] when it fails *)
}.

(** What a call of a [fetch] of the host meets. *)
Inductive AppFetch :=
  | AppThrows (e : Value)
  | AppRejects (reason : Value)
  | AppResponds (response : Response).

Section Fetching.
Context (host : Host).
(** The [fetch] functions of the host, by address: the outcome of a call
    with this input. *)
Context (app_fetch : nat → Value → AppFetch).

(** [typeof input === 'string' ? input : input.toString()] *)
Definition url_of (input : Value) : JS string :=
  match input with
  | VStr s => ret s
  | VUndefined =>
      throw_new_Error host
        "Cannot read properties of undefined (reading 'toString')"
  | VNull =>
      throw_new_Error host "Cannot read properties of null (reading 'toString')"
  | v => ret (js_String v)
  end.

(** [const clone = response.clone(); responseBody = await clone.text();] *)
Definition read_body (response : Response) : JS string :=
  match resp_text response with
  | Some s => ret s
  | None => throw_new_Error host "body stream already read"
  end.

(** The message [HTTP <status>: <statusText>]. *)
Definition http_error (response : Response) : string :=
  "HTTP " +:+ js_String (VNum (resp_status response)) +:+ ": "
  +:+ resp_statusText response.

(** [monitor.options.monitorHttpErrors &&
     monitor.options.httpErrorCodes?.includes(response.status)] *)
Definition monitored_status (monitor : Reporter) (response : Response) : bool :=
  monitorHttpErrors (rep_options monitor)
  && bool_decide (resp_status response ∈ httpErrorCodes (rep_options monitor)).

(** [await f(input, init)] for the function [f] found in a [fetch] slot: a
    throw of the call and a rejection of its promise both arrive as an
    exception.  The two wrappers of [start] are [async] functions; any other
    function is a [fetch] of the host. *)
Fixpoint await_fetch_call (f : Fn) (input : Value) : JS Response :=
  match f with
  | WindowFetchWrapper _ monitor originalFetch =>
      try_catch
        (do response <- await_fetch_call originalFetch input;
         (if monitored_status monitor response then
            do url <- url_of input;
            do error <- new_Error host (http_error response);
            do responseBody <- try_catch (read_body response) (λ _, ret "");
            spawn {| call_monitor := monitor;
                     call_event :=
                       "fetch_" +:+ js_String (VNum (resp_status response));
                     call_err := error; call_errorType := manual |}
          else ret tt) ;;
         ret response)
        (λ fetchError,
           do url <- url_of input;
           spawn {| call_monitor := monitor;
                    call_event := "fetch_network_error";
                    call_err := fetchError; call_errorType := manual |} ;;
           throw fetchError)
  | GlobalFetchWrapper _ monitor originalFetch =>
      try_catch
        (do response <- await_fetch_call originalFetch input;
         (if monitored_status monitor response then
            do url <- url_of input;
            do error <- new_Error host (http_error response);
            spawn {| call_monitor := monitor;
                     call_event :=
                       "fetch_" +:+ js_String (VNum (resp_status response));
                     call_err := error; call_errorType := manual |}
          else ret tt) ;;
         ret response)
        (λ fetchError,
           do url <- url_of input;
           spawn {| call_monitor := monitor;
                    call_event := "fetch_network_error";
                    call_err := fetchError; call_errorType := manual |} ;;
           throw fetchError)
  | _ =>
      match app_fetch (fn_ref f) input with
      | AppThrows e => throw e
      | AppRejects reason => throw reason
      | AppResponds response => ret response
      end
  end.

End Fetching.

(** ** [wrapObject] *)

(** An own property of an object, as [wrapObject] meets it: what
    [Object.getOwnPropertyDescriptor] shows as [value] and, for a function,
    whether the object accepts an assignment [obj[prop] = v].  An ordinary
    object accepts it when the property is writable.  A frozen object
    refuses it, and so does a module namespace object, whose exports show
    [writable: true] and still refuse every assignment. *)
Inductive Property :=
  | Method (f : JsFunction) (settable : bool)  (* a data property whose value is a function *)
  | Field (v : Value)                          (* a data property with another value *)
  | Accessor.                                  (* get/set: [descriptor.value] is undefined *)

(** The own properties of an object, in the order of
    [Object.getOwnPropertyNames]. *)
Definition JsObject := list (string * Property).

(** [Object.getOwnPropertyDescriptor(obj, prop)] *)
Fixpoint own_property (obj : JsObject) (prop : string) : option Property :=
  match obj with
  | [] => None
  | (k, p) :: rest => if decide (k = prop) then Some p else own_property rest prop
  end.

(** The object after [obj[prop] = value] has succeeded. *)
Fixpoint set_property (prop : string) (p : Property) (obj : JsObject)
  : JsObject :=
  match obj with
  | [] => [(prop, p)]
  | (k, q) :: rest =>
      if decide (k = prop) then (k, p) :: rest
      else (k, q) :: set_property prop p rest
  end.

Section WrapObject.
Context (host : Host).

(** The body of the [forEach] callback for one name.  The descriptor is
    read for its [value] only.  The module is strict code, so an assignment
    that the object refuses throws. *)
Definition wrap_property (this : ErrorMonitor) (objectName : option string)
    (obj : JsObject) (prop : string)
  : World → Completion unit * JsObject * World :=
  λ w, match own_property obj prop with
       | Some (Method originalMethod settable) =>
           let methodName := or_else objectName "Object" +:+ "." +:+ prop in
           let wrapped :=
             wrapFunction host this originalMethod (Some methodName) in
           if settable
           then (Normal tt, set_property prop (Method wrapped true) obj, w)
           else
             let '(c, w') :=
               throw_new_Error host
                 ("Cannot assign to read only property '" +:+ prop
                  +:+ "' of object") w in
             (c, obj, w')
       | _ => (Normal tt, obj, w)
       end.

(** [names.forEach(prop => { ... })] on the object in the state [obj]. *)
Fixpoint wrap_each (this : ErrorMonitor) (objectName : option string)
    (names : list string) (obj : JsObject)
  : World → Completion unit * JsObject * World :=
  λ w, match names with
       | [] => (Normal tt, obj, w)
       | prop :: rest =>
           match wrap_property this objectName obj prop w with
           | (Normal _, obj', w') => wrap_each this objectName rest obj' w'
           | (Throw e, obj', w') => (Throw e, obj', w')
           end
       end.

(** [wrapObject(obj, objectName?)]: the completion (the object itself when
    it returns), and the properties the object has afterwards. *)
Definition wrapObject (this : ErrorMonitor) (obj : JsObject)
    (objectName : option string)
  : World → Completion unit * JsObject * World :=
  wrap_each this objectName (map fst obj) obj.

End WrapObject.

(** ** The decorator [monitored] *)

Record PropertyDescriptor := {
  desc_value : option JsFunction;   (* [None]: an accessor, [value] is undefined *)
  desc_writable : bool;
  desc_enumerable : bool;
  desc_configurable : bool;
}.

(** The first argument of a method decorator: the prototype of the class
    for an instance member, the class itself for a static one. *)
Inductive Target :=
  | Prototype (className : string)
  | Constructor (className : string).

(** [target.constructor.name]; the constructor of a class is [Function]. *)
Definition constructor_name (target : Target) : string :=
  match target with
  | Prototype className => className
  | Constructor _ => "Function"
  end.

Definition not_initialized : string :=
  "Error monitor not initialized. Call monitor() first.".

Section Decorator.
Context (host : Host).

(** [monitored(target, propertyName, descriptor)]: the completion, and the
    lines given to [console.warn]. *)
Definition monitored (target : Target) (propertyName : string)
    (descriptor : PropertyDescriptor) (md : Module)
  : World → Completion PropertyDescriptor * list string * World :=
  λ w, match the_globalMonitor md with
       | None =>
           if has_console w then (Normal descriptor, [not_initialized], w)
           else
             let '(c, w') := throw_new_Error host "console is not defined" w in
             (c, [], w')
       | Some globalMonitor =>
           match desc_value descriptor with
           | Some method =>
               (Normal
                  {| desc_value :=
                       Some (wrapFunction host globalMonitor method
                               (Some (constructor_name target +:+ "."
                                      +:+ propertyName)));
                     desc_writable := desc_writable descriptor;
                     desc_enumerable := desc_enumerable descriptor;
                     desc_configurable := desc_configurable descriptor |},
                [], w)
           | None =>
               (* [wrapFunction] reads [fn.name] of [undefined] *)
               let '(c, w') :=
                 throw_new_Error host
                   "Cannot read properties of undefined (reading 'name')" w in
               (c, [], w')
           end
       end.

End Decorator.

(** * More notions used to state the properties *)

(** ** Stack lines, and what the two patterns match *)

Module Frames.
Import Regex Stack.

(** Every character of [s] is in the class [c]. *)
Definition all_in (c : cclass) (s : string) : bool :=
  forallb (in_class c) (chars s).

(** No character of [s] is in the class [c]. *)
Definition none_in (c : cclass) (s : string) : bool :=
  forallb (λ ch, negb (in_class c ch)) (chars s).

(** The number of occurrences of the byte [a] in [s]. *)
Fixpoint count (a : ascii) (s : string) : nat :=
  match s with
  | EmptyString => 0
  | String b s' => (if Ascii.eqb a b then 1 else 0) + count a s'
  end.

(** [cs] is empty or begins with a character outside the class [c]. *)
Definition begins_outside (c : cclass) (cs : list string) : bool :=
  match cs with
  | [] => true
  | ch :: _ => negb (in_class c ch)
  end.

(** [s] is empty or begins with a character outside the class [c]. *)
Definition starts_outside (c : cclass) (s : string) : bool :=
  begins_outside c (chars s).

(** What a pattern matches, whatever the order of the search:
    [Matches r s rest caps caps'] when [r] matches the characters between
    [s] and its suffix [rest], and closes the groups that [caps'] adds to
    [caps]. *)
Inductive Matches :
  regex → list string → list string → list string → list string → Prop :=
  | M_Lit a s caps : Matches (Lit a) (String a "" :: s) s caps caps
  | M_Star c p rest caps :
      forallb (in_class c) p = true → Matches (Star c) (p ++ rest) rest caps caps
  | M_StarLazy c p rest caps :
      forallb (in_class c) p = true →
      Matches (StarLazy c) (p ++ rest) rest caps caps
  | M_Plus c p rest caps :
      forallb (in_class c) p = true → p ≠ [] →
      Matches (Plus c) (p ++ rest) rest caps caps
  | M_Group r s rest caps caps' :
      Matches r s rest caps caps' →
      Matches (Group r) s rest caps (caps' ++ [consumed s rest])
  | M_Cat r1 r2 s mid rest caps caps1 caps2 :
      Matches r1 s mid caps caps1 → Matches r2 mid rest caps1 caps2 →
      Matches (Cat r1 r2) s rest caps caps2.

(** A non-empty string of decimal digits. *)
Definition is_number (s : string) : bool :=
  negb (String.eqb s "") && all_in Digit s.

(** The two forms in which V8 prints a frame of a stack. *)
Definition call_site_line (indent fn file ln cl : string) : string :=
  indent +:+ "at " +:+ fn +:+ " (" +:+ file +:+ ":" +:+ ln +:+ ":" +:+ cl
  +:+ ")".
Definition location_line (indent file ln cl : string) : string :=
  indent +:+ "at " +:+ file +:+ ":" +:+ ln +:+ ":" +:+ cl.

(** The letters [at] followed by a white-space character occur in [cs]. *)
Fixpoint at_then_space (cs : list string) : bool :=
  match cs with
  | [] => false
  | ch :: cs' =>
      (String.eqb ch "a"
       && match cs' with
          | t :: sp :: _ => String.eqb t "t" && in_class Space sp
          | _ => false
          end)
      || at_then_space cs'
  end.

(** [s] contains the letters [at] followed by a white-space character. *)
Definition mentions_at (s : string) : bool := at_then_space (chars s).

(** The variables of the loop hold nothing, or a location read off one of
    the lines. *)
Definition well_formed (lines : list string) (ci : CallerInfo) : Prop :=
  (fileName ci = None → ci = unset)
  ∧ (∀ file, fileName ci = Some file →
       ∃ ln cl, line ci = Some ln ∧ col ci = Some cl
                ∧ is_number ln = true ∧ is_number cl = true
                ∧ ∃ l, l ∈ lines
                       ∧ includes (file +:+ ":" +:+ ln +:+ ":" +:+ cl) l = true)
  ∧ (∀ name, functionName ci = Some name →
       is_Some (fileName ci) ∧ ∃ l, l ∈ lines ∧ includes name l = true).

End Frames.


(** ** Effects, and functions of the host *)

(** What has been written, sent and started. *)
Definition effects (w : World) : list ConsoleLine * list Request * list ReportCall :=
  (console_out w, http_log w, spawned w).

(** A listener of the application. *)
Definition is_native (h : Fn) : bool :=
  match h with Native _ => true | _ => false end.

(** A runtime in which the monitor has patched nothing yet: every listener,
    [console.error] and every [fetch] are functions of the host. *)
Definition unpatched (w : World) : Prop :=
  (∀ type h, (type, h) ∈ process_listeners w → is_native h = true)
  ∧ (∀ type h, (type, h) ∈ window_listeners w → is_native h = true)
  ∧ is_native (console_error w) = true
  ∧ (∀ o f, fetch_of w !! o = Some f → is_native f = true).

(** ** The wrappers of [fetch] and of methods *)

(** [input] is [undefined] or [null]. *)
Definition nullish (v : Value) : bool :=
  match v with VUndefined | VNull => true | _ => false end.

(** One of the two wrappers of [start] around [originalFetch]. *)
Definition fetch_wrapper_of (monitor : Reporter) (originalFetch : Fn) (f : Fn)
  : Prop :=
  ∃ r, f = WindowFetchWrapper r monitor originalFetch
       ∨ f = GlobalFetchWrapper r monitor originalFetch.

(** The property that [wrapObject] leaves in place of [p]. *)
Definition wrapped_property (host : Host) (this : ErrorMonitor)
    (objectName : option string) (entry : string * Property)
  : string * Property :=
  match entry with
  | (prop, Method f _) =>
      (prop,
       Method (wrapFunction host this f
                 (Some (or_else objectName "Object" +:+ "." +:+ prop))) true)
  | other => other
  end.

(** A method that can be assigned to, or a property that is no method. *)
Definition assignable (entry : string * Property) : bool :=
  match entry with
  | (_, Method _ settable) => settable
  | _ => true
  end.

(** ** Programs that use the exported functions *)

(** The state of a program that uses the exported functions, seen from the
    runtime [w] it began in: the facilities are the same; without a global
    monitor the patched slots hold what they held in [w]; with one, it is
    active and restoring from its registry gives back the slots of [w]. *)
Definition Governed (w : World) (st : Module * World) : Prop :=
  same_env w st.2
  ∧ listeners_allocated st.2
  ∧ match globalMonitor st.1 with
    | None => slots st.2 = slots w
    | Some g =>
        ∃ m, monitors st.1 !! g = Some m ∧ isActive m = true
             ∧ restored (originalHandlers m) st.2 = slots w
    end.

(** * Sample inputs and runtimes *)

(** ** Stacks *)

Definition stack_foo : string :=
  "Error: x" +:+ nl +:+ "    at foo (/app/a.js:10:5)".

Definition stack_third_party : string :=
  "Error: x" +:+ nl +:+ "    at a (/srv/node_modules/p.js:1:2)"
  +:+ nl +:+ "    at b (/srv/node_modules/q.js:3:4)".

Definition stack_mixed : string :=
  "Error: x" +:+ nl +:+ "    at a (/srv/node_modules/p.js:1:2)"
  +:+ nl +:+ "    at /app/q.js:3:4"
  +:+ nl +:+ "    at c (/app/z.js:7:8)".

(** ** Runtimes *)

(** Node.js: [process] and [global] with a [fetch], no [window]. *)
Definition node_world : World :=
  {| has_process := true;
     process_listeners := [("uncaughtException", Native 0)];
     window := None; global := Some 1%nat;
     window_listeners := [];
     fetch_of := {[ 1%nat := Native 2 ]};
     has_console := true; console_error := Native 3;
     next_ref := 10;
     console_out := []; http_log := []; spawned := [] |}.

(** A browser page: [window] with a [fetch], neither [process] nor
    [global]. *)
Definition browser_world : World :=
  {| has_process := false; process_listeners := [];
     window := Some 1%nat; global := None;
     window_listeners := [("error", Native 0)];
     fetch_of := {[ 1%nat := Native 2 ]};
     has_console := true; console_error := Native 3;
     next_ref := 10;
     console_out := []; http_log := []; spawned := [] |}.

(** A page where [global] is another name of the [window] object. *)
Definition aliased_world : World :=
  {| has_process := false; process_listeners := [];
     window := Some 1%nat; global := Some 1%nat;
     window_listeners := [];
     fetch_of := {[ 1%nat := Native 2 ]};
     has_console := true; console_error := Native 3;
     next_ref := 10;
     console_out := []; http_log := []; spawned := [] |}.

(** A runtime without a console. *)
Definition mute_world : World :=
  {| has_process := true; process_listeners := [];
     window := None; global := None;
     window_listeners := [];
     fetch_of := ∅;
     has_console := false; console_error := Native 3;
     next_ref := 10;
     console_out := []; http_log := []; spawned := [] |}.

(** Every capture toggle switched off. *)
Definition all_off : MonitorOptions :=
  {| opt_endpoint := None; opt_enableConsoleErrors := Some false;
     opt_enablePromiseRejections := Some false;
     opt_enableFunctionWrapping := Some false;
     opt_enableFetchMonitoring := Some false;
     opt_monitorHttpErrors := Some false;
     opt_httpErrorCodes := None; opt_notifier := None; opt_extra := [] |}.

(** ** Hosts *)

Definition sample_stack (message : string) : option string :=
  Some ("Error: " +:+ message +:+ nl +:+ "    at report (/app/sdk.js:1:1)").

(** The webhook answers 200. *)
Definition host_up : Host :=
  {| transport := λ _ _, FetchResponds 200;
     new_stack := sample_stack; now := "2026-01-01T00:00:00.000Z" |}.

(** The webhook answers 500. *)
Definition host_500 : Host :=
  {| transport := λ _ _, FetchResponds 500;
     new_stack := sample_stack; now := "2026-01-01T00:00:00.000Z" |}.

(** The network is down: the promise of [fetch] rejects. *)
Definition host_down : Host :=
  {| transport := λ _ _, FetchRejects (VError 0 "ECONNREFUSED" None);
     new_stack := sample_stack; now := "2026-01-01T00:00:00.000Z" |}.

(** The HTTP client throws when called. *)
Definition host_throwing : Host :=
  {| transport := λ _ _, FetchThrows (VError 0 "fetch is broken" None);
     new_stack := sample_stack; now := "2026-01-01T00:00:00.000Z" |}.

(** ** Functions to wrap *)

Definition fn_throwing : JsFunction :=
  {| fn_name := "charge";
     fn_apply := λ _ _, throw (VError 7 "card declined" None) |}.

Definition fn_rejecting : JsFunction :=
  {| fn_name := "ask";
     fn_apply := λ _ _, ret (VPromise (PSettles 8 (Rejected (VStr "no credits")))) |}.

Definition fn_returning : JsFunction :=
  {| fn_name := "total"; fn_apply := λ _ _, ret (VNum 42) |}.

Definition fn_thenable : JsFunction :=
  {| fn_name := "query"; fn_apply := λ _ _, ret (VThenable 9) |}.

(** ** More stacks, runtimes, servers and objects *)

(** A stack as SpiderMonkey prints it. *)
Definition stack_gecko : string :=
  "charge@https://shop.example/app.js:10:5" +:+ nl
  +:+ "pay@https://shop.example/app.js:20:7".

(** A stack of Node.js with a frame of the runtime and an anonymous
    asynchronous frame. *)
Definition stack_async : string :=
  "Error: x" +:+ nl
  +:+ "    at processTicksAndRejections (node:internal/process/task_queues:95:5)"
  +:+ nl +:+ "    at async /app/routes.js:10:3".

(** A runtime with both [window] and [process], as a desktop shell or a
    test runner with a simulated page has. *)
Definition hybrid_world : World :=
  {| has_process := true;
     process_listeners := [("unhandledRejection", Native 0)];
     window := Some 1%nat; global := Some 2%nat;
     window_listeners := [];
     fetch_of := {[ 1%nat := Native 3 ]};
     has_console := true; console_error := Native 4;
     next_ref := 10;
     console_out := []; http_log := []; spawned := [] |}.

(** Samples: a server that answers 503, and a network that is down. *)
Definition fetch_503 : nat → Value → AppFetch :=
  λ _ _, AppResponds {| resp_ref := 50; resp_status := 503;
                        resp_statusText := "Service Unavailable";
                        resp_text := Some "busy" |}.
Definition fetch_down : nat → Value → AppFetch :=
  λ _ _, AppRejects (VError 51 "Failed to fetch" None).

(** An object with a field, two methods and an accessor; and one whose
    second method cannot be assigned to. *)
Definition cart : JsObject :=
  [("total", Field (VNum 42)); ("charge", Method fn_throwing true);
   ("tax", Accessor); ("ask", Method fn_rejecting true)].

Definition frozen_cart
 : JsObject :=
  [("total", Method fn_returning true); ("charge", Method fn_throwing false);
   ("ask", Method fn_rejecting true)].

(** * Properties *)

(** ** Stack-frame extraction *)

Module StackFacts.
Import Regex Stack.

Lemma scan_line_location ci l :
  location (scan_line ci l)
  = if is_frame l then location (frame l) else location ci.
Proof.
  unfold is_frame, frame, location, scan_line.
  destruct (js_match re_call_site l); [reflexivity|].
  destruct (js_match re_location l); reflexivity.
Qed.

Lemma scan_line_not_frame ci l : is_frame l = false → scan_line ci l = ci.
Proof.
  unfold is_frame, frame, scan_line.
  destruct (js_match re_call_site l); [discriminate|].
  destruct (js_match re_location l); [discriminate|reflexivity].
Qed.

Lemma meaningful_location ci ci' :
  location ci = location ci' → meaningful ci = meaningful ci'.
Proof. unfold location, meaningful. intros [= -> _ _]. reflexivity. Qed.

(** A line that is no frame, or whose frame is not meaningful, does not end
    the loop when the variables were not meaningful before it. *)
Lemma scan_line_keeps_scanning ci l :
  meaningful ci = false →
  (is_frame l = true → meaningful (frame l) = false) →
  meaningful (scan_line ci l) = false.
Proof.
  intros Hci Hl.
  destruct (is_frame l) eqn:E.
  - rewrite <- (Hl eq_refl). apply meaningful_location.
    rewrite scan_line_location, E. reflexivity.
  - rewrite (scan_line_not_frame _ _ E). exact Hci.
Qed.

Lemma scan_skips pre : ∀ ci rest,
  meaningful ci = false →
  (∀ l, l ∈ pre → is_frame l = true → meaningful (frame l) = false) →
  scan ci (pre ++ rest) = scan (foldl scan_line ci pre) rest
  ∧ meaningful (foldl scan_line ci pre) = false.
Proof.
  induction pre as [|l pre IH]; intros ci rest Hci Hpre; simpl.
  - split; [reflexivity|exact Hci].
  - assert (meaningful (scan_line ci l) = false) as Hl.
    { apply scan_line_keeps_scanning; [exact Hci|].
      apply Hpre. left. }
    rewrite Hl. apply IH; [exact Hl|].
    intros l' Hin. apply Hpre. right. exact Hin.
Qed.

Lemma foldl_no_frames post : ∀ ci,
  (∀ l, l ∈ post → is_frame l = false) → foldl scan_line ci post = ci.
Proof.
  induction post as [|l post IH]; intros ci Hpost; simpl; [reflexivity|].
  rewrite scan_line_not_frame by (apply Hpost; left).
  apply IH. intros l' Hin. apply Hpost. right. exact Hin.
Qed.

Lemma scan_line_call_site ci l :
  is_call_site l = true → scan_line ci l = frame l.
Proof.
  unfold is_call_site, frame, scan_line.
  destruct (js_match re_call_site l); [reflexivity|discriminate].
Qed.

Lemma meaningful_is_frame l : meaningful (frame l) = true → is_frame l = true.
Proof.
  unfold meaningful, is_frame. destruct (fileName (frame l)); [reflexivity|discriminate].
Qed.

Lemma marked_not_meaningful l :
  (∀ f, fileName (frame l) = Some f → marked_internal f = true) →
  meaningful (frame l) = false.
Proof.
  unfold meaningful, meaningful_file, marked_internal. intros H.
  destruct (fileName (frame l)) as [f|]; [|reflexivity].
  specialize (H f eq_refl).
  destruct (includes "node_modules" f), (includes "internal/" f);
    simpl in *; try discriminate; rewrite ?andb_false_r; reflexivity.
Qed.

(** When no frame is meaningful the loop runs to the end, and the variables
    hold what the last frame assigned. *)
Lemma scan_runs_out pre l post :
  (∀ l', l' ∈ pre ++ l :: post →
         is_frame l' = true → meaningful (frame l') = false) →
  (∀ l', l' ∈ post → is_frame l' = false) →
  scan unset (pre ++ l :: post) = scan_line (foldl scan_line unset pre) l.
Proof.
  intros Hall Hpost.
  destruct (scan_skips (pre ++ l :: post) unset [] eq_refl Hall) as [Hscan _].
  rewrite app_nil_r in Hscan. rewrite Hscan. simpl.
  rewrite foldl_app. simpl. apply foldl_no_frames, Hpost.
Qed.

(** The loop stops at the first meaningful frame. *)
Lemma scan_stops_at pre l post :
  (∀ l', l' ∈ pre → is_frame l' = true → meaningful (frame l') = false) →
  meaningful (frame l) = true →
  scan unset (pre ++ l :: post) = scan_line (foldl scan_line unset pre) l.
Proof.
  intros Hpre Hl.
  destruct (scan_skips pre unset (l :: post) eq_refl Hpre) as [Hscan _].
  rewrite Hscan. simpl.
  assert (meaningful (scan_line (foldl scan_line unset pre) l) = true) as ->;
    [|reflexivity].
  rewrite <- Hl. apply meaningful_location.
  rewrite scan_line_location, (meaningful_is_frame _ Hl). reflexivity.
Qed.

End StackFacts.

Ltac each_line H :=
  repeat (apply elem_of_cons in H as [-> | H]); [..| apply elem_of_nil in H; destruct H].

(** C4, as the claim states its fall-back: on a stack whose two frames both
    lie under node_modules the extraction does not return the first
    matching frame; it returns the second (the last). *)
Lemma fallback_is_not_first_frame :
  Stack.stack_frames (Some stack_third_party)
  = ["    at a (/srv/node_modules/p.js:1:2)";
     "    at b (/srv/node_modules/q.js:3:4)"]
  ∧ (∀ l f, l ∈ Stack.stack_frames (Some stack_third_party) →
            Stack.fileName (Stack.frame l) = Some f →
            includes "node_modules" f = true)
  ∧ Stack.frame "    at a (/srv/node_modules/p.js:1:2)"
    = {| Stack.functionName := Some "a";
         Stack.fileName := Some "/srv/node_modules/p.js";
         Stack.line := Some "1"; Stack.col := Some "2" |}
  ∧ Stack.extract (Some stack_third_party)
    = {| Stack.functionName := Some "b";
         Stack.fileName := Some "/srv/node_modules/q.js";
         Stack.line := Some "3"; Stack.col := Some "4" |}
  ∧ Stack.extract (Some stack_third_party)
    ≠ Stack.frame "    at a (/srv/node_modules/p.js:1:2)".
Proof.
  split; [vm_compute; reflexivity|].
  split.
  { intros l f Hl Hf.
    assert (Stack.stack_frames (Some stack_third_party)
            = ["    at a (/srv/node_modules/p.js:1:2)";
               "    at b (/srv/node_modules/q.js:3:4)"]) as E
      by (vm_compute; reflexivity).
    rewrite E in Hl. each_line Hl; vm_compute in Hf; injection Hf as <-;
      vm_compute; reflexivity. }
  split; [vm_compute; reflexivity|].
  split; [vm_compute; reflexivity|].
  vm_compute. discriminate.
Qed.

(** C4, amended.  (1) The sample stack yields foo, /app/a.js, 10, 5.
    (2) When every matching frame has a file marked node_modules or
    internal/, file, line and column are those of the LAST matching frame,
    and so is the function name when that frame has the call-site shape.
    (3) The first frame whose file is non-empty and carries neither marker
    ends the scan: file, line and column are its own, and the function name
    too when it has the call-site shape.  (4) An empty or absent stack
    leaves the four fields unset. *)
Theorem extract_takes_first_meaningful_else_last_frame :
  Stack.extract (Some stack_foo)
  = {| Stack.functionName := Some "foo"; Stack.fileName := Some "/app/a.js";
       Stack.line := Some "10"; Stack.col := Some "5" |}
  ∧ (∀ stack pre l post,
       Stack.stack_frames stack = pre ++ l :: post →
       (∀ l' f, l' ∈ pre ++ l :: post →
                Stack.fileName (Stack.frame l') = Some f →
                Stack.marked_internal f = true) →
       Stack.is_frame l = true →
       (∀ l', l' ∈ post → Stack.is_frame l' = false) →
       Stack.location (Stack.extract stack) = Stack.location (Stack.frame l)
       ∧ (Stack.is_call_site l = true → Stack.extract stack = Stack.frame l))
  ∧ (∀ stack pre l post,
       Stack.stack_frames stack = pre ++ l :: post →
       (∀ l', l' ∈ pre → Stack.meaningful (Stack.frame l') = false) →
       Stack.meaningful (Stack.frame l) = true →
       Stack.location (Stack.extract stack) = Stack.location (Stack.frame l)
       ∧ (Stack.is_call_site l = true → Stack.extract stack = Stack.frame l))
  ∧ Stack.extract (Some "") = Stack.unset
  ∧ Stack.extract None = Stack.unset.
Proof.
  split; [vm_compute; reflexivity|].
  split.
  { intros stack pre l post Hlines Hmarked Hl Hpost.
    assert (Stack.extract stack
            = Stack.scan_line (foldl Stack.scan_line Stack.unset pre) l) as E.
    { unfold Stack.extract. fold (Stack.stack_frames stack). rewrite Hlines.
      apply StackFacts.scan_runs_out; [|exact Hpost].
      intros l' Hin _. apply StackFacts.marked_not_meaningful.
      intros f. apply Hmarked, Hin. }
    rewrite E. split.
    - rewrite StackFacts.scan_line_location, Hl. reflexivity.
    - apply StackFacts.scan_line_call_site. }
  split.
  { intros stack pre l post Hlines Hpre Hl.
    assert (Stack.extract stack
            = Stack.scan_line (foldl Stack.scan_line Stack.unset pre) l) as E.
    { unfold Stack.extract. fold (Stack.stack_frames stack). rewrite Hlines.
      apply StackFacts.scan_stops_at; [|exact Hl].
      intros l' Hin _. apply Hpre, Hin. }
    rewrite E. split.
    - rewrite StackFacts.scan_line_location,
        (StackFacts.meaningful_is_frame _ Hl). reflexivity.
    - apply StackFacts.scan_line_call_site. }
  split; vm_compute; reflexivity.
Qed.

(** The two general parts of the theorem at sample stacks: the stack of
    third-party frames, and a stack whose second frame is the application's. *)
Lemma extract_takes_first_meaningful_else_last_frame_witness :
  Stack.location (Stack.extract (Some stack_third_party))
  = (Some "/srv/node_modules/q.js", Some "3", Some "4")
  ∧ Stack.location (Stack.extract (Some stack_mixed))
    = (Some "/app/q.js", Some "3", Some "4").
Proof.
  destruct extract_takes_first_meaningful_else_last_frame
    as (_ & Hlast & Hfirst & _).
  split.
  - refine (proj1 (Hlast (Some stack_third_party)
                     ["    at a (/srv/node_modules/p.js:1:2)"]
                     "    at b (/srv/node_modules/q.js:3:4)" [] _ _ _ _)).
    + vm_compute; reflexivity.
    + intros l' f Hin Hf. each_line Hin; vm_compute in Hf;
        injection Hf as <-; vm_compute; reflexivity.
    + vm_compute; reflexivity.
    + intros l' Hin. apply elem_of_nil in Hin. destruct Hin.
  - refine (proj1 (Hfirst (Some stack_mixed)
                     ["    at a (/srv/node_modules/p.js:1:2)"]
                     "    at /app/q.js:3:4" ["    at c (/app/z.js:7:8)"] _ _ _)).
    + vm_compute; reflexivity.
    + intros l' Hin. each_line Hin. vm_compute; reflexivity.
    + vm_compute; reflexivity.
Defined.

(** ** Lifecycle: [start] and [stop] *)

Section Lifecycle.
Implicit Types (this : ErrorMonitor) (w : World).

(** The blocks of [start] leave [isActive], [apiKey] and [options] as they
    found them. *)
Ltac hook_frame :=
  intros;
  unfold hook_uncaughtException, hook_rejections, hook_console_error,
    hook_window_error, hook_window_fetch, hook_global_fetch, fresh;
  repeat case_match; reflexivity.

Lemma hook_uncaughtException_active this w :
  isActive (hook_uncaughtException this w).1 = isActive this.
Proof. hook_frame. Qed.
Lemma hook_rejections_active this w :
  isActive (hook_rejections this w).1 = isActive this.
Proof. hook_frame. Qed.
Lemma hook_console_error_active this w :
  isActive (hook_console_error this w).1 = isActive this.
Proof. hook_frame. Qed.
Lemma hook_window_error_active this w :
  isActive (hook_window_error this w).1 = isActive this.
Proof. hook_frame. Qed.
Lemma hook_window_fetch_active this w :
  isActive (hook_window_fetch this w).1 = isActive this.
Proof. hook_frame. Qed.
Lemma hook_global_fetch_active this w :
  isActive (hook_global_fetch this w).1 = isActive this.
Proof. hook_frame. Qed.

Lemma start_is_active this w : isActive (start this w).1 = true.
Proof.
  unfold start. destruct (isActive this) eqn:Hact; [exact Hact|].
  destruct (hook_uncaughtException _ w) as [t1 w1] eqn:E1.
  destruct (hook_rejections t1 w1) as [t2 w2] eqn:E2.
  destruct (hook_console_error t2 w2) as [t3 w3] eqn:E3.
  destruct (hook_window_error t3 w3) as [t4 w4] eqn:E4.
  destruct (hook_window_fetch t4 w4) as [t5 w5] eqn:E5.
  rewrite hook_global_fetch_active.
  change t5 with (t5, w5).1. rewrite <- E5, hook_window_fetch_active.
  change t4 with (t4, w4).1. rewrite <- E4, hook_window_error_active.
  change t3 with (t3, w3).1. rewrite <- E3, hook_console_error_active.
  change t2 with (t2, w2).1. rewrite <- E2, hook_rejections_active.
  change t1 with (t1, w1).1. rewrite <- E1, hook_uncaughtException_active.
  reflexivity.
Qed.

Lemma stop_is_inactive this w : isActive (stop this w).1 = false.
Proof.
  unfold stop. destruct (isActive this) eqn:Hact; simpl; [reflexivity|exact Hact].
Qed.

Lemma stop_clears this w :
  isActive this = true → originalHandlers (stop this w).1 = ∅.
Proof. intros Hact. unfold stop. rewrite Hact. reflexivity. Qed.

(** An inactive monitor holds no handler: the registry is filled by
    [start] only, and [stop] clears it. *)
Lemma inactive_registry_empty this :
  Reachable this → isActive this = false → originalHandlers this = ∅.
Proof.
  induction 1 as [apiKey options | this w _ IH | this w _ IH]; intros Hoff.
  - reflexivity.
  - rewrite start_is_active in Hoff. discriminate.
  - destruct (isActive this) eqn:Hact.
    + apply stop_clears, Hact.
    + assert (stop this w = (this, w)) as ->
        by (unfold stop; rewrite Hact; reflexivity).
      apply IH. reflexivity.
Qed.

End Lifecycle.

(** C5.  [start] and [stop] are idempotent: a second [start] right after
    the first returns the monitor and the runtime unchanged, so no hook is
    installed a second time, and a second [stop] right after the first
    changes neither the runtime nor the registry. *)
Theorem start_and_stop_are_idempotent :
  ∀ (this : ErrorMonitor) (w : World),
    start (start this w).1 (start this w).2 = start this w
    ∧ stop (stop this w).1 (stop this w).2 = stop this w.
Proof.
  intros this w. split.
  - pose proof (start_is_active this w) as Hon.
    destruct (start this w) as [this1 w1]. simpl in *.
    unfold start. rewrite Hon. reflexivity.
  - pose proof (stop_is_inactive this w) as Hoff.
    destruct (stop this w) as [this1 w1]. simpl in *.
    unfold stop. rewrite Hoff. reflexivity.
Qed.

(** ** [stop] undoes [start] *)

Section Roundtrip.
Implicit Types (this t : ErrorMonitor) (w v : World) (reg : gmap string Fn).

(** Each restoration step writes one slot. *)
Lemma unhook_process_set this key w :
  unhook_process this key w
  = set_process_listeners
      (drop_listener emitter_removeListener (originalHandlers this) key
         (process_listeners w)) w.
Proof.
  unfold unhook_process, drop_listener.
  destruct (originalHandlers this !! key); [reflexivity|].
  destruct w; reflexivity.
Qed.

Lemma unhook_window_set this key w :
  unhook_window this key w
  = set_window_listeners
      (drop_listener removeEventListener (originalHandlers this) key
         (window_listeners w)) w.
Proof.
  unfold unhook_window, drop_listener.
  destruct (originalHandlers this !! key); [reflexivity|].
  destruct w; reflexivity.
Qed.

Lemma restore_console_error_set this w :
  restore_console_error this w
  = set_console_error (restored_console_error (originalHandlers this) w) w.
Proof.
  unfold restore_console_error, restored_console_error.
  destruct (originalHandlers this !! "console.error");
    [destruct (has_console w); [reflexivity|]|]; destruct w; reflexivity.
Qed.

Lemma slots_restore this w :
  slots (restore this w) = restored (originalHandlers this) w.
Proof.
  unfold restore, restored, slots.
  unfold restored_process_listeners, restored_window_listeners, restored_fetch_of.
  rewrite !unhook_process_set.
  destruct (has_process w) eqn:Hp.
  all: destruct (window w) eqn:Hw.
  all: cbn; rewrite ?Hw, ?unhook_window_set, ?restore_console_error_set.
  all: unfold restore_global_fetch, restore_window_fetch, assign_fetch,
         restored_console_error.
  all: cbn; rewrite ?Hw.
  all: destruct (originalHandlers this !! "fetch");
       destruct (originalHandlers this !! "global.fetch");
       destruct (global w) eqn:Hg; cbn; rewrite ?Hg; cbn; reflexivity.
Qed.

Lemma remove_first_app_fresh (x : string * Fn) l l' :
  x ∉ l → remove_first x (l ++ x :: l') = l ++ l'.
Proof.
  induction l as [|y l IH]; intros Hx; simpl.
  - rewrite decide_True by reflexivity. reflexivity.
  - rewrite decide_False.
    + rewrite IH; [reflexivity|]. intros Hin. apply Hx. right. exact Hin.
    + intros ->. apply Hx. left.
Qed.

Lemma remove_first_app_other (x y : string * Fn) l :
  x ≠ y → remove_first x (l ++ [y]) = remove_first x l ++ [y].
Proof.
  intros Hxy. induction l as [|z l IH]; simpl.
  - rewrite decide_False by exact Hxy. reflexivity.
  - destruct (decide (x = z)); [reflexivity|]. rewrite IH. reflexivity.
Qed.

Lemma emitter_removeListener_last type h l :
  emitter_removeListener type h (l ++ [(type, h)]) = l.
Proof.
  unfold emitter_removeListener.
  rewrite reverse_app. simpl. rewrite decide_True by reflexivity.
  apply reverse_involutive.
Qed.

Lemma emitter_removeListener_other type h type' h' l :
  type ≠ type' →
  emitter_removeListener type h (l ++ [(type', h')])
  = emitter_removeListener type h l ++ [(type', h')].
Proof.
  intros Hne. unfold emitter_removeListener.
  rewrite reverse_app. simpl. rewrite decide_False by congruence.
  rewrite reverse_cons. reflexivity.
Qed.

Lemma addEventListener_fresh type h l :
  (type, h) ∉ l → addEventListener type h l = l ++ [(type, h)].
Proof.
  intros Hx. unfold addEventListener. rewrite decide_False by exact Hx.
  reflexivity.
Qed.

(** A closure created at the next address is not yet among the listeners. *)
Lemma allocated_fresh w type h :
  listeners_allocated w → fn_ref h = next_ref w → (type, h) ∉ window_listeners w.
Proof.
  intros Hall Href Hin. specialize (Hall _ _ Hin). lia.
Qed.


Lemma remove_first_keeps_fresh (x y : string * Fn) l :
  x ∉ l → x ∉ remove_first y l.
Proof.
  induction l as [|z l IH]; simpl; [tauto|].
  intros Hx. destruct (decide (y = z)).
  - intros Hin. apply Hx. right. exact Hin.
  - intros [->|Hin]%elem_of_cons; [apply Hx; left|].
    apply IH; [|exact Hin]. intros Hin'. apply Hx. right. exact Hin'.
Qed.

Ltac absent H k :=
  rewrite (H k) by (unfold all_keys; cbn [drop]; rewrite !elem_of_cons; tauto).
Ltac weaken_pending Habs :=
  let k := fresh "k" in let Hk := fresh "Hk" in
  intros k Hk; apply Habs; revert Hk; unfold all_keys; cbn [drop];
  rewrite ?elem_of_cons; tauto.
Ltac keep_absent Habs :=
  let k := fresh "k" in let Hk := fresh "Hk" in
  intros k Hk; cbn; rewrite lookup_insert_ne;
  [ apply Habs; revert Hk; unfold all_keys; cbn [drop];
    rewrite ?elem_of_cons; tauto
  | intros <-; revert Hk; unfold all_keys; cbn [drop];
    rewrite ?elem_of_cons, elem_of_nil; intuition discriminate ].
Ltac frame_slot :=
  unfold restored_process_listeners, restored_window_listeners,
    restored_console_error, restored_fetch_of, drop_listener; cbn;
  rewrite !lookup_insert_ne by done; reflexivity.
Ltac allocated_step Hall :=
  let type := fresh "type" in let h := fresh "h" in let Hin := fresh "Hin" in
  intros type h Hin; cbn in Hin |- *;
  try (rewrite addEventListener_fresh in Hin
         by (apply allocated_fresh; [exact Hall|reflexivity]);
       apply elem_of_app in Hin as [Hin|[= -> ->]%list_elem_of_singleton];
       [|cbn; lia]);
  specialize (Hall type h Hin); lia.

Lemma installing_uncaughtException w t v :
  Installing w all_keys (t, v) →
  Installing w (drop 1 all_keys) (hook_uncaughtException t v).
Proof.
  intros (Henv & Hall & Hres & Habs). cbn [fst snd] in *.
  unfold hook_uncaughtException, fresh.
  destruct (has_process v) eqn:Hp.
  2: { repeat split; try apply Henv; try assumption. weaken_pending Habs. }
  split; [exact Henv|]. split; [allocated_step Hall|]. split.
  - rewrite <- Hres. unfold restored. cbn.
    f_equal; [f_equal; [f_equal|]|]; [|frame_slot..].
    unfold restored_process_listeners. cbn. rewrite Hp.
    unfold drop_listener.
    rewrite lookup_insert_eq, lookup_insert_ne by done.
    absent Habs "uncaughtException". absent Habs "unhandledRejection".
    apply emitter_removeListener_last.
  - keep_absent Habs.
Qed.

Lemma installing_rejections w t v :
  Installing w (drop 1 all_keys) (t, v) →
  Installing w (drop 3 all_keys) (hook_rejections t v).
Proof.
  intros (Henv & Hall & Hres & Habs). cbn [fst snd] in *.
  unfold hook_rejections, fresh.
  destruct (enablePromiseRejections (options t)).
  2: { repeat split; try apply Henv; try assumption. weaken_pending Habs. }
  destruct (window v) as [win|] eqn:Hwin.
  - split; [exact Henv|]. split; [allocated_step Hall|]. split.
    + rewrite <- Hres. unfold restored. cbn.
      f_equal; [f_equal; [f_equal|]|]; [frame_slot| |frame_slot..].
      unfold restored_window_listeners. cbn. rewrite Hwin.
      unfold drop_listener.
      rewrite lookup_insert_eq, lookup_insert_ne by done.
      absent Habs "unhandledrejection". absent Habs "error".
      rewrite addEventListener_fresh
        by (apply allocated_fresh; [exact Hall|reflexivity]).
      unfold removeEventListener.
      rewrite remove_first_app_fresh
        by (apply allocated_fresh; [exact Hall|reflexivity]).
      apply app_nil_r.
    + keep_absent Habs.
  - destruct (has_process v) eqn:Hp.
    2: { repeat split; try apply Henv; try assumption. weaken_pending Habs. }
    split; [exact Henv|]. split; [allocated_step Hall|]. split.
    + rewrite <- Hres. unfold restored. cbn.
      f_equal; [f_equal; [f_equal|]|]; [|frame_slot..].
      unfold restored_process_listeners. cbn. rewrite Hp.
      unfold drop_listener.
      rewrite lookup_insert_eq, lookup_insert_ne by done.
      absent Habs "unhandledRejection".
      destruct (originalHandlers t !! "uncaughtException").
      * rewrite emitter_removeListener_other by done.
        apply emitter_removeListener_last.
      * apply emitter_removeListener_last.
    + keep_absent Habs.
Qed.

Lemma installing_console_error w t v :
  Installing w (drop 3 all_keys) (t, v) →
  Installing w (drop 4 all_keys) (hook_console_error t v).
Proof.
  intros (Henv & Hall & Hres & Habs). cbn [fst snd] in *.
  unfold hook_console_error, fresh.
  destruct (enableConsoleErrors (options t) && has_console v) eqn:Hon.
  2: { repeat split; try apply Henv; try assumption. weaken_pending Habs. }
  apply andb_true_iff in Hon as [_ Hc].
  split; [exact Henv|]. split; [allocated_step Hall|]. split.
  - rewrite <- Hres. unfold restored. cbn.
    f_equal; [f_equal; [f_equal|]|]; [frame_slot..| |frame_slot].
    unfold restored_console_error. cbn.
    rewrite lookup_insert_eq, Hc. absent Habs "console.error". reflexivity.
  - keep_absent Habs.
Qed.

Lemma installing_window_error w t v :
  Installing w (drop 4 all_keys) (t, v) →
  Installing w (drop 5 all_keys) (hook_window_error t v).
Proof.
  intros (Henv & Hall & Hres & Habs). cbn [fst snd] in *.
  unfold hook_window_error, fresh.
  destruct (window v) as [win|] eqn:Hwin.
  2: { repeat split; try apply Henv; try assumption. weaken_pending Habs. }
  split; [exact Henv|]. split; [allocated_step Hall|]. split.
  - rewrite <- Hres. unfold restored. cbn.
    f_equal; [f_equal; [f_equal|]|]; [frame_slot| |frame_slot..].
    unfold restored_window_listeners. cbn. rewrite Hwin.
    unfold drop_listener.
    rewrite lookup_insert_eq, lookup_insert_ne by done.
    absent Habs "error".
    rewrite addEventListener_fresh
      by (apply allocated_fresh; [exact Hall|reflexivity]).
    unfold removeEventListener.
    destruct (originalHandlers t !! "unhandledrejection").
    + rewrite remove_first_app_other by congruence.
      rewrite remove_first_app_fresh, app_nil_r; [reflexivity|].
      apply remove_first_keeps_fresh, allocated_fresh; [exact Hall|reflexivity].
    + rewrite remove_first_app_fresh, app_nil_r; [reflexivity|].
      apply allocated_fresh; [exact Hall|reflexivity].
  - keep_absent Habs.
Qed.

Lemma installing_window_fetch w t v :
  Installing w (drop 5 all_keys) (t, v) →
  Installing w (drop 6 all_keys) (hook_window_fetch t v).
Proof.
  intros (Henv & Hall & Hres & Habs). cbn [fst snd] in *.
  unfold hook_window_fetch, fresh, assign_fetch.
  destruct (enableFetchMonitoring (options t)).
  2: { repeat split; try apply Henv; try assumption. weaken_pending Habs. }
  destruct (window v) as [win|] eqn:Hwin.
  2: { repeat split; try apply Henv; try assumption. weaken_pending Habs. }
  destruct (fetch_of v !! win) as [originalFetch|] eqn:Hfetch.
  2: { repeat split; try apply Henv; try assumption. weaken_pending Habs. }
  split; [exact Henv|]. split; [allocated_step Hall|]. split.
  - rewrite <- Hres. unfold restored. cbn.
    f_equal; [frame_slot|].
    unfold restored_fetch_of. cbn. rewrite Hwin.
    rewrite lookup_insert_eq, lookup_insert_ne by done.
    absent Habs "fetch". absent Habs "global.fetch".
    rewrite insert_insert_eq. rewrite insert_id by exact Hfetch.
    reflexivity.
  - keep_absent Habs.
Qed.

Lemma installing_global_fetch w t v :
  separate_globals w →
  Installing w (drop 6 all_keys) (t, v) →
  Installing w [] (hook_global_fetch t v).
Proof.
  intros Hsep (Henv & Hall & Hres & Habs). cbn [fst snd] in *.
  unfold hook_global_fetch, fresh, assign_fetch.
  destruct (enableFetchMonitoring (options t)).
  2: { repeat split; try apply Henv; try assumption. weaken_pending Habs. }
  destruct (global v) as [glob|] eqn:Hglob.
  2: { repeat split; try apply Henv; try assumption. weaken_pending Habs. }
  destruct (fetch_of v !! glob) as [originalFetch|] eqn:Hfetch.
  2: { repeat split; try apply Henv; try assumption. weaken_pending Habs. }
  split; [exact Henv|]. split; [allocated_step Hall|]. split.
  - rewrite <- Hres. unfold restored. cbn.
    f_equal; [frame_slot|].
    unfold restored_fetch_of. cbn. rewrite Hglob.
    rewrite lookup_insert_eq, lookup_insert_ne by done.
    absent Habs "global.fetch".
    destruct (originalHandlers t !! "fetch") as [fw|]; [destruct (window v) as [win|] eqn:Hwin|].
    + assert (win ≠ glob) as Hne.
      { destruct Henv as (_ & Hw & Hg & _). intros ->.
        apply (Hsep glob); congruence. }
      rewrite (insert_insert_ne _ glob win) by congruence.
      rewrite insert_insert_eq.
      rewrite (insert_id (fetch_of v) glob) by exact Hfetch. reflexivity.
    + rewrite insert_insert_eq. rewrite insert_id by exact Hfetch. reflexivity.
    + rewrite insert_insert_eq. rewrite insert_id by exact Hfetch. reflexivity.
  - intros k Hk. apply elem_of_nil in Hk. destruct Hk.
Qed.

Lemma env_restore this w : same_env w (restore this w).
Proof.
  unfold restore, same_env.
  rewrite !unhook_process_set.
  destruct (has_process w) eqn:Hp; destruct (window w) eqn:Hw;
    cbn; rewrite ?Hw, ?unhook_window_set, ?restore_console_error_set;
    unfold restore_global_fetch, restore_window_fetch, assign_fetch;
    cbn; rewrite ?Hw;
    destruct (originalHandlers this !! "fetch");
    destruct (originalHandlers this !! "global.fetch");
    destruct (global w) eqn:Hg; cbn; rewrite ?Hg; cbn; auto.
Qed.

Lemma installing_begins this w :
  originalHandlers this = ∅ → listeners_allocated w →
  Installing w all_keys (set_isActive true this, w).
Proof.
  intros Hreg Hall. split; [repeat split|]. split; [exact Hall|]. split.
  - cbn. rewrite Hreg. unfold restored, slots, restored_process_listeners,
      restored_window_listeners, restored_console_error, restored_fetch_of,
      drop_listener.
    rewrite !lookup_empty.
    destruct (has_process w), (window w), (global w); reflexivity.
  - intros k _. cbn. rewrite Hreg. apply lookup_empty.
Qed.

Lemma start_installs this w :
  originalHandlers this = ∅ → isActive this = false →
  listeners_allocated w → separate_globals w →
  Installing w [] (start this w).
Proof.
  intros Hreg Hact Hall Hsep. unfold start. rewrite Hact.
  pose proof (installing_begins this w Hreg Hall) as H.
  apply installing_uncaughtException in H.
  destruct (hook_uncaughtException _ w) as [t1 w1].
  apply installing_rejections in H.
  destruct (hook_rejections t1 w1) as [t2 w2].
  apply installing_console_error in H.
  destruct (hook_console_error t2 w2) as [t3 w3].
  apply installing_window_error in H.
  destruct (hook_window_error t3 w3) as [t4 w4].
  apply installing_window_fetch in H.
  destruct (hook_window_fetch t4 w4) as [t5 w5].
  apply installing_global_fetch; assumption.
Qed.
End Roundtrip.

(** C3, amended.  For a monitor that is not active (constructed, or
    stopped), in a runtime where [window] and [global] are not one object,
    [start()] followed by [stop()] leaves [console.error], [window.fetch],
    [global.fetch] and the registered listeners equal to what they were
    before [start()], and the registry is empty afterwards. *)
Theorem stop_after_start_restores_the_globals :
  ∀ (this : ErrorMonitor) (w : World),
    Reachable this → isActive this = false →
    listeners_allocated w → separate_globals w →
    let after := stop (start this w).1 (start this w).2 in
    console_error after.2 = console_error w
    ∧ window_fetch after.2 = window_fetch w
    ∧ global_fetch after.2 = global_fetch w
    ∧ process_listeners after.2 = process_listeners w
    ∧ window_listeners after.2 = window_listeners w
    ∧ originalHandlers after.1 = ∅
    ∧ isActive after.1 = false.
Proof.
  intros this w Hreach Hact Hall Hsep after.
  pose proof (inactive_registry_empty this Hreach Hact) as Hreg.
  pose proof (start_installs this w Hreg Hact Hall Hsep) as (Henv & _ & Hres & _).
  pose proof (start_is_active this w) as Hon.
  subst after. destruct (start this w) as [this1 w1]. cbn [fst snd] in *.
  unfold stop. rewrite Hon. cbn [negb fst snd].
  pose proof (slots_restore (set_isActive false this1) w1) as Hslots.
  cbn in Hslots. rewrite Hres in Hslots.
  injection Hslots as Hpl Hwl Hce Hfo.
  destruct (env_restore (set_isActive false this1) w1) as (_ & Hw & Hg & _).
  destruct Henv as (_ & Hw1 & Hg1 & _).
  unfold window_fetch, global_fetch.
  rewrite Hw, Hg, Hw1, Hg1, Hfo. repeat split; try assumption; reflexivity.
Qed.

(** C3, as stated for every monitor and every runtime.  (1) On a monitor
    that is already active [start()] returns at its guard, and the [stop()]
    that follows puts back the host's [console.error], not the wrapper that
    was in the slot before this [start()].  (2) Where [global] is another
    name of [window], [stop()] leaves the wrapper of [window.fetch] in the
    slot. *)
Lemma stop_after_start_does_not_always_restore :
  (let m := (start (new_ErrorMonitor "k" no_options) node_world).1 in
   let w := (start (new_ErrorMonitor "k" no_options) node_world).2 in
   let after := stop (start m w).1 (start m w).2 in
   isActive m = true ∧ console_error after.2 ≠ console_error w)
  ∧ (let m := new_ErrorMonitor "k" no_options in
     let after := stop (start m aliased_world).1 (start m aliased_world).2 in
     window_fetch aliased_world = Some (Native 2)
     ∧ window_fetch after.2
       = Some (WindowFetchWrapper 13 (reporter m) (Native 2))).
Proof.
  split.
  - cbv zeta. split; [vm_compute; reflexivity|].
    intros H. vm_compute in H. discriminate.
  - cbv zeta. split; vm_compute; reflexivity.
Qed.

(** The theorem at a fresh monitor in the browser runtime. *)
Lemma stop_after_start_restores_the_globals_witness :
  let m := new_ErrorMonitor "k" no_options in
  let after := stop (start m browser_world).1 (start m browser_world).2 in
  console_error after.2 = console_error browser_world
  ∧ window_fetch after.2 = window_fetch browser_world
  ∧ global_fetch after.2 = global_fetch browser_world
  ∧ process_listeners after.2 = process_listeners browser_world
  ∧ window_listeners after.2 = window_listeners browser_world
  ∧ originalHandlers after.1 = ∅
  ∧ isActive after.1 = false.
Proof.
  apply (stop_after_start_restores_the_globals
           (new_ErrorMonitor "k" no_options) browser_world).
  - apply reach_new.
  - reflexivity.
  - intros type h Hin. apply list_elem_of_singleton in Hin as [= -> ->].
    cbn. lia.
  - intros o Hw Hg. discriminate.
Defined.

(** ** What [start] installs and what it records *)

Section Gating.
Implicit Types (this t : ErrorMonitor) (w v : World).

(** [start] runs its six blocks in order: a property that each block
    carries from one stage to the next holds when [start] returns. *)
Lemma start_stages (P0 P1 P2 P3 P4 P5 P6 : ErrorMonitor * World → Prop) this w :
  isActive this = false →
  P0 (set_isActive true this, w) →
  (∀ t v, P0 (t, v) → P1 (hook_uncaughtException t v)) →
  (∀ t v, P1 (t, v) → P2 (hook_rejections t v)) →
  (∀ t v, P2 (t, v) → P3 (hook_console_error t v)) →
  (∀ t v, P3 (t, v) → P4 (hook_window_error t v)) →
  (∀ t v, P4 (t, v) → P5 (hook_window_fetch t v)) →
  (∀ t v, P5 (t, v) → P6 (hook_global_fetch t v)) →
  P6 (start this w).
Proof.
  intros Hact H0 H1 H2 H3 H4 H5 H6. unfold start. rewrite Hact.
  apply H1 in H0. destruct (hook_uncaughtException _ w) as [t1 w1].
  apply H2 in H0. destruct (hook_rejections t1 w1) as [t2 w2].
  apply H3 in H0. destruct (hook_console_error t2 w2) as [t3 w3].
  apply H4 in H0. destruct (hook_window_error t3 w3) as [t4 w4].
  apply H5 in H0. destruct (hook_window_fetch t4 w4) as [t5 w5].
  apply H6, H0.
Qed.

Lemma start_invariant (P : ErrorMonitor * World → Prop) this w :
  isActive this = false →
  P (set_isActive true this, w) →
  (∀ t v, P (t, v) → P (hook_uncaughtException t v)) →
  (∀ t v, P (t, v) → P (hook_rejections t v)) →
  (∀ t v, P (t, v) → P (hook_console_error t v)) →
  (∀ t v, P (t, v) → P (hook_window_error t v)) →
  (∀ t v, P (t, v) → P (hook_window_fetch t v)) →
  (∀ t v, P (t, v) → P (hook_global_fetch t v)) →
  P (start this w).
Proof. apply start_stages. Qed.

Ltac run_hook :=
  unfold hook_uncaughtException, hook_rejections, hook_console_error,
    hook_window_error, hook_window_fetch, hook_global_fetch, fresh,
    assign_fetch;
  repeat case_match; cbn [fst snd] in *.

Lemma start_console_gate this w :
  isActive this = false → enableConsoleErrors (options this) = false →
  console_error (start this w).2 = console_error w
  ∧ originalHandlers (start this w).1 !! "console.error"
    = originalHandlers this !! "console.error".
Proof.
  intros Hact Hoff.
  apply (start_invariant
    (λ st, options st.1 = options this
           ∧ console_error st.2 = console_error w
           ∧ originalHandlers st.1 !! "console.error"
             = originalHandlers this !! "console.error") this w Hact).
  - auto.
  - intros t v (Ho & Hc & Hr); cbn [fst snd] in *. run_hook; cbn; rewrite ?lookup_insert_ne by done; auto.
  - intros t v (Ho & Hc & Hr); cbn [fst snd] in *. run_hook; cbn; rewrite ?lookup_insert_ne by done; auto.
  - intros t v (Ho & Hc & Hr); cbn [fst snd] in *. unfold hook_console_error.
    rewrite Ho, Hoff. cbn. auto.
  - intros t v (Ho & Hc & Hr); cbn [fst snd] in *. run_hook; cbn; rewrite ?lookup_insert_ne by done; auto.
  - intros t v (Ho & Hc & Hr); cbn [fst snd] in *. run_hook; cbn; rewrite ?lookup_insert_ne by done; auto.
  - intros t v (Ho & Hc & Hr); cbn [fst snd] in *. run_hook; cbn; rewrite ?lookup_insert_ne by done; auto.
Qed.

Lemma reporter_handlers_set key f t :
  reporter (handlers_set key f t) = reporter t.
Proof. reflexivity. Qed.

Ltac frame_stage :=
  run_hook; cbn -[emitter_on addEventListener listeners_for reporter];
  rewrite ?reporter_handlers_set; rewrite ?lookup_insert_ne by done;
  first [ solve [split_and?; first [congruence | eauto]] | eauto ].

Lemma start_fetch_gate this w :
  isActive this = false → enableFetchMonitoring (options this) = false →
  fetch_of (start this w).2 = fetch_of w
  ∧ originalHandlers (start this w).1 !! "fetch"
    = originalHandlers this !! "fetch"
  ∧ originalHandlers (start this w).1 !! "global.fetch"
    = originalHandlers this !! "global.fetch".
Proof.
  intros Hact Hoff.
  apply (start_invariant
    (λ st, options st.1 = options this
           ∧ fetch_of st.2 = fetch_of w
           ∧ originalHandlers st.1 !! "fetch"
             = originalHandlers this !! "fetch"
           ∧ originalHandlers st.1 !! "global.fetch"
             = originalHandlers this !! "global.fetch") this w Hact).
  - auto.
  - intros t v (Ho & Hf & Hr1 & Hr2); cbn [fst snd] in *. frame_stage.
  - intros t v (Ho & Hf & Hr1 & Hr2); cbn [fst snd] in *. frame_stage.
  - intros t v (Ho & Hf & Hr1 & Hr2); cbn [fst snd] in *. frame_stage.
  - intros t v (Ho & Hf & Hr1 & Hr2); cbn [fst snd] in *. frame_stage.
  - intros t v (Ho & Hf & Hr1 & Hr2); cbn [fst snd] in *.
    unfold hook_window_fetch. rewrite Ho, Hoff. cbn. auto.
  - intros t v (Ho & Hf & Hr1 & Hr2); cbn [fst snd] in *.
    unfold hook_global_fetch. rewrite Ho, Hoff. cbn. auto.
Qed.

Lemma listeners_for_on type type' h l :
  type' ≠ type →
  listeners_for type (emitter_on type' h l) = listeners_for type l.
Proof.
  intros Hne. unfold listeners_for, emitter_on. rewrite omap_app. cbn.
  rewrite decide_False by exact Hne. apply app_nil_r.
Qed.

Lemma listeners_for_add type type' h l :
  type' ≠ type →
  listeners_for type (addEventListener type' h l) = listeners_for type l.
Proof.
  intros Hne. unfold addEventListener.
  destruct (decide ((type', h) ∈ l)); [reflexivity|].
  apply (listeners_for_on type type' h l Hne).
Qed.

Lemma start_rejection_gate this w :
  isActive this = false → enablePromiseRejections (options this) = false →
  listeners_for "unhandledRejection" (process_listeners (start this w).2)
  = listeners_for "unhandledRejection" (process_listeners w)
  ∧ listeners_for "unhandledrejection" (window_listeners (start this w).2)
    = listeners_for "unhandledrejection" (window_listeners w)
  ∧ originalHandlers (start this w).1 !! "unhandledRejection"
    = originalHandlers this !! "unhandledRejection"
  ∧ originalHandlers (start this w).1 !! "unhandledrejection"
    = originalHandlers this !! "unhandledrejection".
Proof.
  intros Hact Hoff.
  apply (start_invariant
    (λ st, options st.1 = options this
           ∧ listeners_for "unhandledRejection" (process_listeners st.2)
             = listeners_for "unhandledRejection" (process_listeners w)
           ∧ listeners_for "unhandledrejection" (window_listeners st.2)
             = listeners_for "unhandledrejection" (window_listeners w)
           ∧ originalHandlers st.1 !! "unhandledRejection"
             = originalHandlers this !! "unhandledRejection"
           ∧ originalHandlers st.1 !! "unhandledrejection"
             = originalHandlers this !! "unhandledrejection") this w Hact).
  - auto.
  - intros t v (Ho & Hp & Hw & Hr1 & Hr2); cbn [fst snd] in *.
    run_hook; cbn -[emitter_on addEventListener listeners_for];
      rewrite ?lookup_insert_ne, ?listeners_for_on by done; auto.
  - intros t v (Ho & Hp & Hw & Hr1 & Hr2); cbn [fst snd] in *.
    unfold hook_rejections. rewrite Ho, Hoff. cbn. auto.
  - intros t v (Ho & Hp & Hw & Hr1 & Hr2); cbn [fst snd] in *. frame_stage.
  - intros t v (Ho & Hp & Hw & Hr1 & Hr2); cbn [fst snd] in *.
    run_hook; cbn -[emitter_on addEventListener listeners_for];
      rewrite ?lookup_insert_ne, ?listeners_for_add by done; auto.
  - intros t v (Ho & Hp & Hw & Hr1 & Hr2); cbn [fst snd] in *. frame_stage.
  - intros t v (Ho & Hp & Hw & Hr1 & Hr2); cbn [fst snd] in *. frame_stage.
Qed.

Lemma elem_of_addEventListener type h l : (type, h) ∈ addEventListener type h l.
Proof.
  unfold addEventListener. destruct (decide ((type, h) ∈ l)); [assumption|].
  apply elem_of_app. right. left.
Qed.

Lemma elem_of_addEventListener_old x type h l :
  x ∈ l → x ∈ addEventListener type h l.
Proof.
  intros Hx. unfold addEventListener.
  destruct (decide ((type, h) ∈ l)); [assumption|].
  apply elem_of_app. left. exact Hx.
Qed.

Lemma elem_of_emitter_on_old x type h l : x ∈ l → x ∈ emitter_on type h l.
Proof. intros Hx. apply elem_of_app. left. exact Hx. Qed.

(** The handler of uncaught exceptions is installed whenever the runtime
    has [process]; no option is read. *)
Lemma start_installs_uncaughtException this w :
  isActive this = false → has_process w = true →
  let h := UncaughtHandler (next_ref w) (reporter this) in
  ("uncaughtException", h) ∈ process_listeners (start this w).2
  ∧ originalHandlers (start this w).1 !! "uncaughtException" = Some h.
Proof.
  intros Hact Hp h.
  set (P0 := λ st : ErrorMonitor * World,
         reporter st.1 = reporter this ∧ next_ref st.2 = next_ref w
         ∧ has_process st.2 = true).
  set (P := λ st : ErrorMonitor * World,
         ("uncaughtException", h) ∈ process_listeners st.2
         ∧ originalHandlers st.1 !! "uncaughtException" = Some h).
  apply (start_stages P0 P P P P P P this w Hact); subst P0 P; cbn beta.
  - auto.
  - intros t v (Hr & Hn & Hp'); cbn [fst snd] in *.
    unfold hook_uncaughtException, fresh. rewrite Hp'. cbn.
    rewrite Hr, Hn. split; [apply elem_of_app; right; left|].
    apply lookup_insert_eq.
  - intros t v (Hin & Hreg); cbn [fst snd] in *.
    run_hook; cbn -[emitter_on addEventListener listeners_for];
      rewrite ?lookup_insert_ne by done; auto using elem_of_emitter_on_old.
  - intros t v (Hin & Hreg); cbn [fst snd] in *. frame_stage.
  - intros t v (Hin & Hreg); cbn [fst snd] in *. frame_stage.
  - intros t v (Hin & Hreg); cbn [fst snd] in *. frame_stage.
  - intros t v (Hin & Hreg); cbn [fst snd] in *. frame_stage.
Qed.

(** So is the handler of the browser's [error] event, whenever the runtime
    has [window]. *)
Lemma start_installs_window_error this w win :
  isActive this = false → window w = Some win →
  ∃ r, ("error", WindowErrorHandler r (reporter this))
         ∈ window_listeners (start this w).2
       ∧ originalHandlers (start this w).1 !! "error"
         = Some (WindowErrorHandler r (reporter this)).
Proof.
  intros Hact Hwin.
  set (P0 := λ st : ErrorMonitor * World,
         reporter st.1 = reporter this ∧ window st.2 = Some win).
  set (P := λ st : ErrorMonitor * World,
         ∃ r, ("error", WindowErrorHandler r (reporter this))
                ∈ window_listeners st.2
              ∧ originalHandlers st.1 !! "error"
                = Some (WindowErrorHandler r (reporter this))).
  apply (start_stages P0 P0 P0 P0 P P P this w Hact); subst P0 P; cbn beta.
  - auto.
  - intros t v (Hr & Hw); cbn [fst snd] in *. frame_stage.
  - intros t v (Hr & Hw); cbn [fst snd] in *. frame_stage.
  - intros t v (Hr & Hw); cbn [fst snd] in *. frame_stage.
  - intros t v (Hr & Hw); cbn [fst snd] in *.
    unfold hook_window_error, fresh. rewrite Hw. cbn. rewrite Hr.
    eexists. split; [apply elem_of_addEventListener|apply lookup_insert_eq].
  - intros t v (r & Hin & Hreg); cbn [fst snd] in *.
    run_hook; cbn; rewrite ?lookup_insert_ne by done; eauto.
  - intros t v (r & Hin & Hreg); cbn [fst snd] in *.
    run_hook; cbn; rewrite ?lookup_insert_ne by done; eauto.
Qed.

(** *** What the registry holds after [start] *)

(** [console.error]: the function that was in the slot. *)
Lemma start_registers_console_error this w f :
  originalHandlers this = ∅ → isActive this = false →
  originalHandlers (start this w).1 !! "console.error" = Some f →
  f = console_error w.
Proof.
  intros Hreg Hact. revert f.
  set (P0 := λ st : ErrorMonitor * World,
         originalHandlers st.1 !! "console.error" = None
         ∧ console_error st.2 = console_error w).
  set (P := λ st : ErrorMonitor * World,
         ∀ f, originalHandlers st.1 !! "console.error" = Some f →
              f = console_error w).
  apply (start_stages P0 P0 P0 P P P P this w Hact); subst P0 P; cbn beta.
  - cbn. rewrite Hreg. auto.
  - intros t v (Hr & Hc); cbn [fst snd] in *. frame_stage.
  - intros t v (Hr & Hc); cbn [fst snd] in *. frame_stage.
  - intros t v (Hr & Hc) f; cbn [fst snd] in *.
    unfold hook_console_error, fresh. case_match; cbn.
    + rewrite lookup_insert_eq. congruence.
    + congruence.
  - intros t v H; cbn [fst snd] in *. frame_stage.
  - intros t v H; cbn [fst snd] in *. frame_stage.
  - intros t v H; cbn [fst snd] in *. frame_stage.
Qed.

(** [fetch]: the function that was in [window.fetch]. *)
Lemma start_registers_window_fetch this w f :
  originalHandlers this = ∅ → isActive this = false →
  originalHandlers (start this w).1 !! "fetch" = Some f →
  window_fetch w = Some f.
Proof.
  intros Hreg Hact. revert f.
  set (P0 := λ st : ErrorMonitor * World,
         originalHandlers st.1 !! "fetch" = None
         ∧ fetch_of st.2 = fetch_of w ∧ window st.2 = window w).
  set (P := λ st : ErrorMonitor * World,
         ∀ f, originalHandlers st.1 !! "fetch" = Some f →
              window_fetch w = Some f).
  apply (start_stages P0 P0 P0 P0 P0 P P this w Hact); subst P0 P; cbn beta.
  - cbn. rewrite Hreg. auto.
  - intros t v (Hr & Hf & Hw); cbn [fst snd] in *. frame_stage.
  - intros t v (Hr & Hf & Hw); cbn [fst snd] in *. frame_stage.
  - intros t v (Hr & Hf & Hw); cbn [fst snd] in *. frame_stage.
  - intros t v (Hr & Hf & Hw); cbn [fst snd] in *. frame_stage.
  - intros t v (Hr & Hf & Hw) f; cbn [fst snd] in *.
    unfold hook_window_fetch, fresh, window_fetch.
    repeat case_match; cbn; rewrite ?lookup_insert_eq; try congruence.
    intros [= <-]. rewrite <- Hw. cbn. congruence.
  - intros t v H; cbn [fst snd] in *. frame_stage.
Qed.

(** [global.fetch]: the function that was in [global.fetch], when [global]
    is not the [window] object. *)
Lemma start_registers_global_fetch this w f :
  originalHandlers this = ∅ → isActive this = false → separate_globals w →
  originalHandlers (start this w).1 !! "global.fetch" = Some f →
  global_fetch w = Some f.
Proof.
  intros Hreg Hact Hsep. revert f.
  set (P0 := λ st : ErrorMonitor * World,
         originalHandlers st.1 !! "global.fetch" = None
         ∧ fetch_of st.2 = fetch_of w
         ∧ window st.2 = window w ∧ global st.2 = global w).
  set (P5 := λ st : ErrorMonitor * World,
         originalHandlers st.1 !! "global.fetch" = None
         ∧ global st.2 = global w
         ∧ ∀ o, window w ≠ Some o → fetch_of st.2 !! o = fetch_of w !! o).
  set (P := λ st : ErrorMonitor * World,
         ∀ f, originalHandlers st.1 !! "global.fetch" = Some f →
              global_fetch w = Some f).
  apply (start_stages P0 P0 P0 P0 P0 P5 P this w Hact); subst P0 P5 P;
    cbn beta.
  - cbn. rewrite Hreg. auto.
  - intros t v (Hr & Hf & Hw & Hg); cbn [fst snd] in *. frame_stage.
  - intros t v (Hr & Hf & Hw & Hg); cbn [fst snd] in *. frame_stage.
  - intros t v (Hr & Hf & Hw & Hg); cbn [fst snd] in *. frame_stage.
  - intros t v (Hr & Hf & Hw & Hg); cbn [fst snd] in *. frame_stage.
  - intros t v (Hr & Hf & Hw & Hg); cbn [fst snd] in *.
    unfold hook_window_fetch, fresh, assign_fetch.
    repeat case_match; cbn; rewrite ?lookup_insert_ne by done;
      (split; [assumption|]); (split; [assumption|]);
      intros o Ho; rewrite <- ?Hf; try reflexivity.
    apply lookup_insert_ne. congruence.
  - intros t v (Hr & Hg & Hf) f; cbn [fst snd] in *.
    unfold hook_global_fetch, fresh, global_fetch.
    repeat case_match; cbn; rewrite ?lookup_insert_eq; try congruence.
    intros [= <-]. rewrite <- Hg. cbn.
    rewrite <- Hf; [assumption|].
    intros Hw. apply (Hsep _ Hw). congruence.
Qed.

(** The four listener keys: the registry holds the closure that this
    [start] created and registered. *)
Lemma start_registers_own_listeners this w :
  originalHandlers this = ∅ → isActive this = false →
  ∀ k f, originalHandlers (start this w).1 !! k = Some f →
    (k = "uncaughtException" ∨ k = "unhandledRejection" →
       (k, f) ∈ process_listeners (start this w).2
       ∧ (next_ref w ≤ fn_ref f)%nat)
    ∧ (k = "unhandledrejection" ∨ k = "error" →
       (k, f) ∈ window_listeners (start this w).2
       ∧ (next_ref w ≤ fn_ref f)%nat).
Proof.
  intros Hreg Hact.
  apply (start_invariant
    (λ st, (next_ref w ≤ next_ref st.2)%nat
           ∧ ∀ k f, originalHandlers st.1 !! k = Some f →
               (k = "uncaughtException" ∨ k = "unhandledRejection" →
                  (k, f) ∈ process_listeners st.2
                  ∧ (next_ref w ≤ fn_ref f)%nat)
               ∧ (k = "unhandledrejection" ∨ k = "error" →
                  (k, f) ∈ window_listeners st.2
                  ∧ (next_ref w ≤ fn_ref f)%nat)) this w Hact).
  - split; [reflexivity|]. intros k f. cbn. rewrite Hreg, lookup_empty.
    discriminate.
  - intros t v (Hn & H); cbn [fst snd] in *.
    unfold hook_uncaughtException, fresh. case_match; [|auto].
    cbn -[emitter_on]. split; [lia|]. intros k f.
    rewrite lookup_insert. case_decide as Hk.
    + subst k. intros [= <-]. split; [|intros [|]; discriminate].
      intros _. split; [apply elem_of_app; right; left|cbn; lia].
    + intros Hf. destruct (H k f Hf) as [Hp Hw]. split; [|exact Hw].
      intros Hk'. destruct (Hp Hk'). auto using elem_of_emitter_on_old.
  - intros t v (Hn & H); cbn [fst snd] in *.
    unfold hook_rejections, fresh. repeat case_match; [| |auto..].
    + cbn -[addEventListener]. split; [lia|]. intros k f.
      rewrite lookup_insert. case_decide as Hk.
      * subst k. intros [= <-]. split; [intros [|]; discriminate|].
        intros _. split; [apply elem_of_addEventListener|cbn; lia].
      * intros Hf. destruct (H k f Hf) as [Hp Hw]. split; [exact Hp|].
        intros Hk'. destruct (Hw Hk').
        auto using elem_of_addEventListener_old.
    + cbn -[emitter_on]. split; [lia|]. intros k f.
      rewrite lookup_insert. case_decide as Hk.
      * subst k. intros [= <-]. split; [|intros [|]; discriminate].
        intros _. split; [apply elem_of_app; right; left|cbn; lia].
      * intros Hf. destruct (H k f Hf) as [Hp Hw]. split; [|exact Hw].
        intros Hk'. destruct (Hp Hk'). auto using elem_of_emitter_on_old.
  - intros t v (Hn & H); cbn [fst snd] in *.
    unfold hook_console_error, fresh. case_match; [|auto].
    cbn. split; [lia|]. intros k g.
    rewrite lookup_insert. case_decide as Hk; [|apply H].
    subst k. intros _. split; intros [|]; discriminate.
  - intros t v (Hn & H); cbn [fst snd] in *.
    unfold hook_window_error, fresh. case_match; [|auto].
    cbn -[addEventListener]. split; [lia|]. intros k f.
    rewrite lookup_insert. case_decide as Hk.
    + subst k. intros [= <-]. split; [intros [|]; discriminate|].
      intros _. split; [apply elem_of_addEventListener|cbn; lia].
    + intros Hf. destruct (H k f Hf) as [Hp Hw]. split; [exact Hp|].
      intros Hk'. destruct (Hw Hk').
      auto using elem_of_addEventListener_old.
  - intros t v (Hn & H); cbn [fst snd] in *.
    unfold hook_window_fetch, fresh, assign_fetch. repeat case_match; [|auto..].
    cbn. split; [lia|]. intros k g.
    rewrite lookup_insert. case_decide as Hk; [|apply H].
    subst k. intros _. split; intros [|]; discriminate.
  - intros t v (Hn & H); cbn [fst snd] in *.
    unfold hook_global_fetch, fresh, assign_fetch. repeat case_match; [|auto..].
    cbn. split; [lia|]. intros k g.
    rewrite lookup_insert. case_decide as Hk; [|apply H].
    subst k. intros _. split; intros [|]; discriminate.
Qed.

(** The registry has no other key. *)
Lemma start_registers_known_keys this w k :
  originalHandlers this = ∅ → isActive this = false →
  is_Some (originalHandlers (start this w).1 !! k) → k ∈ all_keys.
Proof.
  intros Hreg Hact. 
  apply (start_invariant
    (λ st, is_Some (originalHandlers st.1 !! k) → k ∈ all_keys) this w Hact).
  - cbn. rewrite Hreg, lookup_empty. intros [? [=]].
  - intros t v H; cbn [fst snd] in *. run_hook; cbn; [|exact H].
    rewrite lookup_insert. case_decide; [subst k; intros _|exact H].
    unfold all_keys. rewrite !elem_of_cons. tauto.
  - intros t v H; cbn [fst snd] in *. run_hook; cbn; try exact H;
      rewrite lookup_insert; (case_decide; [subst k; intros _|exact H]);
      unfold all_keys; rewrite !elem_of_cons; tauto.
  - intros t v H; cbn [fst snd] in *. run_hook; cbn; try exact H;
      rewrite lookup_insert; (case_decide; [subst k; intros _|exact H]);
      unfold all_keys; rewrite !elem_of_cons; tauto.
  - intros t v H; cbn [fst snd] in *. run_hook; cbn; try exact H;
      rewrite lookup_insert; (case_decide; [subst k; intros _|exact H]);
      unfold all_keys; rewrite !elem_of_cons; tauto.
  - intros t v H; cbn [fst snd] in *. run_hook; cbn; try exact H;
      rewrite lookup_insert; (case_decide; [subst k; intros _|exact H]);
      unfold all_keys; rewrite !elem_of_cons; tauto.
  - intros t v H; cbn [fst snd] in *. run_hook; cbn; try exact H;
      rewrite lookup_insert; (case_decide; [subst k; intros _|exact H]);
      unfold all_keys; rewrite !elem_of_cons; tauto.
Qed.
End Gating.

(** C6, as stated: with every toggle switched off, [start] still installs
    the handler of uncaught exceptions in Node.js and the handler of the
    [error] event in the browser; [MonitorOptions] has no toggle for
    either. *)
Lemma uncaught_exception_hook_ignores_toggles :
  let m := new_ErrorMonitor "k" all_off in
  (enableConsoleErrors (options m) = false
   ∧ enablePromiseRejections (options m) = false
   ∧ enableFunctionWrapping (options m) = false
   ∧ enableFetchMonitoring (options m) = false
   ∧ monitorHttpErrors (options m) = false)
  ∧ process_listeners (start m node_world).2
    = process_listeners node_world
      ++ [("uncaughtException", UncaughtHandler 10 (reporter m))]
  ∧ window_listeners (start m browser_world).2
    = window_listeners browser_world
      ++ [("error", WindowErrorHandler 10 (reporter m))].
Proof. cbv zeta. repeat split; vm_compute; reflexivity. Qed.

(** C6, amended.  Three interception points are gated by a toggle: with
    [enablePromiseRejections], [enableConsoleErrors] or
    [enableFetchMonitoring] off, [start] registers no rejection listener,
    leaves [console.error] alone, or leaves every [fetch] alone, and records
    nothing under the corresponding keys.  The handler of uncaught
    exceptions and the handler of the window [error] event have no toggle:
    [start] installs them whenever the runtime has [process], respectively
    [window], whatever the options are. *)
Theorem capture_toggles_gate_optional_hooks_only :
  ∀ (this : ErrorMonitor) (w : World),
    isActive this = false →
    (enablePromiseRejections (options this) = false →
       listeners_for "unhandledRejection" (process_listeners (start this w).2)
       = listeners_for "unhandledRejection" (process_listeners w)
       ∧ listeners_for "unhandledrejection" (window_listeners (start this w).2)
         = listeners_for "unhandledrejection" (window_listeners w)
       ∧ originalHandlers (start this w).1 !! "unhandledRejection"
         = originalHandlers this !! "unhandledRejection"
       ∧ originalHandlers (start this w).1 !! "unhandledrejection"
         = originalHandlers this !! "unhandledrejection")
    ∧ (enableConsoleErrors (options this) = false →
         console_error (start this w).2 = console_error w
         ∧ originalHandlers (start this w).1 !! "console.error"
           = originalHandlers this !! "console.error")
    ∧ (enableFetchMonitoring (options this) = false →
         fetch_of (start this w).2 = fetch_of w
         ∧ originalHandlers (start this w).1 !! "fetch"
           = originalHandlers this !! "fetch"
         ∧ originalHandlers (start this w).1 !! "global.fetch"
           = originalHandlers this !! "global.fetch")
    ∧ (has_process w = true →
         ("uncaughtException", UncaughtHandler (next_ref w) (reporter this))
           ∈ process_listeners (start this w).2
         ∧ originalHandlers (start this w).1 !! "uncaughtException"
           = Some (UncaughtHandler (next_ref w) (reporter this)))
    ∧ (∀ win, window w = Some win →
         ∃ r, ("error", WindowErrorHandler r (reporter this))
                ∈ window_listeners (start this w).2
              ∧ originalHandlers (start this w).1 !! "error"
                = Some (WindowErrorHandler r (reporter this))).
Proof.
  intros this w Hact.
  split; [apply start_rejection_gate, Hact|].
  split; [apply start_console_gate, Hact|].
  split; [apply start_fetch_gate, Hact|].
  split; [apply start_installs_uncaughtException, Hact|].
  intros win. apply start_installs_window_error, Hact.
Qed.

(** The theorem at a monitor with every toggle off, in Node.js. *)
Lemma capture_toggles_gate_optional_hooks_only_witness :
  let m := new_ErrorMonitor "k" all_off in
  console_error (start m node_world).2 = console_error node_world
  ∧ fetch_of (start m node_world).2 = fetch_of node_world
  ∧ ("uncaughtException", UncaughtHandler 10 (reporter m))
      ∈ process_listeners (start m node_world).2.
Proof.
  cbv zeta.
  destruct (capture_toggles_gate_optional_hooks_only
              (new_ErrorMonitor "k" all_off) node_world eq_refl)
    as (_ & Hconsole & Hfetch & Huncaught & _).
  split; [apply Hconsole; reflexivity|].
  split; [apply Hfetch; reflexivity|].
  apply Huncaught. reflexivity.
Defined.

(** C7, as stated: after [start] in Node.js the entry of the registry
    for the uncaught-exception hook is the handler that [start] has just
    created; it was not registered before [start], when the only listener
    was the host's. *)
Lemma registry_holds_new_listeners_not_originals :
  let m := new_ErrorMonitor "k" no_options in
  originalHandlers (start m node_world).1 !! "uncaughtException"
  = Some (UncaughtHandler 10 (reporter m))
  ∧ listeners_for "uncaughtException" (process_listeners node_world)
    = [Native 0]
  ∧ ("uncaughtException", UncaughtHandler 10 (reporter m))
      ∉ process_listeners node_world.
Proof.
  cbv zeta. split; [vm_compute; reflexivity|].
  split; [vm_compute; reflexivity|].
  intros Hin. apply list_elem_of_singleton in Hin. discriminate.
Qed.

(** C7, amended.  After [start] on a monitor that was not active, the
    registry has only the seven known keys.  Its entries for
    [console.error], [fetch] and [global.fetch] hold the function that was
    in the slot before [start] (for [global.fetch], when [global] is not the
    [window] object).  Its entries for the four listener hooks hold the
    handler that this [start] created and registered: a listener of the
    runtime after [start], at an address that did not exist before. *)
Theorem registry_after_start :
  ∀ (this : ErrorMonitor) (w : World),
    Reachable this → isActive this = false →
    (∀ k, is_Some (originalHandlers (start this w).1 !! k) → k ∈ all_keys)
    ∧ (∀ f, originalHandlers (start this w).1 !! "console.error" = Some f →
            f = console_error w)
    ∧ (∀ f, originalHandlers (start this w).1 !! "fetch" = Some f →
            window_fetch w = Some f)
    ∧ (separate_globals w →
       ∀ f, originalHandlers (start this w).1 !! "global.fetch" = Some f →
            global_fetch w = Some f)
    ∧ (∀ k f, originalHandlers (start this w).1 !! k = Some f →
         (k = "uncaughtException" ∨ k = "unhandledRejection" →
            (k, f) ∈ process_listeners (start this w).2
            ∧ (next_ref w ≤ fn_ref f)%nat)
         ∧ (k = "unhandledrejection" ∨ k = "error" →
            (k, f) ∈ window_listeners (start this w).2
            ∧ (next_ref w ≤ fn_ref f)%nat)).
Proof.
  intros this w Hreach Hact.
  pose proof (inactive_registry_empty this Hreach Hact) as Hreg.
  split; [intros k; apply start_registers_known_keys; assumption|].
  split; [intros f; apply start_registers_console_error; assumption|].
  split; [intros f; apply start_registers_window_fetch; assumption|].
  split; [intros Hsep f; apply start_registers_global_fetch; assumption|].
  apply start_registers_own_listeners; assumption.
Qed.

(** The theorem at a fresh monitor in the browser runtime. *)
Lemma registry_after_start_witness :
  originalHandlers
    (start (new_ErrorMonitor "k" no_options) browser_world).1 !! "fetch"
  = Some (Native 2)
  ∧ window_fetch browser_world = Some (Native 2).
Proof.
  assert (originalHandlers
            (start (new_ErrorMonitor "k" no_options) browser_world).1
            !! "fetch" = Some (Native 2)) as Hentry
    by (vm_compute; reflexivity).
  split; [exact Hentry|].
  exact (proj1 (proj2 (proj2 (registry_after_start
           (new_ErrorMonitor "k" no_options) browser_world
           (reach_new "k" no_options) eq_refl))) (Native 2) Hentry).
Defined.

(** ** Reporting *)

Section Reporting.
Context (host : Host).
Implicit Types (w : World) (f : Fn) (this : Reporter).

(** A call of [console.error] returns; it writes to the console and may
    start reports, and touches nothing else. *)
Lemma call_console_error_returns f args w :
  ∃ c more, call_console_error f args w
            = (Normal tt, set_spawned (spawned w ++ more) (set_console_out c w)).
Proof.
  revert w. induction f as [r| | | |r monitor orig IH| | |]; intros w;
    try (eexists _, []; rewrite app_nil_r; reflexivity).
  cbn [call_console_error]. unfold bind.
  destruct (IH w) as (c & more & ->).
  destruct args as [|firstArg rest];
    [eexists _, more; reflexivity|].
  destruct (instanceof_Error firstArg);
    [eexists _, (more ++ [_]); cbn; rewrite app_assoc; reflexivity|].
  destruct firstArg; try (eexists _, more; reflexivity).
  destruct rest as [|second rest]; [eexists _, more; reflexivity|].
  destruct (instanceof_Error second);
    [eexists _, (more ++ [_]); cbn; rewrite app_assoc; reflexivity
    |eexists _, more; reflexivity].
Qed.

(** The wrapper of [start], called with a label and an error, starts a
    report of that error after the function it replaced has run. *)
Lemma console_wrapper_reports r monitor orig label e w :
  instanceof_Error e = true →
  ∃ c more, call_console_error (ConsoleErrorWrapper r monitor orig)
              [VStr label; e] w
            = (Normal tt,
               set_spawned
                 (spawned w ++ more
                  ++ [{| call_monitor := monitor; call_event := label;
                         call_err := e; call_errorType := manual |}])
                 (set_console_out c w)).
Proof.
  intros He. cbn [call_console_error]. unfold bind.
  destruct (call_console_error_returns orig [VStr label; e] w)
    as (c & more & ->).
  cbn. rewrite He. eexists c, more. cbn. rewrite app_assoc. reflexivity.
Qed.

(** With a console, the body of [reportError] runs to its end: one request
    goes out, and whatever the HTTP client does, the promise is fulfilled.
    The patched slots are not touched. *)
Lemma report_settles this event err errorType w :
  has_console w = true →
  ∃ w', report host this event err errorType w = (Fulfilled VUndefined, w')
        ∧ http_log w'
          = http_log w ++ [request_of host this event err errorType w]
        ∧ slots w' = slots w
        ∧ same_env w w'.
Proof.
  intros Hc.
  unfold report, async, try_catch, report_try, bind, error_object,
    console_log, await_fetch, request_of, errorObj_of, throw_new_Error,
    new_Error, fresh, bind, throw, ret.
  destruct (instanceof_Error err); cbn; rewrite Hc; cbn.
  all: destruct (transport host _ _) as [e|reason|status]; cbn.
  all: try destruct (response_ok status); cbn.
  all: unfold console_error_call; cbn; rewrite ?Hc.
  all: try match goal with
       | |- context [call_console_error ?f ?args ?w] =>
           destruct (call_console_error_returns f args w) as (c & more & ->)
       end.
  all: eexists; split; [reflexivity|]; cbn; repeat split; reflexivity.
Qed.

(** Without a console the [catch] block itself throws, and the promise
    is rejected. *)
Lemma report_rejects_without_console this event err errorType w :
  has_console w = false →
  ∃ r w', report host this event err errorType w
          = (Rejected (VError r "console is not defined"
                         (new_stack host "console is not defined")), w').
Proof.
  intros Hc.
  unfold report, async, try_catch, report_try, bind, error_object,
    console_log, throw_new_Error, new_Error, fresh, bind, throw, ret.
  destruct (instanceof_Error err); cbn; rewrite Hc; cbn;
    unfold console_error_call; cbn; rewrite Hc; cbn;
    eexists _, _; reflexivity.
Qed.

(** When [console.error] is the wrapper of a started monitor and the
    webhook answers outside 2xx, the failed report is itself reported. *)
Lemma failed_report_is_reported this event err errorType w r monitor orig status :
  has_console w = true →
  console_error w = ConsoleErrorWrapper r monitor orig →
  transport host (length (http_log w))
    (request_of host this event err errorType w) = FetchResponds status →
  response_ok status = false →
  ∃ more e,
    spawned (report host this event err errorType w).2
    = spawned w ++ more
      ++ [{| call_monitor := monitor; call_event := failed_label;
             call_err := e; call_errorType := manual |}].
Proof.
  intros Hc Hce Hnet Hbad.
  unfold report, async, try_catch, report_try, bind, error_object,
    console_log, await_fetch, throw_new_Error, new_Error, fresh, bind,
    throw, ret.
  unfold request_of, errorObj_of in Hnet.
  destruct (instanceof_Error err); cbn; rewrite Hc; cbn;
    rewrite Hnet; cbn; rewrite Hbad; cbn;
    unfold console_error_call; cbn; rewrite Hc, Hce;
    match goal with
    | |- context [call_console_error _ [VStr ?l; ?e] ?w] =>
        destruct (console_wrapper_reports r monitor orig l e w eq_refl)
          as (c & more & ->)
    end; cbn; eauto.
Qed.
End Reporting.

(** C1, at two inputs.  (1) In a runtime without [console], the case that
    [start] and [stop] test for, [console.log] throws inside the [try] and
    the [console.error] of the [catch] block throws in turn: the promise
    that [reportError] returns is rejected, and no request is sent.  (2) In
    Node.js, on a monitor started with the default options whose webhook
    answers 500, the [catch] block logs the failure through the monitor's
    own wrapper of [console.error], which starts a report of that failure:
    the failure is not only logged. *)
Lemma reportError_rejects_or_reports_its_own_failure :
  (∃ r e w',
     reportError host_up (new_ErrorMonitor "k" no_options) "checkout"
       (VStr "boom") manual mute_world
     = (Normal (VPromise (PSettles r (Rejected e))), w')
     ∧ instanceof_Error e = true
     ∧ http_log w' = [])
  ∧ (let m := (start (new_ErrorMonitor "k" no_options) node_world).1 in
     let w := (start (new_ErrorMonitor "k" no_options) node_world).2 in
     let w' := (reportError host_500 m "checkout" (VStr "boom") manual w).2 in
     spawned w = []
     ∧ ∃ e, spawned w'
            = [{| call_monitor := reporter m; call_event := failed_label;
                  call_err := e; call_errorType := manual |}]
            ∧ error_message e = "Error reporting failed with status 500").
Proof.
  split.
  - eexists _, _, _. split; [vm_compute; reflexivity|]. split; reflexivity.
  - cbv zeta. split; [vm_compute; reflexivity|].
    eexists. split; [vm_compute; reflexivity|]. reflexivity.
Qed.

(** X26.  In a runtime with a console, a call of [reportError] returns a
    promise (the call itself does not throw) and that promise is fulfilled,
    for every event, every error or message, every classification and every
    behaviour of the HTTP client: a throw, a rejection, or a response with
    any status. *)
Theorem reportError_never_throws_nor_rejects :
  ∀ (host : Host) (this : ErrorMonitor) (event : string) (err : Value)
    (errorType : ErrorType) (w : World),
    has_console w = true →
    ∃ r w', reportError host this event err errorType w
            = (Normal (VPromise (PSettles r (Fulfilled VUndefined))), w').
Proof.
  intros host this event err errorType w Hc.
  unfold reportError, promise_of.
  destruct (report_settles host (reporter this) event err errorType w Hc)
    as (w' & -> & _).
  eexists _, _. reflexivity.
Qed.

(** The theorem where the webhook answers 500 and [console.error] is the
    wrapper that the monitor itself installed. *)
Lemma reportError_never_throws_nor_rejects_witness :
  let m := (start (new_ErrorMonitor "k" no_options) node_world).1 in
  let w := (start (new_ErrorMonitor "k" no_options) node_world).2 in
  ∃ r w', reportError host_500 m "checkout" (VStr "boom") manual w
          = (Normal (VPromise (PSettles r (Fulfilled VUndefined))), w').
Proof.
  cbv zeta. apply reportError_never_throws_nor_rejects. reflexivity.
Defined.

(** C10.  [reportError] reads neither [isActive] nor the registry: a
    monitor with the same key and options, active or not, gives the same
    call; and on every monitor, in a runtime with a console, the call sends
    the POST with the whole payload: the endpoint and the bearer token of
    the monitor, the event, the classification, and the options as [data]. *)
Theorem reportError_does_not_read_isActive :
  ∀ (host : Host) (this : ErrorMonitor) (event : string) (err : Value)
    (errorType : ErrorType) (w : World),
    (∀ active registry,
       reportError host
         {| apiKey := apiKey this; options := options this;
            originalHandlers := registry; isActive := active |}
         event err errorType w
       = reportError host this event err errorType w)
    ∧ (has_console w = true →
       ∃ p w' req,
         reportError host this event err errorType w = (Normal p, w')
         ∧ http_log w' = http_log w ++ [req]
         ∧ req = request_of host (reporter this) event err errorType w
         ∧ req_url req = endpoint (options this)
         ∧ req_method req = "POST"
         ∧ req_authorization req = "Bearer " +:+ apiKey this
         ∧ p_event (req_body req) = event
         ∧ p_errorType (req_body req) = errorType
         ∧ p_data (req_body req) = options this).
Proof.
  intros host this event err errorType w. split; [reflexivity|].
  intros Hc. unfold reportError, promise_of.
  destruct (report_settles host (reporter this) event err errorType w Hc)
    as (w' & -> & Hlog & _).
  eexists _, _, _. split; [reflexivity|]. cbn.
  split; [exact Hlog|]. repeat split.
Qed.

(** The second part at a monitor that was never started. *)
Lemma reportError_does_not_read_isActive_witness :
  ∃ p w' req,
    reportError host_up (new_ErrorMonitor "k" no_options) "checkout"
      (VStr "boom") manual node_world = (Normal p, w')
    ∧ http_log w' = http_log node_world ++ [req]
    ∧ req_authorization req = "Bearer k"
    ∧ p_event (req_body req) = "checkout".
Proof.
  destruct (proj2 (reportError_does_not_read_isActive host_up
              (new_ErrorMonitor "k" no_options) "checkout" (VStr "boom")
              manual node_world) eq_refl)
    as (p & w' & req & Hcall & Hlog & _ & _ & _ & Hauth & Hevent & _).
  exists p, w', req. repeat split; assumption.
Defined.

(** ** Wrapped functions *)




(** X2.  A thenable without [catch]: the wrapper tests [then] and calls
    [catch], so the call throws a new error, although [fn] returned, and
    starts exactly one report, of that error under the label of a
    synchronous throw. *)
Lemma wrapFunction_thenable_without_catch :
  ∀ (host : Host) (this : ErrorMonitor) (fn : JsFunction)
    (functionName : option string) (self : Value) (args : list Value)
    (w w1 : World) (ref : nat),
    fn_apply fn self args w = (Normal (VThenable ref), w1) →
    let e := VError (next_ref w1) "result.catch is not a function"
               (new_stack host "result.catch is not a function") in
    fn_apply (wrapFunction host this fn functionName) self args w
    = (Throw e,
       set_spawned
         (spawned w1
          ++ [{| call_monitor := reporter this;
                 call_event :=
                   or_else functionName
                     (or_else (Some (fn_name fn)) "anonymous_function");
                 call_err := e; call_errorType := manual |}])
         (set_next_ref (S (next_ref w1)) w1)).
Proof.
  intros host this fn functionName self args w w1 ref Hfn e.
  unfold wrapFunction. cbn [fn_apply]. unfold try_catch, bind. rewrite Hfn.
  reflexivity.
Qed.

(** ** The global monitor *)

Section Singleton.
Context (host : Host).
Implicit Types (md : Module) (w : World).

(** A method call on the monitor at an address changes that monitor only. *)
Lemma update_at_spec addr method md w :
  (update_at addr method md w).1
  = {| monitors :=
         match monitors md !! addr with
         | Some m => <[addr := (method m w).1]> (monitors md)
         | None => monitors md
         end;
       globalMonitor := globalMonitor md |}.
Proof.
  unfold update_at. destruct (monitors md !! addr) as [m|]; [|destruct md; reflexivity].
  destruct (method m w). reflexivity.
Qed.

Lemma only_global_active_stop md w g :
  only_global_active md → globalMonitor md = Some g →
  ∀ i m, monitors (update_at g stop md w).1 !! i = Some m → isActive m = false.
Proof.
  intros Hone Hg i m. rewrite update_at_spec. cbn.
  destruct (monitors md !! g) as [old|] eqn:Hold.
  - destruct (decide (i = g)) as [->|Hne].
    + rewrite list_lookup_insert_eq by (eapply lookup_lt_Some, Hold).
      intros [= <-]. apply stop_is_inactive.
    + rewrite list_lookup_insert_ne by congruence.
      intros Hm. destruct (isActive m) eqn:Hact; [|reflexivity].
      specialize (Hone i m Hm Hact). congruence.
  - intros Hm. destruct (isActive m) eqn:Hact; [|reflexivity].
    specialize (Hone i m Hm Hact).
    assert (i = g) as -> by congruence. congruence.
Qed.

Lemma no_global_none_active md :
  only_global_active md → globalMonitor md = None →
  ∀ i m, monitors md !! i = Some m → isActive m = false.
Proof.
  intros Hone Hg i m Hm. destruct (isActive m) eqn:Hact; [|reflexivity].
  specialize (Hone i m Hm Hact). congruence.
Qed.

Lemma monitor_keeps_invariant apiKey options md w :
  only_global_active md →
  only_global_active (monitor apiKey options md w).1.2.
Proof.
  intros Hone. unfold monitor.
  assert (∃ md1 w1, (match globalMonitor md with
                     | Some g => update_at g stop md w
                     | None => (md, w)
                     end) = (md1, w1)
                    ∧ ∀ i m, monitors md1 !! i = Some m → isActive m = false)
    as (md1 & w1 & -> & Hoff).
  { destruct (globalMonitor md) as [g|] eqn:Hg.
    - destruct (update_at g stop md w) as [md1 w1] eqn:E.
      exists md1, w1. split; [reflexivity|].
      pose proof (only_global_active_stop md w g Hone Hg) as H.
      rewrite E in H. exact H.
    - exists md, w. split; [reflexivity|].
      apply no_global_none_active; assumption. }
  unfold allocate, set_globalMonitor. cbn.
  pose proof (update_at_spec (length (monitors md1)) start
    {| monitors := monitors md1 ++ [new_ErrorMonitor apiKey options];
       globalMonitor := Some (length (monitors md1)) |} w1) as Hspec.
  destruct (update_at _ start _ w1) as [md2 w2]. cbn in Hspec |- *.
  subst md2. rewrite lookup_app_r, Nat.sub_diag by reflexivity. cbn.
  intros i m Hm Hact. cbn in *.
  destruct (decide (i = length (monitors md1))) as [->|Hne]; [reflexivity|].
  rewrite list_lookup_insert_ne in Hm by congruence.
  apply lookup_app_Some in Hm as [Hm|[Hge Hm]].
  - rewrite (Hoff i m Hm) in Hact. discriminate.
  - destruct (i - length (monitors md1))%nat eqn:Hd; [lia|].
    cbn in Hm. discriminate.
Qed.

Lemma stopMonitoring_keeps_invariant md w :
  only_global_active md → only_global_active (stopMonitoring md w).1.
Proof.
  intros Hone. unfold stopMonitoring.
  destruct (globalMonitor md) as [g|] eqn:Hg; [|exact Hone].
  pose proof (only_global_active_stop md w g Hone Hg) as Hoff.
  destruct (update_at g stop md w) as [md1 w1]. cbn in *.
  intros i m Hm Hact. rewrite (Hoff i m Hm) in Hact. discriminate.
Qed.

Lemma issueUpdate_module apiKey event err data md w :
  (issueUpdate host apiKey event err data md w).1.2
  = match the_globalMonitor md with
    | Some _ => md
    | None => (allocate (new_ErrorMonitor apiKey data) md).2
    end.
Proof.
  unfold issueUpdate. destruct (the_globalMonitor md) as [m|].
  - destruct (reportError host m event err manual w). reflexivity.
  - destruct (allocate _ md) as [addr md1].
    destruct (reportError host _ event err manual w). reflexivity.
Qed.

Lemma issueUpdate_keeps_invariant apiKey event err data md w :
  only_global_active md →
  only_global_active (issueUpdate host apiKey event err data md w).1.2.
Proof.
  intros Hone. rewrite issueUpdate_module.
  destruct (the_globalMonitor md); [exact Hone|].
  unfold allocate. cbn. intros i m Hm Hact. cbn in *.
  apply lookup_app_Some in Hm as [Hm|[Hge Hm]]; [exact (Hone i m Hm Hact)|].
  destruct (i - length (monitors md))%nat; cbn in Hm; [|discriminate].
  injection Hm as <-. discriminate.
Qed.

Lemma run_call_keeps_invariant st c :
  only_global_active st.1 → only_global_active (run_call host st c).1.
Proof.
  intros Hone. destruct c as [apiKey options| | |apiKey event err data]; cbn.
  - pose proof (monitor_keeps_invariant apiKey options st.1 st.2 Hone) as H.
    destruct (monitor apiKey options st.1 st.2) as [[addr md] w]. exact H.
  - apply stopMonitoring_keeps_invariant, Hone.
  - exact Hone.
  - pose proof (issueUpdate_keeps_invariant apiKey event err data st.1 st.2
                  Hone) as H.
    destruct (issueUpdate host apiKey event err data st.1 st.2)
      as [[p md] w]. exact H.
Qed.

Lemma run_calls_invariant calls : ∀ st,
  only_global_active st.1 →
  only_global_active (foldl (run_call host) st calls).1.
Proof.
  induction calls as [|c calls IH]; intros st Hone; [exact Hone|].
  cbn. apply IH, run_call_keeps_invariant, Hone.
Qed.
End Singleton.

Section SingletonReports.
Context (host : Host).

(** A report changes none of the patched slots. *)
Lemma reportError_keeps_slots this event err errorType w :
  slots (reportError host this event err errorType w).2 = slots w.
Proof.
  unfold reportError, promise_of.
  destruct (has_console w) eqn:Hc.
  - destruct (report_settles host (reporter this) event err errorType w Hc)
      as (w' & -> & _ & Hslots & _). exact Hslots.
  - unfold report, async, try_catch, report_try, bind, error_object,
      console_log, throw_new_Error, new_Error, fresh, bind, throw, ret.
    destruct (instanceof_Error err); cbn; rewrite Hc; cbn;
      unfold console_error_call; cbn; rewrite Hc; reflexivity.
Qed.

Lemma the_globalMonitor_None md :
  globalMonitor md = None → the_globalMonitor md = None.
Proof. unfold the_globalMonitor. intros ->. reflexivity. Qed.

(** With a console, a report sends its request. *)
Lemma reportError_sends this event err errorType w :
  has_console w = true →
  http_log (reportError host this event err errorType w).2
  = http_log w ++ [request_of host (reporter this) event err errorType w].
Proof.
  intros Hc. unfold reportError, promise_of.
  destruct (report_settles host (reporter this) event err errorType w Hc)
    as (w' & -> & Hlog & _). exact Hlog.
Qed.
End SingletonReports.

(** C8.  (1) In every program that uses the exported functions only, at
    every point only the monitor held in [globalMonitor] may be active.
    (2) When [monitor] is called while a global monitor exists, that monitor
    is stopped first; the new monitor is constructed, started in the runtime
    that the [stop] left, and stored.  (3) [issueUpdate] without a global
    monitor constructs a monitor, reports through it, leaves
    [globalMonitor] empty, never starts the monitor and installs nothing. *)
Theorem singleton_keeps_at_most_one_monitor_active :
  ∀ (host : Host),
    (∀ calls w, only_global_active (run_calls host calls w).1)
    ∧ (∀ apiKey options md w g old,
         globalMonitor md = Some g → monitors md !! g = Some old →
         monitor apiKey options md w
         = (length (monitors md),
            {| monitors :=
                 <[g := (stop old w).1]> (monitors md)
                 ++ [(start (new_ErrorMonitor apiKey options)
                        (stop old w).2).1];
               globalMonitor := Some (length (monitors md)) |},
            (start (new_ErrorMonitor apiKey options) (stop old w).2).2))
    ∧ (∀ apiKey event err data md w,
         globalMonitor md = None →
         globalMonitor (issueUpdate host apiKey event err data md w).1.2
         = None
         ∧ monitors (issueUpdate host apiKey event err data md w).1.2
           = monitors md ++ [new_ErrorMonitor apiKey data]
         ∧ isActive (new_ErrorMonitor apiKey data) = false
         ∧ (issueUpdate host apiKey event err data md w).1.1
           = (reportError host (new_ErrorMonitor apiKey data) event err
                manual w).1
         ∧ slots (issueUpdate host apiKey event err data md w).2 = slots w).
Proof.
  intros host. split; [|split].
  - intros calls w. apply run_calls_invariant.
    intros i m Hm. cbn in Hm. rewrite lookup_nil in Hm. discriminate.
  - intros apiKey options md w g old Hg Hold.
    unfold monitor, update_at, allocate, set_globalMonitor.
    rewrite Hg, Hold. destruct (stop old w) as [old' w1]. cbn -[start].
    rewrite lookup_app_r by (rewrite length_insert; reflexivity).
    rewrite length_insert, Nat.sub_diag. cbn -[start].
    destruct (start (new_ErrorMonitor apiKey options) w1) as [m' w2].
    cbn -[start].
    rewrite insert_app_r_alt by (rewrite length_insert; reflexivity).
    rewrite length_insert, Nat.sub_diag. reflexivity.
  - intros apiKey event err data md w Hg.
    pose proof (the_globalMonitor_None md Hg) as Hnone.
    pose proof (reportError_keeps_slots host (new_ErrorMonitor apiKey data)
                  event err manual w) as Hslots.
    unfold issueUpdate. rewrite Hnone. unfold allocate.
    destruct (reportError host _ event err manual w) as [p w'].
    cbn in *. auto.
Qed.

(** Two calls of [monitor] in Node.js: the first monitor ends inactive, the
    second is the global one. *)
Lemma singleton_keeps_at_most_one_monitor_active_witness :
  let md := (run_calls host_up
               [CallMonitor "a" no_options; CallMonitor "b" no_options]
               node_world).1 in
  only_global_active md
  ∧ globalMonitor md = Some 1%nat
  ∧ isActive <$> monitors md = [false; true].
Proof.
  cbv zeta. split; [|split; vm_compute; reflexivity].
  apply (proj1 (singleton_keeps_at_most_one_monitor_active host_up)).
Defined.

(** C9.  While a global monitor exists, [issueUpdate] is the
    [reportError] of that monitor: the [apiKey] and [data] arguments are not
    read, and the request carries the bearer token, the endpoint and the
    options of the global monitor.  Without a global monitor the request
    carries the [apiKey] argument, and the endpoint and the options built
    from [data]. *)
Theorem issueUpdate_reports_through_the_global_monitor :
  ∀ (host : Host) (event : string) (err : Value) (md : Module) (w : World),
    (∀ m, the_globalMonitor md = Some m →
       (∀ key data,
          issueUpdate host key event err data md w
          = ((reportError host m event err manual w).1, md,
             (reportError host m event err manual w).2))
       ∧ (∀ key1 data1 key2 data2,
            issueUpdate host key1 event err data1 md w
            = issueUpdate host key2 event err data2 md w)
       ∧ (has_console w = true →
          ∀ key data, ∃ req,
            http_log (issueUpdate host key event err data md w).2
            = http_log w ++ [req]
            ∧ req_authorization req = "Bearer " +:+ apiKey m
            ∧ req_url req = endpoint (options m)
            ∧ p_data (req_body req) = options m))
    ∧ (the_globalMonitor md = None → has_console w = true →
       ∀ key data, ∃ req,
         http_log (issueUpdate host key event err data md w).2
         = http_log w ++ [req]
         ∧ req_authorization req = "Bearer " +:+ key
         ∧ req_url req = endpoint (spread_over_defaults data)
         ∧ p_data (req_body req) = spread_over_defaults data).
Proof.
  intros host event err md w. split.
  - intros m Hm.
    assert (∀ key data,
              issueUpdate host key event err data md w
              = ((reportError host m event err manual w).1, md,
                 (reportError host m event err manual w).2)) as Hcall.
    { intros key data. unfold issueUpdate. rewrite Hm.
      destruct (reportError host m event err manual w). reflexivity. }
    split; [exact Hcall|]. split.
    + intros key1 data1 key2 data2. rewrite !Hcall. reflexivity.
    + intros Hc key data. rewrite Hcall. cbn [snd].
      rewrite (reportError_sends host m event err manual w Hc).
      eexists. split; [reflexivity|]. repeat split.
  - intros Hnone Hc key data. unfold issueUpdate. rewrite Hnone.
    unfold allocate.
    pose proof (reportError_sends host (new_ErrorMonitor key data) event err
                  manual w Hc) as Hlog.
    destruct (reportError host _ event err manual w) as [p w'].
    cbn [snd] in Hlog |- *. rewrite Hlog.
    eexists. split; [reflexivity|]. repeat split.
Qed.

(** In Node.js with the global monitor of key [k] and the default options, a
    call that passes another key and other options sends the token and the
    options of the global monitor; without a global monitor the same call
    sends the key and the options it passes. *)
Lemma issueUpdate_reports_through_the_global_monitor_witness :
  (let st := run_calls host_up [CallMonitor "k" no_options] node_world in
   ∃ req,
     http_log (issueUpdate host_up "other" "checkout" (VStr "boom") all_off
                 st.1 st.2).2
     = http_log st.2 ++ [req]
     ∧ req_authorization req = "Bearer k"
     ∧ p_data (req_body req) = spread_over_defaults no_options)
  ∧ (∃ req,
       http_log (issueUpdate host_up "other" "checkout" (VStr "boom") all_off
                   initial_module node_world).2
       = http_log node_world ++ [req]
       ∧ req_authorization req = "Bearer other"
       ∧ p_data (req_body req) = spread_over_defaults all_off).
Proof.
  split.
  - cbv zeta.
    destruct (issueUpdate_reports_through_the_global_monitor host_up
                "checkout" (VStr "boom")
                (run_calls host_up [CallMonitor "k" no_options] node_world).1
                (run_calls host_up [CallMonitor "k" no_options] node_world).2)
      as (Hglobal & _).
    destruct (Hglobal (start (new_ErrorMonitor "k" no_options) node_world).1)
      as (_ & _ & Hsend); [vm_compute; reflexivity|].
    destruct (Hsend eq_refl "other" all_off) as (req & Hlog & Hauth & _ & Hdata).
    exists req. split; [exact Hlog|]. split; [exact Hauth|].
    rewrite Hdata. vm_compute. reflexivity.
  - destruct (issueUpdate_reports_through_the_global_monitor host_up
                "checkout" (VStr "boom") initial_module node_world)
      as (_ & Hnone).
    destruct (Hnone eq_refl eq_refl "other" all_off)
      as (req & Hlog & Hauth & _ & Hdata).
    exists req. split; [exact Hlog|]. split; [exact Hauth|exact Hdata].
Defined.

(** ** Further properties of the code *)

Section Feedback.
Context (host : Host).

(** One pending report runs while the webhook fails and [console.error] is
    the wrapper: a request goes out and another report is pending. *)
Lemma run_next_reports_again w r monitor orig :
  (∀ k req, ∃ status,
     transport host k req = FetchResponds status ∧ response_ok status = false) →
  has_console w = true →
  console_error w = ConsoleErrorWrapper r monitor orig →
  spawned w ≠ [] →
  has_console (run_next host w) = true
  ∧ console_error (run_next host w) = ConsoleErrorWrapper r monitor orig
  ∧ spawned (run_next host w) ≠ []
  ∧ length (http_log (run_next host w)) = S (length (http_log w)).
Proof.
  intros Hfail Hc Hce Hpending. unfold run_next.
  destruct (spawned w) as [|c rest] eqn:Hs; [congruence|].
  set (v := set_spawned rest w).
  destruct (Hfail (length (http_log v))
              (request_of host (call_monitor c) (call_event c) (call_err c)
                 (call_errorType c) v)) as (status & Hnet & Hbad).
  destruct (report_settles host (call_monitor c) (call_event c) (call_err c)
              (call_errorType c) v Hc)
    as (w' & Hrun & Hlog & Hslots & (_ & _ & _ & Hc')).
  destruct (failed_report_is_reported host (call_monitor c) (call_event c)
              (call_err c) (call_errorType c) v r monitor orig status
              Hc Hce Hnet Hbad) as (more & e & Hspawned).
  rewrite Hrun in *. cbn [snd] in *.
  injection Hslots as _ _ Hce' _. subst v. cbn in Hc', Hce', Hlog, Hspawned.
  split; [congruence|]. split; [congruence|]. split.
  - rewrite Hspawned. intros Hnil.
    apply app_eq_nil in Hnil as [_ Hnil].
    apply app_eq_nil in Hnil as [_ Hnil]. discriminate.
  - rewrite Hlog, length_app. cbn. lia.
Qed.
End Feedback.

(** X1.  While the webhook keeps answering outside 2xx and [console.error]
    is the wrapper of a started monitor, every pending report that runs sends
    one request and leaves another report pending: the reports never end. *)
Theorem failing_webhook_is_reported_forever :
  ∀ (host : Host) (w : World) (r : nat) (monitor : Reporter) (orig : Fn),
    (∀ k req, ∃ status,
       transport host k req = FetchResponds status
       ∧ response_ok status = false) →
    has_console w = true →
    console_error w = ConsoleErrorWrapper r monitor orig →
    spawned w ≠ [] →
    ∀ n, spawned (Nat.iter n (run_next host) w) ≠ []
         ∧ length (http_log (Nat.iter n (run_next host) w))
           = (length (http_log w) + n)%nat.
Proof.
  intros host w r monitor orig Hfail Hc Hce Hpending n.
  assert (has_console (Nat.iter n (run_next host) w) = true
          ∧ console_error (Nat.iter n (run_next host) w)
            = ConsoleErrorWrapper r monitor orig
          ∧ spawned (Nat.iter n (run_next host) w) ≠ []
          ∧ length (http_log (Nat.iter n (run_next host) w))
            = (length (http_log w) + n)%nat) as (_ & _ & H1 & H2);
    [|split; assumption].
  induction n as [|n (IHc & IHce & IHs & IHl)].
  - cbn. rewrite Nat.add_0_r. auto.
  - change (Nat.iter (S n) (run_next host) w)
      with (run_next host (Nat.iter n (run_next host) w)).
    destruct (run_next_reports_again host _ r monitor orig Hfail IHc IHce IHs)
      as (H1 & H2 & H3 & H4).
    split; [exact H1|]. split; [exact H2|]. split; [exact H3|].
    rewrite H4, IHl. lia.
Qed.

(** A monitor started in Node.js with the default options, a webhook that
    answers 500, and one manual report: three steps later a report is still
    pending and four requests have been sent. *)
Lemma failing_webhook_is_reported_forever_witness :
  let m := (start (new_ErrorMonitor "k" no_options) node_world).1 in
  let w := (start (new_ErrorMonitor "k" no_options) node_world).2 in
  let w1 := (reportError host_500 m "checkout" (VStr "boom") manual w).2 in
  spawned (Nat.iter 3 (run_next host_500) w1) ≠ []
  ∧ length (http_log (Nat.iter 3 (run_next host_500) w1)) = 4%nat.
Proof.
  cbv zeta.
  refine (failing_webhook_is_reported_forever host_500 _ 12
            (reporter (start (new_ErrorMonitor "k" no_options) node_world).1)
            (Native 3) _ _ _ _ 3).
  - intros k req. exists 500. split; reflexivity.
  - vm_compute. reflexivity.
  - vm_compute. reflexivity.
  - vm_compute. discriminate.
Defined.

(** The lemma on thenables at a sample function. *)
Lemma wrapFunction_thenable_without_catch_witness :
  let m := new_ErrorMonitor "k" no_options in
  let e := VError 10 "result.catch is not a function"
             (sample_stack "result.catch is not a function") in
  fn_apply (wrapFunction host_up m fn_thenable None) VUndefined [] node_world
  = (Throw e,
     set_spawned
       [{| call_monitor := reporter m; call_event := "query";
           call_err := e; call_errorType := manual |}]
       (set_next_ref 11 node_world)).
Proof.
  exact (wrapFunction_thenable_without_catch host_up
           (new_ErrorMonitor "k" no_options) fn_thenable None VUndefined []
           node_world node_world 9 eq_refl).
Defined.

(** X4.  In a runtime without a console the promise of [reportError] is
    rejected: [console.log] throws inside the [try], and the
    [console.error] of the [catch] block throws in turn. *)
Theorem reportError_rejects_without_console :
  ∀ (host : Host) (this : ErrorMonitor) (event : string) (err : Value)
    (errorType : ErrorType) (w : World),
    has_console w = false →
    ∃ r e w', reportError host this event err errorType w
              = (Normal (VPromise (PSettles r (Rejected e))), w')
              ∧ http_log w' = http_log w.
Proof.
  intros host this event err errorType w Hc.
  unfold reportError, promise_of, report, async, try_catch, report_try, bind,
    error_object, console_log, throw_new_Error, new_Error, fresh, bind,
    throw, ret.
  destruct (instanceof_Error err); cbn; rewrite Hc; cbn;
    unfold console_error_call; cbn; rewrite Hc; cbn;
    eexists _, _, _; split; reflexivity.
Qed.

Lemma reportError_rejects_without_console_witness :
  ∃ r e w', reportError host_up (new_ErrorMonitor "k" no_options) "checkout"
              (VStr "boom") manual mute_world
            = (Normal (VPromise (PSettles r (Rejected e))), w')
            ∧ http_log w' = http_log mute_world.
Proof.
  exact (reportError_rejects_without_console host_up
           (new_ErrorMonitor "k" no_options) "checkout" (VStr "boom") manual
           mute_world eq_refl).
Defined.

(** ** Stack lines: what the patterns match, and the order of the search *)

Module StringFacts.
Import Regex Frames.

Implicit Types (s p q rest : string).

Lemma str_app_cons a s t : String a s +:+ t = String a (s +:+ t).
Proof. reflexivity. Qed.
Lemma str_app_nil_l s : "" +:+ s = s.
Proof. reflexivity. Qed.
Lemma str_app_nil_r s : s +:+ "" = s.
Proof. induction s as [|a s IH]; [reflexivity|]. rewrite str_app_cons, IH. reflexivity. Qed.
Lemma str_app_assoc s t u : (s +:+ t) +:+ u = s +:+ t +:+ u.
Proof. induction s as [|a s IH]; [reflexivity|]. rewrite !str_app_cons, IH. reflexivity. Qed.

Lemma substring_app p rest : substring 0 (String.length p) (p +:+ rest) = p.
Proof.
  induction p as [|a p IH]; cbn.
  - destruct rest; reflexivity.
  - rewrite str_app_cons. cbn. rewrite IH. reflexivity.
Qed.

Lemma count_app a p q : count a (p +:+ q) = (count a p + count a q)%nat.
Proof.
  induction p as [|b p IH]; [reflexivity|]. rewrite str_app_cons. cbn.
  rewrite IH. lia.
Qed.

Lemma includes_prefix needle s :
  String.prefix needle s = true → includes needle s = true.
Proof. intros H. destruct s; cbn [includes]; rewrite H; reflexivity. Qed.

Lemma includes_app needle pre post :
  includes needle (pre +:+ needle +:+ post) = true.
Proof.
  induction pre as [|a pre IH].
  - rewrite str_app_nil_l. apply includes_prefix, prefix_correct, substring_app.
  - rewrite str_app_cons. cbn [includes]. rewrite IH.
    destruct (String.prefix needle _); reflexivity.
Qed.

End StringFacts.

(** The characters of a text. *)
Module CharFacts.
Import Regex Frames StringFacts.

Implicit Types (s t : string) (p q cs : list string) (ch : string).

Lemma text_app p q : text (p ++ q) = text p +:+ text q.
Proof.
  induction p as [|ch p IH]; [reflexivity|]. cbn [app text].
  rewrite IH, str_app_assoc. reflexivity.
Qed.

(** The first character begins with the first byte. *)
Lemma chars_cons_head a s :
  ∃ t cs, chars (String a s) = String a t :: cs.
Proof.
  cbn [chars]. destruct (chars s) as [|ch rest]; [eauto|].
  destruct (continues ch); eauto.
Qed.

Lemma chars_cons_begin a s :
  continues s = false → chars (String a s) = String a "" :: chars s.
Proof.
  intros Hs. cbn [chars]. destruct s as [|b s]; [reflexivity|].
  destruct (chars_cons_head b s) as (t & cs & ->). cbn in Hs |- *.
  rewrite Hs. reflexivity.
Qed.

Lemma chars_app s t :
  continues t = false → chars (s +:+ t) = chars s ++ chars t.
Proof.
  intros Ht. induction s as [|a s IH]; [reflexivity|].
  rewrite str_app_cons. cbn [chars]. rewrite IH.
  destruct (chars s) as [|ch rest] eqn:Hs.
  - cbn [app]. destruct t as [|b t]; [reflexivity|].
    destruct (chars_cons_head b t) as (u & cs & ->). cbn in Ht |- *.
    rewrite Ht. reflexivity.
  - cbn [app]. destruct (continues ch); reflexivity.
Qed.

Lemma text_chars s : text (chars s) = s.
Proof.
  induction s as [|a s IH]; [reflexivity|]. cbn [chars].
  destruct (chars s) as [|ch rest].
  - cbn in IH |- *. rewrite <- IH. reflexivity.
  - destruct (continues ch); cbn [text] in IH |- *; rewrite <- IH; reflexivity.
Qed.

Lemma chars_nil s : chars s = [] → s = "".
Proof.
  destruct s as [|a s]; [reflexivity|].
  destruct (chars_cons_head a s) as (t & cs & ->). discriminate.
Qed.

Lemma continues_app s t :
  s ≠ "" → continues (s +:+ t) = continues s.
Proof. destruct s; [congruence|reflexivity]. Qed.

Lemma continues_app_both s t :
  continues s = false → continues t = false → continues (s +:+ t) = false.
Proof. destruct s; [rewrite str_app_nil_l; auto|]. auto. Qed.

(** A character of a class is well formed. *)
Lemma payload_Some b x :
  payload b = Some x → (128 ≤ b)%N.
Proof.
  unfold payload. destruct (N.leb_spec 128 b); [lia|discriminate].
Qed.

Lemma code_point_begins ch n :
  code_point ch = Some n → ch ≠ "" ∧ continues ch = false.
Proof.
  unfold code_point.
  destruct ch as [|a [|b [|c [|d [|e ch]]]]]; cbn; try discriminate.
  all: intros H; split; [discriminate|]; unfold is_continuation.
  - destruct (N.ltb_spec (N_of_ascii a) 128); [|discriminate].
    destruct (N.leb_spec 128 (N_of_ascii a)); [lia|reflexivity].
  - destruct (N.leb_spec 192 (N_of_ascii a)); [|discriminate].
    destruct (N.ltb_spec (N_of_ascii a) 192); [lia|apply andb_false_r].
  - destruct (N.leb_spec 224 (N_of_ascii a)); [|discriminate].
    destruct (N.ltb_spec (N_of_ascii a) 192); [lia|apply andb_false_r].
  - destruct (N.leb_spec 240 (N_of_ascii a)); [|discriminate].
    destruct (N.ltb_spec (N_of_ascii a) 192); [lia|apply andb_false_r].
Qed.

Lemma in_class_code_point c ch :
  in_class c ch = true → ∃ n, code_point ch = Some n.
Proof. unfold in_class. destruct (code_point ch); [eauto|discriminate]. Qed.

Lemma in_class_begins c ch :
  in_class c ch = true → ch ≠ "" ∧ continues ch = false.
Proof.
  intros (n & Hn)%in_class_code_point. eapply code_point_begins, Hn.
Qed.

Lemma all_in_begins c s : all_in c s = true → continues s = false.
Proof.
  unfold all_in. destruct s as [|a s]; [reflexivity|].
  destruct (chars_cons_head a s) as (t & cs & ->). cbn [forallb].
  intros [H _]%andb_true_iff. apply in_class_begins in H as [_ H]. exact H.
Qed.

Lemma all_in_nonempty c s : s ≠ "" → all_in c s = true →
  ∃ ch cs, chars s = ch :: cs ∧ in_class c ch = true
           ∧ forallb (in_class c) cs = true.
Proof.
  unfold all_in. destruct (chars s) as [|ch cs] eqn:E.
  - apply chars_nil in E. congruence.
  - cbn. intros _ [H1 H2]%andb_true_iff. eauto.
Qed.

(** An ASCII byte occurs in a character only as that character. *)
Lemma code_point_count a ch n :
  code_point ch = Some n → (N_of_ascii a < 128)%N → ch ≠ String a "" →
  count a ch = 0%nat.
Proof.
  unfold code_point. intros H Ha Hne.
  assert (∀ b, (128 ≤ N_of_ascii b)%N → Ascii.eqb a b = false) as Hhigh.
  { intros b Hb. apply Ascii.eqb_neq. intros <-. lia. }
  destruct ch as [|x [|y [|z [|u [|v ch]]]]]; cbn in H |- *; try discriminate.
  - destruct (Ascii.eqb a x) eqn:E; [|reflexivity].
    apply Ascii.eqb_eq in E as <-. congruence.
  - destruct (N.leb_spec 192 (N_of_ascii x)); [|discriminate]. cbn in H.
    destruct (N.ltb (N_of_ascii x) 224); [|discriminate].
    destruct (payload (N_of_ascii y)) eqn:Hy; [|discriminate].
    apply payload_Some in Hy.
    rewrite !Hhigh by lia. reflexivity.
  - destruct (N.leb_spec 224 (N_of_ascii x)); [|discriminate]. cbn in H.
    destruct (N.ltb (N_of_ascii x) 240); [|discriminate].
    destruct (payload (N_of_ascii y)) eqn:Hy; [|discriminate].
    destruct (payload (N_of_ascii z)) eqn:Hz; [|discriminate].
    apply payload_Some in Hy, Hz.
    rewrite !Hhigh by lia. reflexivity.
  - destruct (N.leb_spec 240 (N_of_ascii x)); [|discriminate]. cbn in H.
    destruct (N.ltb (N_of_ascii x) 248); [|discriminate].
    destruct (payload (N_of_ascii y)) eqn:Hy; [|discriminate].
    destruct (payload (N_of_ascii z)) eqn:Hz; [|discriminate].
    destruct (payload (N_of_ascii u)) eqn:Hu; [|discriminate].
    apply payload_Some in Hy, Hz, Hu.
    rewrite !Hhigh by lia. reflexivity.
Qed.

Lemma forallb_count c a p :
  (N_of_ascii a < 128)%N → in_class c (String a "") = false →
  forallb (in_class c) p = true → count a (text p) = 0%nat.
Proof.
  intros Ha Hc. induction p as [|ch p IH]; [reflexivity|]. cbn [forallb text].
  intros [Hch Hp]%andb_true_iff. rewrite count_app, (IH Hp), Nat.add_0_r.
  destruct (in_class_code_point c ch Hch) as (n & Hn).
  apply (code_point_count a ch n Hn Ha). intros ->. congruence.
Qed.

Lemma all_in_count c a s :
  (N_of_ascii a < 128)%N → in_class c (String a "") = false →
  all_in c s = true → count a s = 0%nat.
Proof.
  intros Ha Hc Hs. rewrite <- (text_chars s). eapply forallb_count; eassumption.
Qed.

(** Digits. *)
Lemma digit_is_dot ch : in_class Digit ch = true → in_class Dot ch = true.
Proof.
  unfold in_class. destruct (code_point ch) as [n|]; [|discriminate].
  intros [H1 H2]%andb_true_iff. apply N.leb_le in H1, H2.
  unfold line_terminator.
  destruct (N.eqb_spec n 10), (N.eqb_spec n 13), (N.eqb_spec n 8232),
    (N.eqb_spec n 8233); try lia; reflexivity.
Qed.

Lemma digits_are_dots p :
  forallb (in_class Digit) p = true → forallb (in_class Dot) p = true.
Proof.
  induction p as [|ch p IH]; [reflexivity|]. cbn.
  intros [H1 H2]%andb_true_iff. rewrite (digit_is_dot ch H1), (IH H2).
  reflexivity.
Qed.

Lemma at_least_Some m n x : at_least m n = Some x → x = n ∧ (m ≤ n)%N.
Proof.
  unfold at_least. destruct (N.leb_spec m n); [|discriminate].
  intros [= <-]. auto.
Qed.

Lemma digit_single ch :
  in_class Digit ch = true → ∃ a, ch = String a "".
Proof.
  unfold in_class. destruct (code_point ch) as [n|] eqn:Hn; [|discriminate].
  intros [_ Hd]%andb_true_iff. apply N.leb_le in Hd. revert Hn.
  unfold code_point.
  destruct ch as [|x [|y [|z [|u [|v ch]]]]]; cbn; try discriminate; [eauto| | |].
  - destruct (_ && _); [|discriminate].
    destruct (payload (N_of_ascii y)) as [py|]; [|discriminate]. cbn.
    intros [-> ?]%at_least_Some. lia.
  - destruct (_ && _); [|discriminate].
    destruct (payload (N_of_ascii y)) as [py|]; [|discriminate].
    destruct (payload (N_of_ascii z)) as [pz|]; [|discriminate]. cbn.
    intros [-> ?]%at_least_Some. lia.
  - destruct (_ && _); [|discriminate].
    destruct (payload (N_of_ascii y)) as [py|]; [|discriminate].
    destruct (payload (N_of_ascii z)) as [pz|]; [|discriminate].
    destruct (payload (N_of_ascii u)) as [pu|]; [|discriminate]. cbn.
    intros [-> ?]%at_least_Some. lia.
Qed.

(** A run of digits is the list of characters of its text. *)
Lemma chars_text_digits p :
  forallb (in_class Digit) p = true → chars (text p) = p.
Proof.
  induction p as [|ch p IH]; [reflexivity|]. cbn [forallb text].
  intros [Hch Hp]%andb_true_iff.
  destruct (digit_single ch Hch) as (a & ->).
  rewrite str_app_cons, str_app_nil_l, chars_cons_begin, (IH Hp); [reflexivity|].
  destruct p as [|ch' p]; [reflexivity|]. cbn [forallb text] in Hp |- *.
  apply andb_true_iff in Hp as [Hch' _].
  apply in_class_begins in Hch' as [Hne Hc].
  rewrite continues_app by exact Hne. exact Hc.
Qed.

Lemma text_nil_digits p :
  forallb (in_class Digit) p = true → text p = "" → p = [].
Proof.
  destruct p as [|ch p]; [reflexivity|]. cbn [forallb text].
  intros [Hch _]%andb_true_iff. apply in_class_begins in Hch as [Hne _].
  destruct ch; [congruence|discriminate].
Qed.

End CharFacts.

(** What the matcher finds is a match. *)
Module RegexFacts.
Import Regex Frames.

Section Search.
Context {R : Type}.
Implicit Types (k : list string → option R) (s p q rest : list string).

Lemma star_greedy_sound c s k x :
  star_greedy c s k = Some x →
  ∃ p rest, s = p ++ rest ∧ forallb (in_class c) p = true ∧ k rest = Some x.
Proof.
  induction s as [|ch s IH]; cbn.
  - intros H. exists [], []. auto.
  - destruct (in_class c ch) eqn:Hch.
    + destruct (star_greedy c s k) as [y|] eqn:E.
      * intros [= <-]. destruct (IH eq_refl) as (p & rest & -> & Hp & Hk).
        exists (ch :: p), rest. cbn. rewrite Hch, Hp. auto.
      * intros H. exists [], (ch :: s). auto.
    + intros H. exists [], (ch :: s). auto.
Qed.

Lemma star_lazy_sound c s k x :
  star_lazy c s k = Some x →
  ∃ p rest, s = p ++ rest ∧ forallb (in_class c) p = true ∧ k rest = Some x.
Proof.
  induction s as [|ch s IH]; cbn.
  - destruct (k []) eqn:E; [|discriminate]. intros [= <-].
    exists [], []. auto.
  - destruct (k (ch :: s)) eqn:E.
    + intros [= <-]. exists [], (ch :: s). auto.
    + destruct (in_class c ch) eqn:Hch; [|discriminate].
      intros H. destruct (IH H) as (p & rest & -> & Hp & Hk).
      exists (ch :: p), rest. cbn. rewrite Hch, Hp. auto.
Qed.

End Search.

Lemma rmatch_sound {R} r :
  ∀ s caps (k : list string → list string → option R) x,
    rmatch r s caps k = Some x →
    ∃ rest caps', Matches r s rest caps caps' ∧ k rest caps' = Some x.
Proof.
  induction r as [a|c|c|c|r IH|r1 IH1 r2 IH2]; intros s caps k x; cbn.
  - destruct s as [|ch s]; [discriminate|].
    destruct (String.eqb ch (String a "")) eqn:E; [|discriminate].
    apply String.eqb_eq in E as ->. intros H.
    eexists _, _. split; [constructor|exact H].
  - intros H. apply star_greedy_sound in H as (p & rest & -> & Hp & Hk).
    eexists _, _. split; [constructor; exact Hp|exact Hk].
  - intros H. apply star_lazy_sound in H as (p & rest & -> & Hp & Hk).
    eexists _, _. split; [constructor; exact Hp|exact Hk].
  - destruct s as [|ch s]; [discriminate|].
    destruct (in_class c ch) eqn:Hch; [|discriminate].
    intros H. apply star_greedy_sound in H as (p & rest & -> & Hp & Hk).
    exists rest, caps. split; [|exact Hk].
    apply (M_Plus c (ch :: p) rest caps); [cbn; rewrite Hch, Hp; reflexivity|discriminate].
  - intros H. apply IH in H as (rest & caps' & HM & Hk).
    eexists _, _. split; [constructor; exact HM|exact Hk].
  - intros H. apply IH1 in H as (mid & caps1 & HM1 & H).
    apply IH2 in H as (rest & caps2 & HM2 & Hk).
    eexists _, _. split; [econstructor; eassumption|exact Hk].
Qed.

Lemma search_sound r s m :
  search r s = Some m →
  ∃ pre s' rest caps,
    s = pre ++ s' ∧ Matches r s' rest [] caps ∧ m = consumed s' rest :: caps.
Proof.
  induction s as [|ch s IH]; cbn.
  - destruct (rmatch r [] [] _) eqn:E; [|discriminate]. intros [= <-].
    apply rmatch_sound in E as (rest & caps & HM & [= <-]).
    exists [], [], rest, caps. auto.
  - destruct (rmatch r (ch :: s) [] _) eqn:E.
    + intros [= <-]. apply rmatch_sound in E as (rest & caps & HM & [= <-]).
      exists [], (ch :: s), rest, caps. auto.
    + intros H. destruct (IH H) as (pre & s' & rest & caps & -> & HM & ->).
      exists (ch :: pre), s', rest, caps. auto.
Qed.

Lemma js_match_sound r l m :
  js_match r l = Some m →
  ∃ pre s' rest caps,
    l = text pre +:+ text s'
    ∧ Matches r s' rest [] caps ∧ m = consumed s' rest :: caps.
Proof.
  unfold js_match. intros (pre & s' & rest & caps & Hl & HM & ->)%search_sound.
  exists pre, s', rest, caps. split; [|auto].
  rewrite <- CharFacts.text_app, <- Hl, CharFacts.text_chars. reflexivity.
Qed.

End RegexFacts.

Module ShapeFacts.
Import Regex Stack Frames StringFacts CharFacts RegexFacts.

Lemma consumed_app p rest : consumed (p ++ rest) rest = text p.
Proof.
  unfold consumed. rewrite length_app.
  replace (length p + length rest - length rest)%nat with (length p) by lia.
  rewrite take_app_length. reflexivity.
Qed.

Lemma consumed_all s : consumed s [] = text s.
Proof.
  pose proof (consumed_app s []) as H. rewrite app_nil_r in H. exact H.
Qed.

Ltac inv_matches :=
  repeat match goal with
  | H : Matches (Cat _ _) _ _ _ _ |- _ => inversion H; subst; clear H
  | H : Matches (Group _) _ _ _ _ |- _ => inversion H; subst; clear H
  | H : Matches (Lit _) _ _ _ _ |- _ => inversion H; subst; clear H
  | H : Matches (Star _) _ _ _ _ |- _ => inversion H; subst; clear H
  | H : Matches (StarLazy _) _ _ _ _ |- _ => inversion H; subst; clear H
  | H : Matches (Plus _) _ _ _ _ |- _ => inversion H; subst; clear H
  end.

(** The characters that the first pattern matches. *)
Lemma call_site_shape s rest caps :
  Matches re_call_site s rest [] caps →
  ∃ ws sp1 fn sp2 file ln cl,
    s = ws ++ ["a"; "t"] ++ sp1 ++ fn ++ sp2 ++ ["("] ++ file ++ [":"] ++ ln
        ++ [":"] ++ cl ++ [")"] ++ rest
    ∧ caps = [text fn; text file; text ln; text cl]
    ∧ forallb (in_class Space) sp1 = true ∧ sp1 ≠ []
    ∧ forallb (in_class Dot) file = true
    ∧ forallb (in_class Digit) ln = true ∧ ln ≠ []
    ∧ forallb (in_class Digit) cl = true ∧ cl ≠ [].
Proof.
  unfold re_call_site, cat. intros H. inv_matches.
  rewrite !consumed_app.
  eexists _, _, _, _, _, _, _. split; [reflexivity|].
  cbn. repeat split; assumption.
Qed.

Lemma location_shape s rest caps :
  Matches re_location s rest [] caps →
  ∃ ws sp1 file ln cl,
    s = ws ++ ["a"; "t"] ++ sp1 ++ file ++ [":"] ++ ln ++ [":"] ++ cl ++ rest
    ∧ caps = [text file; text ln; text cl]
    ∧ forallb (in_class Space) sp1 = true ∧ sp1 ≠ []
    ∧ forallb (in_class Dot) file = true
    ∧ forallb (in_class Digit) ln = true ∧ ln ≠ []
    ∧ forallb (in_class Digit) cl = true ∧ cl ≠ [].
Proof.
  unfold re_location, cat. intros H. inv_matches.
  rewrite !consumed_app.
  eexists _, _, _, _, _. split; [reflexivity|].
  cbn. repeat split; assumption.
Qed.

End ShapeFacts.

(** The order of the search. *)
Module SearchFacts.
Import Regex Frames StringFacts CharFacts RegexFacts ShapeFacts.

Section Search.
Context {R : Type}.
Implicit Types (k : list string → option R) (s p q rest : list string).

(** A greedy repetition takes the whole run when what follows matches. *)
Lemma star_greedy_run c p rest k x :
  forallb (in_class c) p = true → begins_outside c rest = true →
  k rest = Some x →
  star_greedy c (p ++ rest) k = Some x.
Proof.
  intros Hp Hrest Hk. induction p as [|ch p IH].
  - destruct rest as [|b rest]; cbn; [exact Hk|].
    cbn in Hrest. apply negb_true_iff in Hrest. rewrite Hrest. exact Hk.
  - cbn in Hp. apply andb_true_iff in Hp as [Hch Hp].
    cbn. rewrite Hch, (IH Hp). reflexivity.
Qed.

Lemma star_greedy_fails c s k :
  (∀ p q, s = p ++ q → k q = None) → star_greedy c s k = None.
Proof.
  induction s as [|ch s IH]; intros Hk; cbn.
  - apply (Hk [] []). reflexivity.
  - rewrite IH.
    + destruct (in_class c ch); apply (Hk [] (ch :: s)); reflexivity.
    + intros p q ->. apply (Hk (ch :: p) q). reflexivity.
Qed.

(** A greedy repetition whose run reaches the end of the text gives back
    characters until what follows matches: the last place where it does. *)
Lemma star_greedy_backtracks c p q k x :
  forallb (in_class c) p = true → forallb (in_class c) q = true →
  (∀ q1 q2, q = q1 ++ q2 → q1 ≠ [] → k q2 = None) →
  k q = Some x →
  star_greedy c (p ++ q) k = Some x.
Proof.
  intros Hp Hq Hfail Hk. induction p as [|ch p IH].
  - destruct q as [|b q]; cbn; [exact Hk|].
    cbn in Hq. apply andb_true_iff in Hq as [Hb Hq]. rewrite Hb.
    rewrite star_greedy_fails; [exact Hk|].
    intros q1 q2 ->. apply (Hfail (b :: q1) q2); [reflexivity|discriminate].
  - cbn in Hp. apply andb_true_iff in Hp as [Hch Hp].
    cbn. rewrite Hch, (IH Hp). reflexivity.
Qed.

(** A lazy repetition stops at the first place where what follows
    matches. *)
Lemma star_lazy_first c p rest k x :
  forallb (in_class c) p = true →
  (∀ p1 p2, p = p1 ++ p2 → p2 ≠ [] → k (p2 ++ rest) = None) →
  k rest = Some x →
  star_lazy c (p ++ rest) k = Some x.
Proof.
  intros Hp Hfail Hk. induction p as [|ch p IH].
  - destruct rest; cbn; rewrite Hk; reflexivity.
  - cbn in Hp. apply andb_true_iff in Hp as [Hch Hp]. cbn.
    assert (k (ch :: p ++ rest) = None) as ->
      by (apply (Hfail [] (ch :: p)); [reflexivity|discriminate]).
    rewrite Hch. apply IH; [exact Hp|].
    intros p1 p2 -> Hne. apply (Hfail (ch :: p1) p2); [reflexivity|exact Hne].
Qed.

End Search.

Section Steps.
Context {R : Type}.
Implicit Types (k : list string → list string → option R)
  (s p q rest : list string).

Lemma rmatch_cat r1 r2 s caps k :
  rmatch (Cat r1 r2) s caps k
  = rmatch r1 s caps (λ rest caps', rmatch r2 rest caps' k).
Proof. reflexivity. Qed.

Lemma rmatch_group r s caps k :
  rmatch (Group r) s caps k
  = rmatch r s caps (λ rest caps', k rest (caps' ++ [consumed s rest])).
Proof. reflexivity. Qed.

Lemma rmatch_lit a s caps k :
  rmatch (Lit a) (String a "" :: s) caps k = k s caps.
Proof. cbn [rmatch]. rewrite String.eqb_refl. reflexivity. Qed.

Lemma rmatch_star_run c p rest caps k x :
  forallb (in_class c) p = true → begins_outside c rest = true →
  k rest caps = Some x →
  rmatch (Star c) (p ++ rest) caps k = Some x.
Proof. intros. cbn. apply (star_greedy_run c p rest); assumption. Qed.

Lemma rmatch_plus_run c p rest caps k x :
  forallb (in_class c) p = true → p ≠ [] → begins_outside c rest = true →
  k rest caps = Some x →
  rmatch (Plus c) (p ++ rest) caps k = Some x.
Proof.
  intros Hp Hne Hrest Hk. destruct p as [|ch p]; [congruence|].
  cbn in Hp. apply andb_true_iff in Hp as [Hch Hp].
  cbn. rewrite Hch.
  apply (star_greedy_run c p rest); assumption.
Qed.

Lemma rmatch_plus_end c p caps k x :
  forallb (in_class c) p = true → p ≠ [] → k [] caps = Some x →
  rmatch (Plus c) p caps k = Some x.
Proof.
  intros Hp Hne Hk.
  pose proof (rmatch_plus_run c p [] caps k x Hp Hne eq_refl Hk) as H.
  rewrite app_nil_r in H. exact H.
Qed.

Lemma rmatch_plus_outside c s caps k :
  begins_outside c s = true → rmatch (Plus c) s caps k = None.
Proof.
  destruct s as [|ch s]; cbn; [reflexivity|].
  intros ->%negb_true_iff. reflexivity.
Qed.

Lemma rmatch_star_backtracks c p q caps k x :
  forallb (in_class c) p = true → forallb (in_class c) q = true →
  (∀ q1 q2, q = q1 ++ q2 → q1 ≠ [] → k q2 caps = None) →
  k q caps = Some x →
  rmatch (Star c) (p ++ q) caps k = Some x.
Proof. intros. cbn. apply (star_greedy_backtracks c p q); assumption. Qed.

Lemma rmatch_lazy_first c p rest caps k x :
  forallb (in_class c) p = true →
  (∀ p1 p2, p = p1 ++ p2 → p2 ≠ [] → k (p2 ++ rest) caps = None) →
  k rest caps = Some x →
  rmatch (StarLazy c) (p ++ rest) caps k = Some x.
Proof. intros. cbn. apply (star_lazy_first c p rest); assumption. Qed.

End Steps.

Lemma search_here r s m :
  rmatch r s [] (λ rest caps, Some (consumed s rest :: caps)) = Some m →
  search r s = Some m.
Proof. intros H. destruct s; cbn [search]; rewrite H; reflexivity. Qed.

Lemma forallb_suffix {A} (f : A → bool) (p q : list A) :
  forallb f (p ++ q) = true → forallb f q = true.
Proof. rewrite forallb_app. intros [_ H]%andb_true_iff. exact H. Qed.

End SearchFacts.

Module FrameFacts.
Import Regex Stack Frames StringFacts CharFacts RegexFacts ShapeFacts
  SearchFacts StackFacts.

Lemma is_number_spec s :
  is_number s = true → s ≠ "" ∧ all_in Digit s = true.
Proof.
  unfold is_number. intros [H1 H2]%andb_true_iff. split; [|exact H2].
  intros ->. discriminate.
Qed.

Lemma is_number_chars s :
  is_number s = true →
  forallb (in_class Digit) (chars s) = true ∧ chars s ≠ []
  ∧ continues s = false.
Proof.
  intros [Hne Hd]%is_number_spec. split; [exact Hd|]. split.
  - intros H%chars_nil. congruence.
  - eapply all_in_begins, Hd.
Qed.

Lemma is_number_text p :
  forallb (in_class Digit) p = true → p ≠ [] → is_number (text p) = true.
Proof.
  intros Hp Hne. unfold is_number, all_in.
  rewrite chars_text_digits by exact Hp. rewrite Hp, andb_true_r.
  apply negb_true_iff, String.eqb_neq. intros H.
  apply (text_nil_digits p Hp) in H. congruence.
Qed.

(** The end of the first pattern, from the colon after the file on, needs
    two colons. *)
Lemma call_site_tail_needs_colons {R} s caps
    (k : list string → list string → option R) :
  (count ":" (text s) < 2)%nat →
  rmatch (cat [Lit ":"; Group (Plus Digit); Lit ":"; Group (Plus Digit)]
            (Lit ")")) s caps k = None.
Proof.
  intros Hs. destruct (rmatch _ s caps k) as [x|] eqn:E; [|reflexivity].
  exfalso. apply rmatch_sound in E as (rest & caps' & HM & _).
  unfold cat in HM. inv_matches.
  cbn [text] in Hs. rewrite !text_app in Hs. cbn [text] in Hs.
  rewrite !count_app in Hs. cbn in Hs. lia.
Qed.

Lemma location_tail_needs_colons {R} s caps
    (k : list string → list string → option R) :
  (count ":" (text s) < 2)%nat →
  rmatch (cat [Lit ":"; Group (Plus Digit); Lit ":"] (Group (Plus Digit)))
    s caps k = None.
Proof.
  intros Hs. destruct (rmatch _ s caps k) as [x|] eqn:E; [|reflexivity].
  exfalso. apply rmatch_sound in E as (rest & caps' & HM & _).
  unfold cat in HM. inv_matches.
  cbn [text] in Hs. rewrite !text_app in Hs. cbn [text] in Hs.
  rewrite !count_app in Hs. cbn in Hs. lia.
Qed.

Lemma digits_no_colon p :
  forallb (in_class Digit) p = true → count ":" (text p) = 0%nat.
Proof. apply forallb_count; [cbn; lia|reflexivity]. Qed.

Lemma nonempty_prefix_of_cons {A} (q1 q2 : list A) a s :
  a :: s = q1 ++ q2 → q1 ≠ [] → ∃ q1', q1 = a :: q1' ∧ s = q1' ++ q2.
Proof.
  destruct q1 as [|b q1]; [congruence|]. cbn.
  intros [= -> ->] _. eauto.
Qed.

Lemma none_in_begins_outside c p q :
  forallb (λ ch, negb (in_class c ch)) p = true → p ≠ [] →
  begins_outside c (p ++ q) = true.
Proof.
  destruct p as [|ch p]; [congruence|]. cbn.
  intros [H _]%andb_true_iff _. exact H.
Qed.

(** The characters of the two forms of a frame. *)
Lemma chars_call_site_line indent fn file ln cl :
  fn ≠ "" → all_in Dot fn = true → all_in Dot file = true →
  is_number ln = true → is_number cl = true →
  chars (call_site_line indent fn file ln cl)
  = chars indent ++ ["a"; "t"; " "] ++ chars fn ++ [" "; "("] ++ chars file
    ++ [":"] ++ chars ln ++ [":"] ++ chars cl ++ [")"].
Proof.
  intros Hfn Hfnd Hfile (_ & _ & Hln)%is_number_chars
    (_ & _ & Hcl)%is_number_chars.
  apply all_in_begins in Hfnd, Hfile.
  unfold call_site_line.
  rewrite (chars_app indent) by reflexivity.
  rewrite (chars_app "at ") by (rewrite continues_app; assumption).
  rewrite (chars_app fn) by reflexivity.
  rewrite (chars_app " (")
    by (apply continues_app_both; [assumption|reflexivity]).
  rewrite (chars_app file) by reflexivity.
  rewrite (chars_app ":")
    by (apply continues_app_both; [assumption|reflexivity]).
  rewrite (chars_app ln) by reflexivity.
  rewrite (chars_app ":")
    by (apply continues_app_both; [assumption|reflexivity]).
  rewrite (chars_app cl) by reflexivity.
  reflexivity.
Qed.

Lemma chars_location_line indent file ln cl :
  all_in Dot file = true → is_number ln = true → is_number cl = true →
  chars (location_line indent file ln cl)
  = chars indent ++ ["a"; "t"; " "] ++ chars file
    ++ [":"] ++ chars ln ++ [":"] ++ chars cl.
Proof.
  intros Hfile (_ & _ & Hln)%is_number_chars (_ & _ & Hcl)%is_number_chars.
  apply all_in_begins in Hfile.
  unfold location_line.
  rewrite (chars_app indent) by reflexivity.
  rewrite (chars_app "at ")
    by (apply continues_app_both; [assumption|reflexivity]).
  rewrite (chars_app file) by reflexivity.
  rewrite (chars_app ":")
    by (apply continues_app_both; [assumption|reflexivity]).
  rewrite (chars_app ln) by reflexivity.
  rewrite (chars_app ":") by assumption.
  reflexivity.
Qed.

Lemma search_call_site ws fnc filec lnc clc :
  forallb (in_class Space) ws = true →
  fnc ≠ [] → forallb (in_class Dot) fnc = true →
  forallb (λ ch, negb (in_class Space ch)) fnc = true →
  forallb (in_class Dot) filec = true →
  forallb (in_class Digit) lnc = true → lnc ≠ [] →
  forallb (in_class Digit) clc = true → clc ≠ [] →
  ∃ m0, search re_call_site
          (ws ++ ["a"; "t"; " "] ++ fnc ++ [" "; "("] ++ filec
           ++ [":"] ++ lnc ++ [":"] ++ clc ++ [")"])
        = Some [m0; text fnc; text filec; text lnc; text clc].
Proof.
  intros Hws Hfnc Hfnd Hfns Hfile Hlnd Hln Hcld Hcl.
  eexists. apply search_here.
  unfold re_call_site, cat.
  rewrite rmatch_cat. apply rmatch_star_run; [exact Hws|reflexivity|].
  cbn [app].
  rewrite rmatch_cat, rmatch_lit, rmatch_cat, rmatch_lit, rmatch_cat.
  apply (rmatch_plus_run Space [" "]);
    [reflexivity|discriminate| |].
  { apply none_in_begins_outside; assumption. }
  rewrite rmatch_cat, rmatch_group.
  apply rmatch_lazy_first; [exact Hfnd| |].
  { intros p1 p2 -> Hp2. rewrite rmatch_cat. apply rmatch_plus_outside.
    apply forallb_suffix in Hfns.
    apply none_in_begins_outside; assumption. }
  rewrite consumed_app. cbn [app].
  rewrite rmatch_cat.
  apply (rmatch_plus_run Space [" "]); [reflexivity|discriminate|reflexivity|].
  rewrite rmatch_cat, rmatch_lit, rmatch_cat, rmatch_group.
  assert (forallb (in_class Dot) (":" :: lnc ++ ":" :: clc ++ [")"]) = true)
    as Hq.
  { cbn [forallb]. rewrite forallb_app. cbn [forallb]. rewrite forallb_app.
    rewrite !digits_are_dots by assumption. reflexivity. }
  apply rmatch_star_backtracks; [exact Hfile|exact Hq| |].
  { intros q1 q2 Hq12 Hq1.
    apply nonempty_prefix_of_cons in Hq12 as (q1' & -> & Hq12); [|exact Hq1].
    apply (call_site_tail_needs_colons q2).
    assert (count ":" (text (lnc ++ ":" :: clc ++ [")"])) = 1%nat) as Hc.
    { rewrite text_app, count_app. cbn [text].
      rewrite count_app, text_app, count_app.
      rewrite !digits_no_colon by assumption. reflexivity. }
    rewrite Hq12, text_app, count_app in Hc. lia. }
  rewrite consumed_app. cbn [app].
  rewrite rmatch_cat, rmatch_lit, rmatch_cat, rmatch_group.
  apply rmatch_plus_run; [exact Hlnd|exact Hln|reflexivity|].
  rewrite consumed_app. cbn [app].
  rewrite rmatch_cat, rmatch_lit, rmatch_cat, rmatch_group.
  apply rmatch_plus_run; [exact Hcld|exact Hcl|reflexivity|].
  rewrite consumed_app. cbn [app].
  rewrite rmatch_lit. reflexivity.
Qed.

Lemma js_match_call_site indent fn file ln cl :
  all_in Space indent = true →
  fn ≠ "" → all_in Dot fn = true → none_in Space fn = true →
  all_in Dot file = true → is_number ln = true → is_number cl = true →
  ∃ m0, js_match re_call_site (call_site_line indent fn file ln cl)
        = Some [m0; fn; file; ln; cl].
Proof.
  intros Hindent Hfn Hfnd Hfns Hfile Hln Hcl.
  unfold js_match.
  rewrite chars_call_site_line by assumption.
  apply is_number_chars in Hln as (Hlnd & Hln & _), Hcl as (Hcld & Hcl & _).
  assert (chars fn ≠ []) as Hfnc by (intros H%chars_nil; congruence).
  destruct (search_call_site (chars indent) (chars fn) (chars file) (chars ln)
              (chars cl)) as (m0 & ->); try assumption.
  rewrite !text_chars. eauto.
Qed.

Lemma js_match_call_site_needs_paren s m :
  js_match re_call_site s = Some m → (0 < count "(" s)%nat.
Proof.
  intros H. apply js_match_sound in H as (pre & s' & rest & caps & -> & HM & _).
  apply call_site_shape in HM as (ws & sp1 & fn & sp2 & file & ln & cl & -> & _).
  rewrite !text_app, !count_app. change (text ["("]) with "(". cbn [count].
  rewrite Ascii.eqb_refl. lia.
Qed.

Lemma begins_outside_app c p q :
  begins_outside c p = true → begins_outside c q = true →
  begins_outside c (p ++ q) = true.
Proof. destruct p; cbn; auto. Qed.

Lemma search_location ws filec lnc clc :
  forallb (in_class Space) ws = true →
  forallb (in_class Dot) filec = true → begins_outside Space filec = true →
  forallb (in_class Digit) lnc = true → lnc ≠ [] →
  forallb (in_class Digit) clc = true → clc ≠ [] →
  ∃ m0, search re_location
          (ws ++ ["a"; "t"; " "] ++ filec ++ [":"] ++ lnc ++ [":"] ++ clc)
        = Some [m0; text filec; text lnc; text clc].
Proof.
  intros Hws Hfile Hstart Hlnd Hln Hcld Hcl.
  eexists. apply search_here.
  unfold re_location, cat.
  rewrite rmatch_cat. apply rmatch_star_run; [exact Hws|reflexivity|].
  cbn [app].
  rewrite rmatch_cat, rmatch_lit, rmatch_cat, rmatch_lit, rmatch_cat.
  apply (rmatch_plus_run Space [" "]); [reflexivity|discriminate| |].
  { apply begins_outside_app; [exact Hstart|reflexivity]. }
  rewrite rmatch_cat, rmatch_group.
  assert (forallb (in_class Dot) (":" :: lnc ++ ":" :: clc) = true) as Hq.
  { cbn [forallb]. rewrite forallb_app. cbn [forallb].
    rewrite !digits_are_dots by assumption. reflexivity. }
  apply rmatch_star_backtracks; [exact Hfile|exact Hq| |].
  { intros q1 q2 Hq12 Hq1.
    apply nonempty_prefix_of_cons in Hq12 as (q1' & -> & Hq12); [|exact Hq1].
    apply (location_tail_needs_colons q2).
    assert (count ":" (text (lnc ++ ":" :: clc)) = 1%nat) as Hc.
    { rewrite text_app, count_app. cbn [text]. rewrite count_app.
      rewrite !digits_no_colon by assumption. reflexivity. }
    rewrite Hq12, text_app, count_app in Hc. lia. }
  rewrite consumed_app. cbn [app].
  rewrite rmatch_cat, rmatch_lit, rmatch_cat, rmatch_group.
  apply rmatch_plus_run; [exact Hlnd|exact Hln|reflexivity|].
  rewrite consumed_app. cbn [app].
  rewrite rmatch_cat, rmatch_lit, rmatch_group.
  apply rmatch_plus_end; [exact Hcld|exact Hcl|].
  rewrite !consumed_all. reflexivity.
Qed.

Lemma js_match_location indent file ln cl :
  all_in Space indent = true →
  all_in Dot file = true → starts_outside Space file = true →
  is_number ln = true → is_number cl = true →
  ∃ m0, js_match re_location (location_line indent file ln cl)
        = Some [m0; file; ln; cl].
Proof.
  intros Hindent Hfile Hstart Hln Hcl.
  unfold js_match.
  rewrite chars_location_line by assumption.
  apply is_number_chars in Hln as (Hlnd & Hln & _), Hcl as (Hcld & Hcl & _).
  destruct (search_location (chars indent) (chars file) (chars ln) (chars cl))
    as (m0 & ->); try assumption.
  rewrite !text_chars. eauto.
Qed.

Lemma at_then_space_app pre sp post :
  in_class Space sp = true →
  at_then_space (pre ++ "a" :: "t" :: sp :: post) = true.
Proof.
  intros Hsp. induction pre as [|ch pre IH].
  - cbn [app at_then_space]. rewrite Hsp. reflexivity.
  - cbn [app at_then_space]. rewrite IH. apply orb_true_r.
Qed.

Lemma matches_mention_at cs sp1 pre ws rest :
  cs = pre ++ ws ++ ["a"; "t"] ++ sp1 ++ rest →
  forallb (in_class Space) sp1 = true → sp1 ≠ [] → at_then_space cs = true.
Proof.
  intros -> Hsp Hne. destruct sp1 as [|sp sp1]; [congruence|].
  cbn in Hsp. apply andb_true_iff in Hsp as [Hc _].
  rewrite app_assoc. cbn [app]. apply at_then_space_app, Hc.
Qed.

Lemma is_frame_mentions_at l : is_frame l = true → mentions_at l = true.
Proof.
  unfold is_frame, frame, scan_line, js_match, mentions_at.
  destruct (search re_call_site (chars l)) as [m|] eqn:E1.
  - intros _. apply search_sound in E1 as (pre & s' & rest & caps & -> & HM & _).
    apply call_site_shape in HM
      as (ws & sp1 & fn & sp2 & file & ln & cl & -> & _ & Hsp & Hne & _).
    eapply matches_mention_at; [reflexivity|exact Hsp|exact Hne].
  - destruct (search re_location (chars l)) as [m|] eqn:E2; [|discriminate].
    intros _. apply search_sound in E2 as (pre & s' & rest & caps & -> & HM & _).
    apply location_shape in HM
      as (ws & sp1 & file & ln & cl & -> & _ & Hsp & Hne & _).
    eapply matches_mention_at; [reflexivity|exact Hsp|exact Hne].
Qed.

Lemma includes_text pre mid post :
  includes (text mid) (text (pre ++ mid ++ post)) = true.
Proof. rewrite !text_app. apply includes_app. Qed.

(** What one line can assign. *)
Lemma scan_line_cases ci l :
  scan_line ci l = ci
  ∨ ∃ fn file ln cl,
      (scan_line ci l
       = {| functionName := fn; fileName := Some file;
            line := Some ln; col := Some cl |})
      ∧ (fn = functionName ci ∨ ∃ name, fn = Some name ∧ includes name l = true)
      ∧ is_number ln = true ∧ is_number cl = true
      ∧ includes (file +:+ ":" +:+ ln +:+ ":" +:+ cl) l = true.
Proof.
  unfold scan_line.
  destruct (js_match re_call_site l) as [m|] eqn:E1.
  - right. apply js_match_sound in E1 as (pre & s' & rest & caps & -> & HM & ->).
    rewrite <- text_app.
    apply call_site_shape in HM
      as (ws & sp1 & fn & sp2 & file & ln & cl & -> & -> & _ & _ & _
          & Hln & Hln' & Hcl & Hcl').
    exists (Some (text fn)), (text file), (text ln), (text cl).
    split; [reflexivity|]. split; [|split; [|split]].
    + right. exists (text fn). split; [reflexivity|].
      replace (pre ++ ws ++ ["a"; "t"] ++ sp1 ++ fn ++ sp2 ++ ["("] ++ file
               ++ [":"] ++ ln ++ [":"] ++ cl ++ [")"] ++ rest)
        with ((pre ++ ws ++ ["a"; "t"] ++ sp1) ++ fn
              ++ (sp2 ++ ["("] ++ file ++ [":"] ++ ln ++ [":"] ++ cl ++ [")"]
                  ++ rest))
        by (rewrite <- !app_assoc; reflexivity).
      apply includes_text.
    + apply is_number_text; assumption.
    + apply is_number_text; assumption.
    + replace (text file +:+ ":" +:+ text ln +:+ ":" +:+ text cl)
        with (text (file ++ [":"] ++ ln ++ [":"] ++ cl))
        by (rewrite !text_app; reflexivity).
      replace (pre ++ ws ++ ["a"; "t"] ++ sp1 ++ fn ++ sp2 ++ ["("] ++ file
               ++ [":"] ++ ln ++ [":"] ++ cl ++ [")"] ++ rest)
        with ((pre ++ ws ++ ["a"; "t"] ++ sp1 ++ fn ++ sp2 ++ ["("])
              ++ (file ++ [":"] ++ ln ++ [":"] ++ cl) ++ ([")"] ++ rest))
        by (rewrite <- !app_assoc; reflexivity).
      apply includes_text.
  - destruct (js_match re_location l) as [m|] eqn:E2; [|left; reflexivity].
    right. apply js_match_sound in E2 as (pre & s' & rest & caps & -> & HM & ->).
    rewrite <- text_app.
    apply location_shape in HM
      as (ws & sp1 & file & ln & cl & -> & -> & _ & _ & _
          & Hln & Hln' & Hcl & Hcl').
    exists (functionName ci), (text file), (text ln), (text cl).
    split; [reflexivity|]. split; [left; reflexivity|]. split; [|split].
    + apply is_number_text; assumption.
    + apply is_number_text; assumption.
    + replace (text file +:+ ":" +:+ text ln +:+ ":" +:+ text cl)
        with (text (file ++ [":"] ++ ln ++ [":"] ++ cl))
        by (rewrite !text_app; reflexivity).
      replace (pre ++ ws ++ ["a"; "t"] ++ sp1 ++ file
               ++ [":"] ++ ln ++ [":"] ++ cl ++ rest)
        with ((pre ++ ws ++ ["a"; "t"] ++ sp1)
              ++ (file ++ [":"] ++ ln ++ [":"] ++ cl) ++ rest)
        by (rewrite <- !app_assoc; reflexivity).
      apply includes_text.
Qed.


Lemma scan_line_well_formed lines ci l :
  l ∈ lines → well_formed lines ci → well_formed lines (scan_line ci l).
Proof.
  intros Hl (Hnone & Hfile & Hname).
  destruct (scan_line_cases ci l)
    as [->|(fn & file & ln & cl & -> & Hfn & Hln & Hcl & Hinc)];
    [exact (conj Hnone (conj Hfile Hname))|].
  split; [discriminate|]. split.
  - intros ? [= <-]. cbn. eauto 10.
  - intros name. cbn. intros ->. split; [eauto|].
    destruct Hfn as [Hfn|(name' & [= <-] & Hinc')]; [|eauto].
    symmetry in Hfn. apply Hname in Hfn as [_ H]. exact H.
Qed.

Lemma scan_well_formed lines rest : ∀ ci,
  rest ⊆ lines → well_formed lines ci → well_formed lines (scan ci rest).
Proof.
  induction rest as [|l rest IH]; intros ci Hsub Hwf; cbn; [exact Hwf|].
  assert (well_formed lines (scan_line ci l)) as Hwf'.
  { apply scan_line_well_formed; [apply Hsub; left|exact Hwf]. }
  destruct (meaningful (scan_line ci l)); [exact Hwf'|].
  apply IH; [|exact Hwf']. intros x Hx. apply Hsub. right. exact Hx.
Qed.

Lemma scan_line_location_only ci l :
  is_call_site l = false → functionName (scan_line ci l) = functionName ci.
Proof.
  unfold is_call_site, scan_line.
  destruct (js_match re_call_site l); [discriminate|].
  destruct (js_match re_location l); reflexivity.
Qed.

Lemma foldl_location_only mid : ∀ ci,
  (∀ l, l ∈ mid → is_call_site l = false) →
  functionName (foldl scan_line ci mid) = functionName ci.
Proof.
  induction mid as [|l mid IH]; intros ci Hmid; cbn; [reflexivity|].
  rewrite IH by (intros l' Hl'; apply Hmid; right; exact Hl').
  apply scan_line_location_only, Hmid. left.
Qed.

(** Lines of a text. *)
Lemma split_lines_go_first cur first rest :
  count "010" first = 0%nat →
  ∃ x, split_lines_go cur (first +:+ nl +:+ rest) = x :: split_lines rest.
Proof.
  revert cur. induction first as [|a first IH]; intros cur Hc.
  - eexists. reflexivity.
  - cbn [count] in Hc. destruct (Ascii.eqb "010" a) eqn:E; [discriminate|].
    rewrite str_app_cons. cbn [split_lines_go].
    rewrite Ascii.eqb_sym, E. apply IH. exact Hc.
Qed.

Lemma split_lines_go_single cur s :
  count "010" s = 0%nat → ∃ x, split_lines_go cur s = [x].
Proof.
  revert cur. induction s as [|a s IH]; intros cur Hc.
  - eexists. reflexivity.
  - cbn [count] in Hc. destruct (Ascii.eqb "010" a) eqn:E; [discriminate|].
    cbn [split_lines_go]. rewrite Ascii.eqb_sym, E. apply IH. exact Hc.
Qed.

End FrameFacts.

Import Regex Frames.

(** X6.  A frame that V8 prints with a function name is read back: the four
    fields are the function, the file, the line and the column that were
    printed.  The function name has no white space and no line terminator,
    the file name no line terminator. *)
Theorem call_site_line_is_parsed :
  ∀ (indent fn file ln cl : string) (ci : Stack.CallerInfo),
    all_in Space indent = true →
    fn ≠ "" → all_in Dot fn = true → none_in Space fn = true →
    all_in Dot file = true →
    is_number ln = true → is_number cl = true →
    Stack.scan_line ci (call_site_line indent fn file ln cl)
    = {| Stack.functionName := Some fn; Stack.fileName := Some file;
         Stack.line := Some ln; Stack.col := Some cl |}.
Proof.
  intros indent fn file ln cl ci Hindent Hfn Hfnd Hfns Hfile Hln Hcl.
  destruct (FrameFacts.js_match_call_site indent fn file ln cl
              Hindent Hfn Hfnd Hfns Hfile Hln Hcl) as (m0 & Hm).
  unfold Stack.scan_line. rewrite Hm. reflexivity.
Qed.

Lemma call_site_line_is_parsed_witness :
  Stack.scan_line Stack.unset
    (call_site_line "    " "Café.charge" "file:///C:/shop/café.js" "10" "5")
  = {| Stack.functionName := Some "Café.charge";
       Stack.fileName := Some "file:///C:/shop/café.js";
       Stack.line := Some "10"; Stack.col := Some "5" |}.
Proof.
  apply call_site_line_is_parsed; try reflexivity. discriminate.
Defined.

(** X7.  A frame that V8 prints without a function name is read back as
    well, and the function name keeps the value it had.  The file name has
    no line terminator and no opening parenthesis and does not begin with
    white space. *)
Theorem location_line_is_parsed :
  ∀ (indent file ln cl : string) (ci : Stack.CallerInfo),
    all_in Space indent = true →
    all_in Dot file = true → starts_outside Space file = true →
    count "(" file = 0%nat →
    is_number ln = true → is_number cl = true →
    Stack.scan_line ci (location_line indent file ln cl)
    = {| Stack.functionName := Stack.functionName ci;
         Stack.fileName := Some file;
         Stack.line := Some ln; Stack.col := Some cl |}.
Proof.
  intros indent file ln cl ci Hindent Hfile Hstart Hparen Hln Hcl.
  destruct (FrameFacts.js_match_location indent file ln cl
              Hindent Hfile Hstart Hln Hcl) as (m0 & Hm).
  unfold Stack.scan_line. rewrite Hm.
  destruct (Regex.js_match Stack.re_call_site _) as [m|] eqn:E; [|reflexivity].
  exfalso. apply FrameFacts.js_match_call_site_needs_paren in E.
  apply FrameFacts.is_number_spec in Hln as [_ Hln], Hcl as [_ Hcl].
  assert (N_of_ascii "(" < 128)%N as Hascii by (cbn; lia).
  unfold location_line in E. rewrite !StringFacts.count_app in E.
  rewrite (CharFacts.all_in_count Space "(" indent Hascii eq_refl Hindent) in E.
  rewrite (CharFacts.all_in_count Digit "(" ln Hascii eq_refl Hln) in E.
  rewrite (CharFacts.all_in_count Digit "(" cl Hascii eq_refl Hcl) in E.
  rewrite Hparen in E. cbn in E. lia.
Qed.

Lemma location_line_is_parsed_witness :
  Stack.scan_line Stack.unset
    (location_line "    " "async /app/routes.js" "10" "3")
  = {| Stack.functionName := None;
       Stack.fileName := Some "async /app/routes.js";
       Stack.line := Some "10"; Stack.col := Some "3" |}.
Proof.
  apply (location_line_is_parsed "    " "async /app/routes.js" "10" "3"
           Stack.unset); reflexivity.
Defined.

(** X8.  A stack none of whose lines after the first contains [at] followed by
    a white-space character (the stacks of SpiderMonkey and JavaScriptCore,
    whose frames read [name@file:line:column]) yields no field at all. *)
Theorem stack_without_at_is_not_parsed :
  ∀ (stack : option string),
    (∀ l, l ∈ Stack.stack_frames stack → mentions_at l = false) →
    Stack.extract stack = Stack.unset.
Proof.
  intros stack Hno. unfold Stack.extract. fold (Stack.stack_frames stack).
  assert (∀ lines ci, (∀ l, l ∈ lines → mentions_at l = false) →
            Stack.meaningful ci = false → Stack.scan ci lines = ci) as Hscan.
  { induction lines as [|l lines IH]; intros ci Hl Hci; cbn; [reflexivity|].
    assert (Stack.is_frame l = false) as Hf.
    { destruct (Stack.is_frame l) eqn:E; [|reflexivity].
      apply FrameFacts.is_frame_mentions_at in E.
      rewrite Hl in E by left. discriminate. }
    rewrite (StackFacts.scan_line_not_frame _ _ Hf), Hci.
    apply IH; [|exact Hci]. intros l' Hl'. apply Hl. right. exact Hl'. }
  apply Hscan; [exact Hno|reflexivity].
Qed.

Lemma stack_without_at_is_not_parsed_witness :
  Stack.extract (Some stack_gecko) = Stack.unset.
Proof.
  apply stack_without_at_is_not_parsed.
  intros l Hl. vm_compute in Hl.
  apply list_elem_of_singleton in Hl as ->. reflexivity.
Defined.

(** X9.  Whatever the stack, the fields are set together and come from the
    text: without a file all four are unset; with a file, line and column
    are non-empty strings of digits and [file:line:column] occurs in one of
    the scanned lines; a function name comes with a file and occurs in one
    of the scanned lines. *)
Theorem extract_reports_text_of_the_stack :
  ∀ (stack : option string),
    let ci := Stack.extract stack in
    (Stack.fileName ci = None → ci = Stack.unset)
    ∧ (∀ file, Stack.fileName ci = Some file →
         ∃ ln cl, Stack.line ci = Some ln ∧ Stack.col ci = Some cl
                  ∧ is_number ln = true ∧ is_number cl = true
                  ∧ ∃ l, l ∈ Stack.stack_frames stack
                         ∧ includes (file +:+ ":" +:+ ln +:+ ":" +:+ cl) l
                           = true)
    ∧ (∀ name, Stack.functionName ci = Some name →
         is_Some (Stack.fileName ci)
         ∧ ∃ l, l ∈ Stack.stack_frames stack ∧ includes name l = true).
Proof.
  intros stack.
  apply (FrameFacts.scan_well_formed (Stack.stack_frames stack)
           (Stack.stack_frames stack) Stack.unset); [done|].
  split; [reflexivity|]. split; [discriminate|]. discriminate.
Qed.

(** X3.  The function name is not reset between frames.  When a frame with a
    function name is passed over (its file is marked internal or third
    party) and the frame that ends the scan has none, the report carries the
    function of the former with the file, line and column of the latter. *)
Theorem function_name_survives_later_frames :
  ∀ (stack : option string) (pre mid post : list string) (c l : string),
    Stack.stack_frames stack = pre ++ c :: mid ++ l :: post →
    (∀ l', l' ∈ pre ++ c :: mid → Stack.meaningful (Stack.frame l') = false) →
    Stack.is_call_site c = true →
    (∀ l', l' ∈ mid → Stack.is_call_site l' = false) →
    Stack.is_call_site l = false →
    Stack.meaningful (Stack.frame l) = true →
    Stack.functionName (Stack.extract stack)
    = Stack.functionName (Stack.frame c)
    ∧ is_Some (Stack.functionName (Stack.frame c))
    ∧ Stack.location (Stack.extract stack) = Stack.location (Stack.frame l)
    ∧ Stack.functionName (Stack.frame l) = None.
Proof.
  intros stack pre mid post c l Hlines Hskip Hc Hmid Hl Hgood.
  assert (Stack.extract stack
          = Stack.scan_line (foldl Stack.scan_line Stack.unset (pre ++ c :: mid)) l)
    as E.
  { unfold Stack.extract. fold (Stack.stack_frames stack).
    rewrite Hlines.
    replace (pre ++ c :: mid ++ l :: post) with ((pre ++ c :: mid) ++ l :: post)
      by (rewrite <- app_assoc; reflexivity).
    apply StackFacts.scan_stops_at; [|exact Hgood].
    intros l' Hin _. apply Hskip, Hin. }
  rewrite E. split; [|split; [|split]].
  - rewrite FrameFacts.scan_line_location_only by exact Hl.
    rewrite foldl_app. cbn [foldl].
    rewrite FrameFacts.foldl_location_only by exact Hmid.
    rewrite StackFacts.scan_line_call_site by exact Hc. reflexivity.
  - unfold Stack.is_call_site in Hc. unfold Stack.frame, Stack.scan_line.
    destruct (Regex.js_match Stack.re_call_site c); [eauto|discriminate].
  - rewrite StackFacts.scan_line_location,
      (StackFacts.meaningful_is_frame _ Hgood). reflexivity.
  - unfold Stack.frame. apply (FrameFacts.scan_line_location_only Stack.unset l Hl).
Qed.

Lemma function_name_survives_later_frames_witness :
  Stack.functionName (Stack.extract (Some stack_async))
  = Some "processTicksAndRejections"
  ∧ Stack.location (Stack.extract (Some stack_async))
    = (Some "async /app/routes.js", Some "10", Some "3").
Proof.
  destruct (function_name_survives_later_frames (Some stack_async) [] [] []
    "    at processTicksAndRejections (node:internal/process/task_queues:95:5)"
    "    at async /app/routes.js:10:3") as (Hfn & _ & Hloc & _).
  - vm_compute. reflexivity.
  - intros l' Hl'. apply list_elem_of_singleton in Hl' as ->.
    vm_compute. reflexivity.
  - vm_compute. reflexivity.
  - intros l' Hl'. apply elem_of_nil in Hl'. destruct Hl'.
  - vm_compute. reflexivity.
  - vm_compute. reflexivity.
  - split; [rewrite Hfn|rewrite Hloc]; vm_compute; reflexivity.
Defined.

(** X10.  The first line of the stack is never scanned: a stack of one line
    yields nothing, and what a longer stack yields does not depend on its
    first line, also when that line is itself a frame. *)
Theorem first_line_is_never_parsed :
  ∀ (first rest : string),
    count "010" first = 0%nat →
    Stack.extract (Some first) = Stack.unset
    ∧ Stack.extract (Some (first +:+ nl +:+ rest))
      = Stack.scan Stack.unset (split_lines rest).
Proof.
  intros first rest Hfirst. unfold Stack.extract, split_lines, default.
  cbn [from_option id].
  destruct (FrameFacts.split_lines_go_single "" first Hfirst) as (x & ->).
  destruct (FrameFacts.split_lines_go_first "" first rest Hfirst) as (y & ->).
  split; reflexivity.
Qed.

Lemma first_line_is_never_parsed_witness :
  Stack.extract (Some "    at charge (/app/shop.js:10:5)") = Stack.unset
  ∧ Stack.extract (Some ("    at charge (/app/shop.js:10:5)" +:+ nl
                         +:+ "    at pay (/app/pay.js:20:7)"))
    = Stack.scan Stack.unset (split_lines "    at pay (/app/pay.js:20:7)").
Proof.
  apply (first_line_is_never_parsed "    at charge (/app/shop.js:10:5)").
  reflexivity.
Defined.

(** ** More on [start] and [stop] *)

Section Patching.
Implicit Types (this t : ErrorMonitor) (w v : World).

Ltac run_hook :=
  unfold hook_uncaughtException, hook_rejections, hook_console_error,
    hook_window_error, hook_window_fetch, hook_global_fetch, fresh,
    assign_fetch;
  repeat case_match; cbn [fst snd] in *.

Ltac frame_stage :=
  run_hook; cbn -[emitter_on addEventListener listeners_for reporter];
  rewrite ?reporter_handlers_set; rewrite ?lookup_insert_ne by done;
  first [ solve [split_and?; first [congruence | eauto]] | eauto ].

(** [start] wraps [console.error] when the option is on and a console
    exists, and records the function it found. *)
Lemma start_wraps_console_error this w :
  isActive this = false → enableConsoleErrors (options this) = true →
  has_console w = true →
  ∃ r, console_error (start this w).2
       = ConsoleErrorWrapper r (reporter this) (console_error w)
     ∧ originalHandlers (start this w).1 !! "console.error"
       = Some (console_error w)
     ∧ has_console (start this w).2 = true.
Proof.
  intros Hact Hon Hc.
  set (P0 := λ st : ErrorMonitor * World,
         reporter st.1 = reporter this ∧ options st.1 = options this
         ∧ console_error st.2 = console_error w ∧ has_console st.2 = true).
  set (P := λ st : ErrorMonitor * World,
         ∃ r, console_error st.2
              = ConsoleErrorWrapper r (reporter this) (console_error w)
            ∧ originalHandlers st.1 !! "console.error" = Some (console_error w)
            ∧ has_console st.2 = true).
  apply (start_stages P0 P0 P0 P P P P this w Hact); subst P0 P; cbn beta.
  - auto.
  - intros t v (Hr & Ho & Hce & Hhc); cbn [fst snd] in *. frame_stage.
  - intros t v (Hr & Ho & Hce & Hhc); cbn [fst snd] in *. frame_stage.
  - intros t v (Hr & Ho & Hce & Hhc); cbn [fst snd] in *.
    unfold hook_console_error, fresh. rewrite Ho, Hon, Hhc. cbn.
    rewrite Hr, Hce, lookup_insert_eq. eauto.
  - intros t v (r & Hce & Hreg & Hhc); cbn [fst snd] in *.
    run_hook; cbn; rewrite ?lookup_insert_ne by done; eauto.
  - intros t v (r & Hce & Hreg & Hhc); cbn [fst snd] in *.
    run_hook; cbn; rewrite ?lookup_insert_ne by done; eauto.
  - intros t v (r & Hce & Hreg & Hhc); cbn [fst snd] in *.
    run_hook; cbn; rewrite ?lookup_insert_ne by done; eauto.
Qed.

(** [stop] writes the recorded function into [console.error], whatever
    the slot holds. *)
Lemma stop_restores_console_error t v f :
  isActive t = true → originalHandlers t !! "console.error" = Some f →
  has_console v = true →
  console_error (stop t v).2 = f ∧ has_console (stop t v).2 = true
  ∧ isActive (stop t v).1 = false.
Proof.
  intros Hact Hreg Hc. unfold stop. rewrite Hact. cbn [negb fst snd].
  pose proof (slots_restore (set_isActive false t) v) as Hslots.
  destruct (env_restore (set_isActive false t) v) as (_ & _ & _ & Hc').
  unfold slots, restored in Hslots. injection Hslots as _ _ Hce _.
  rewrite Hce. unfold restored_console_error. cbn. rewrite Hreg, Hc.
  split; [reflexivity|]. split; [congruence|reflexivity].
Qed.

Lemma start_effects this w : effects (start this w).2 = effects w.
Proof.
  destruct (isActive this) eqn:Hact; [unfold start; rewrite Hact; reflexivity|].
  apply (start_invariant (λ st, effects st.2 = effects w) this w Hact).
  - reflexivity.
  - intros t v H; cbn [fst snd] in *. run_hook; exact H.
  - intros t v H; cbn [fst snd] in *. run_hook; exact H.
  - intros t v H; cbn [fst snd] in *. run_hook; exact H.
  - intros t v H; cbn [fst snd] in *. run_hook; exact H.
  - intros t v H; cbn [fst snd] in *. run_hook; exact H.
  - intros t v H; cbn [fst snd] in *. run_hook; exact H.
Qed.

Lemma restore_effects this w : effects (restore this w) = effects w.
Proof.
  unfold restore.
  rewrite !unhook_process_set.
  destruct (has_process w) eqn:Hp; destruct (window w) eqn:Hw;
    cbn; rewrite ?Hw, ?unhook_window_set, ?restore_console_error_set;
    unfold restore_global_fetch, restore_window_fetch, assign_fetch;
    cbn; rewrite ?Hw;
    destruct (originalHandlers this !! "fetch");
    destruct (originalHandlers this !! "global.fetch");
    destruct (global w) eqn:Hg; cbn; rewrite ?Hg; cbn; reflexivity.
Qed.

Lemma stop_effects this w : effects (stop this w).2 = effects w.
Proof.
  unfold stop. destruct (isActive this); cbn [negb fst snd]; [|reflexivity].
  apply restore_effects.
Qed.

Lemma start_next_ref this w : (next_ref w ≤ next_ref (start this w).2)%nat.
Proof.
  destruct (isActive this) eqn:Hact; [unfold start; rewrite Hact; reflexivity|].
  apply (start_invariant (λ st, (next_ref w ≤ next_ref st.2)%nat) this w Hact).
  - reflexivity.
  - intros t v H; cbn [fst snd] in *. run_hook; cbn; lia.
  - intros t v H; cbn [fst snd] in *. run_hook; cbn; lia.
  - intros t v H; cbn [fst snd] in *. run_hook; cbn; lia.
  - intros t v H; cbn [fst snd] in *. run_hook; cbn; lia.
  - intros t v H; cbn [fst snd] in *. run_hook; cbn; lia.
  - intros t v H; cbn [fst snd] in *. run_hook; cbn; lia.
Qed.

Lemma start_skips_node_rejections this w win :
  isActive this = false → window w = Some win →
  listeners_for "unhandledRejection" (process_listeners (start this w).2)
  = listeners_for "unhandledRejection" (process_listeners w)
  ∧ originalHandlers (start this w).1 !! "unhandledRejection"
    = originalHandlers this !! "unhandledRejection".
Proof.
  intros Hact Hwin.
  apply (start_invariant
    (λ st, window st.2 = Some win
           ∧ listeners_for "unhandledRejection" (process_listeners st.2)
             = listeners_for "unhandledRejection" (process_listeners w)
           ∧ originalHandlers st.1 !! "unhandledRejection"
             = originalHandlers this !! "unhandledRejection") this w Hact).
  - auto.
  - intros t v (Hw & Hp & Hr); cbn [fst snd] in *.
    run_hook; cbn -[emitter_on addEventListener listeners_for];
      rewrite ?lookup_insert_ne, ?listeners_for_on by done; auto.
  - intros t v (Hw & Hp & Hr); cbn [fst snd] in *.
    unfold hook_rejections, fresh. rewrite Hw.
    destruct (enablePromiseRejections (options t));
      [|repeat split; assumption].
    cbn -[addEventListener listeners_for].
    rewrite lookup_insert_ne by done. repeat split; assumption.
  - intros t v (Hw & Hp & Hr); cbn [fst snd] in *. frame_stage.
  - intros t v (Hw & Hp & Hr); cbn [fst snd] in *.
    run_hook; cbn -[emitter_on addEventListener listeners_for];
      rewrite ?lookup_insert_ne by done; split_and?; congruence.
  - intros t v (Hw & Hp & Hr); cbn [fst snd] in *. frame_stage.
  - intros t v (Hw & Hp & Hr); cbn [fst snd] in *. frame_stage.
Qed.

Lemma start_wraps_aliased_fetch this w o f :
  isActive this = false → enableFetchMonitoring (options this) = true →
  window w = Some o → global w = Some o → fetch_of w !! o = Some f →
  ∃ r1 r2,
    fetch_of (start this w).2 !! o
    = Some (GlobalFetchWrapper r2 (reporter this)
              (WindowFetchWrapper r1 (reporter this) f))
    ∧ originalHandlers (start this w).1 !! "fetch" = Some f
    ∧ originalHandlers (start this w).1 !! "global.fetch"
      = Some (WindowFetchWrapper r1 (reporter this) f)
    ∧ window (start this w).2 = Some o ∧ global (start this w).2 = Some o.
Proof.
  intros Hact Hon Hwin Hglob Hf.
  set (P0 := λ st : ErrorMonitor * World,
         reporter st.1 = reporter this ∧ options st.1 = options this
         ∧ window st.2 = Some o ∧ global st.2 = Some o
         ∧ fetch_of st.2 !! o = Some f).
  set (P5 := λ st : ErrorMonitor * World,
         reporter st.1 = reporter this ∧ options st.1 = options this
         ∧ window st.2 = Some o ∧ global st.2 = Some o
         ∧ ∃ r1, fetch_of st.2 !! o
                 = Some (WindowFetchWrapper r1 (reporter this) f)
               ∧ originalHandlers st.1 !! "fetch" = Some f).
  set (P := λ st : ErrorMonitor * World,
         ∃ r1 r2,
           fetch_of st.2 !! o
           = Some (GlobalFetchWrapper r2 (reporter this)
                     (WindowFetchWrapper r1 (reporter this) f))
           ∧ originalHandlers st.1 !! "fetch" = Some f
           ∧ originalHandlers st.1 !! "global.fetch"
             = Some (WindowFetchWrapper r1 (reporter this) f)
           ∧ window st.2 = Some o ∧ global st.2 = Some o).
  apply (start_stages P0 P0 P0 P0 P0 P5 P this w Hact); subst P0 P5 P;
    cbn beta.
  - auto 10.
  - intros t v (Hr & Ho & Hw & Hg & Hfo); cbn [fst snd] in *. frame_stage.
  - intros t v (Hr & Ho & Hw & Hg & Hfo); cbn [fst snd] in *. frame_stage.
  - intros t v (Hr & Ho & Hw & Hg & Hfo); cbn [fst snd] in *. frame_stage.
  - intros t v (Hr & Ho & Hw & Hg & Hfo); cbn [fst snd] in *. frame_stage.
  - intros t v (Hr & Ho & Hw & Hg & Hfo); cbn [fst snd] in *.
    unfold hook_window_fetch, fresh, assign_fetch. rewrite Ho, Hon, Hw, Hfo.
    cbn. rewrite Hr, !lookup_insert_eq. eauto 10.
  - intros t v (Hr & Ho & Hw & Hg & r1 & Hfo & Hreg); cbn [fst snd] in *.
    unfold hook_global_fetch, fresh, assign_fetch. rewrite Ho, Hon, Hg, Hfo.
    cbn. rewrite Hr, !lookup_insert_eq, lookup_insert_ne by done. eauto 10.
Qed.

End Patching.

(** X5.  Where [window] and [global] are one object that has a [fetch], [start]
    with fetch monitoring wraps that [fetch] twice, the wrapper of
    [global.fetch] around the wrapper of [window.fetch]; [stop] then leaves
    the inner wrapper in the slot, not the function that was there. *)
Theorem aliased_fetch_is_wrapped_twice :
  ∀ (this : ErrorMonitor) (w : World) (o : nat) (f : Fn),
    isActive this = false → enableFetchMonitoring (options this) = true →
    window w = Some o → global w = Some o → fetch_of w !! o = Some f →
    ∃ r1 r2,
      window_fetch (start this w).2
      = Some (GlobalFetchWrapper r2 (reporter this)
                (WindowFetchWrapper r1 (reporter this) f))
      ∧ window_fetch (stop (start this w).1 (start this w).2).2
        = Some (WindowFetchWrapper r1 (reporter this) f)
      ∧ isActive (stop (start this w).1 (start this w).2).1 = false.
Proof.
  intros this w o f Hact Hon Hwin Hglob Hf.
  destruct (start_wraps_aliased_fetch this w o f Hact Hon Hwin Hglob Hf)
    as (r1 & r2 & Hfo & Hreg1 & Hreg2 & Hw & Hg).
  pose proof (start_is_active this w) as Hon'.
  destruct (start this w) as [t v]. cbn [fst snd] in *.
  exists r1, r2. split; [unfold window_fetch; rewrite Hw; exact Hfo|].
  split; [|apply stop_is_inactive].
  unfold stop. rewrite Hon'. cbn [negb fst snd].
  pose proof (slots_restore (set_isActive false t) v) as Hslots.
  destruct (env_restore (set_isActive false t) v) as (_ & Hw' & _).
  unfold slots, restored in Hslots. injection Hslots as _ _ _ Hfetch.
  unfold window_fetch. rewrite Hw', Hw. cbn. rewrite Hfetch.
  unfold restored_fetch_of. cbn. rewrite Hreg1, Hreg2, Hw, Hg.
  apply lookup_insert_eq.
Qed.

Lemma aliased_fetch_is_wrapped_twice_witness :
  ∃ r1 r2,
    window_fetch (start (new_ErrorMonitor "k" no_options) aliased_world).2
    = Some (GlobalFetchWrapper r2 (reporter (new_ErrorMonitor "k" no_options))
              (WindowFetchWrapper r1 (reporter (new_ErrorMonitor "k" no_options))
                 (Native 2)))
    ∧ window_fetch
        (stop (start (new_ErrorMonitor "k" no_options) aliased_world).1
              (start (new_ErrorMonitor "k" no_options) aliased_world).2).2
      = Some (WindowFetchWrapper r1 (reporter (new_ErrorMonitor "k" no_options))
                (Native 2))
    ∧ isActive
        (stop (start (new_ErrorMonitor "k" no_options) aliased_world).1
              (start (new_ErrorMonitor "k" no_options) aliased_world).2).1
      = false.
Proof.
  apply (aliased_fetch_is_wrapped_twice (new_ErrorMonitor "k" no_options)
           aliased_world 1%nat (Native 2)); reflexivity.
Defined.

(** X11.  [stop] puts back [console.error] by writing the function that [start]
    found, whatever the slot holds by then.  (1) A function that someone
    else has put into the slot after [start] is dropped.  (2) Two started
    monitors stopped in the reverse order leave the function that was there
    before both.  (3) Stopped in the order they were started, they leave the
    wrapper of the first monitor installed, although both are stopped. *)
Theorem stop_restores_by_overwriting :
  ∀ (a b : ErrorMonitor) (w : World) (later : Fn),
    isActive a = false → isActive b = false →
    enableConsoleErrors (options a) = true →
    enableConsoleErrors (options b) = true →
    has_console w = true →
    let sa := start a w in
    let sb := start b sa.2 in
    console_error (stop sa.1 (set_console_error later sa.2)).2
    = console_error w
    ∧ console_error (stop sa.1 (stop sb.1 sb.2).2).2 = console_error w
    ∧ ∃ r, console_error (stop sb.1 (stop sa.1 sb.2).2).2
           = ConsoleErrorWrapper r (reporter a) (console_error w)
         ∧ isActive (stop sa.1 sb.2).1 = false
         ∧ isActive (stop sb.1 (stop sa.1 sb.2).2).1 = false.
Proof.
  intros a b w later Ha Hb Hona Honb Hc sa sb.
  destruct (start_wraps_console_error a w Ha Hona Hc) as (r & Hcea & Hrega & Hca).
  fold sa in Hcea, Hrega, Hca.
  destruct (start_wraps_console_error b sa.2 Hb Honb Hca)
    as (r' & Hceb & Hregb & Hcb).
  fold sb in Hceb, Hregb, Hcb.
  pose proof (start_is_active a w) as Hacta. fold sa in Hacta.
  pose proof (start_is_active b sa.2) as Hactb. fold sb in Hactb.
  split; [|split].
  - apply (stop_restores_console_error sa.1 (set_console_error later sa.2)
             (console_error w) Hacta Hrega Hca).
  - destruct (stop_restores_console_error sb.1 sb.2 _ Hactb Hregb Hcb)
      as (H1 & H2 & _).
    apply (stop_restores_console_error sa.1 _ (console_error w) Hacta Hrega H2).
  - destruct (stop_restores_console_error sa.1 sb.2 _ Hacta Hrega Hcb)
      as (H1 & H2 & H3).
    destruct (stop_restores_console_error sb.1 (stop sa.1 sb.2).2 _ Hactb Hregb H2)
      as (H4 & _ & H5).
    exists r. rewrite H4, Hcea. auto.
Qed.

Lemma stop_restores_by_overwriting_witness :
  let a := new_ErrorMonitor "a" no_options in
  let b := new_ErrorMonitor "b" no_options in
  let sa := start a node_world in
  let sb := start b sa.2 in
  console_error (stop sa.1 (set_console_error (Native 99) sa.2)).2 = Native 3
  ∧ console_error (stop sa.1 (stop sb.1 sb.2).2).2 = Native 3
  ∧ ∃ r, console_error (stop sb.1 (stop sa.1 sb.2).2).2
         = ConsoleErrorWrapper r (reporter a) (Native 3)
       ∧ isActive (stop sa.1 sb.2).1 = false
       ∧ isActive (stop sb.1 (stop sa.1 sb.2).2).1 = false.
Proof.
  apply (stop_restores_by_overwriting (new_ErrorMonitor "a" no_options)
           (new_ErrorMonitor "b" no_options) node_world (Native 99));
    reflexivity.
Defined.

(** X12.  In a runtime that has [window], [start] registers its rejection
    listener on [window] only: the listeners of [process] for
    [unhandledRejection] stay as they were, also when the runtime has
    [process] and rejections are to be captured. *)
Theorem window_runtime_never_hooks_node_rejections :
  ∀ (this : ErrorMonitor) (w : World) (win : nat),
    isActive this = false → window w = Some win →
    listeners_for "unhandledRejection" (process_listeners (start this w).2)
    = listeners_for "unhandledRejection" (process_listeners w)
    ∧ originalHandlers (start this w).1 !! "unhandledRejection"
      = originalHandlers this !! "unhandledRejection".
Proof. apply start_skips_node_rejections. Qed.

(** A runtime with [window] and [process]: the one listener of
    [unhandledRejection] is still the host's. *)
Lemma window_runtime_never_hooks_node_rejections_witness :
  listeners_for "unhandledRejection"
    (process_listeners
       (start (new_ErrorMonitor "k" no_options) hybrid_world).2)
  = [Native 0].
Proof.
  rewrite (proj1 (window_runtime_never_hooks_node_rejections
                    (new_ErrorMonitor "k" no_options) hybrid_world 1%nat
                    eq_refl eq_refl)).
  reflexivity.
Defined.

(** X13.  [start] and [stop] write nothing to the console, send no request and
    start no report. *)
Theorem start_and_stop_are_silent :
  ∀ (this : ErrorMonitor) (w : World),
    (console_out (start this w).2, http_log (start this w).2,
     spawned (start this w).2)
    = (console_out w, http_log w, spawned w)
    ∧ (console_out (stop this w).2, http_log (stop this w).2,
       spawned (stop this w).2)
      = (console_out w, http_log w, spawned w).
Proof.
  intros this w. split; [apply start_effects|apply stop_effects].
Qed.

(** ** The listeners at work *)

Section ListenerFacts.
Context (host : Host).
Implicit Types (this t : ErrorMonitor) (w v : World).

Ltac run_hook :=
  unfold hook_uncaughtException, hook_rejections, hook_console_error,
    hook_window_error, hook_window_fetch, hook_global_fetch, fresh,
    assign_fetch;
  repeat case_match; cbn [fst snd] in *.

Ltac frame_stage :=
  run_hook; cbn -[emitter_on addEventListener listeners_for reporter];
  rewrite ?reporter_handlers_set; rewrite ?lookup_insert_ne by done;
  first [ solve [split_and?; first [congruence | eauto]] | eauto ].

(** In Node.js, with rejections captured, [start] appends its two
    listeners to those of [process]. *)
Lemma start_process_listeners this w :
  isActive this = false → has_process w = true → window w = None →
  enablePromiseRejections (options this) = true →
  ∃ r1 r2,
    process_listeners (start this w).2
    = process_listeners w
      ++ [("uncaughtException", UncaughtHandler r1 (reporter this));
          ("unhandledRejection", NodeRejectionHandler r2 (reporter this))].
Proof.
  intros Hact Hp Hwin Hon.
  set (P0 := λ st : ErrorMonitor * World,
         reporter st.1 = reporter this ∧ options st.1 = options this
         ∧ has_process st.2 = true ∧ window st.2 = None
         ∧ process_listeners st.2 = process_listeners w).
  set (P1 := λ st : ErrorMonitor * World,
         reporter st.1 = reporter this ∧ options st.1 = options this
         ∧ has_process st.2 = true ∧ window st.2 = None
         ∧ ∃ r1, process_listeners st.2
                 = process_listeners w
                   ++ [("uncaughtException", UncaughtHandler r1 (reporter this))]).
  set (P := λ st : ErrorMonitor * World,
         ∃ r1 r2,
           process_listeners st.2
           = process_listeners w
             ++ [("uncaughtException", UncaughtHandler r1 (reporter this));
                 ("unhandledRejection",
                  NodeRejectionHandler r2 (reporter this))]).
  apply (start_stages P0 P1 P P P P P this w Hact); subst P0 P1 P; cbn beta.
  - auto 10.
  - intros t v (Hr & Ho & Hhp & Hw & Hpl); cbn [fst snd] in *.
    unfold hook_uncaughtException, fresh. rewrite Hhp. cbn.
    rewrite Hr, Hpl. unfold emitter_on. eauto 10.
  - intros t v (Hr & Ho & Hhp & Hw & r1 & Hpl); cbn [fst snd] in *.
    unfold hook_rejections, fresh. rewrite Ho, Hon, Hw, Hhp. cbn.
    rewrite Hr, Hpl. unfold emitter_on. rewrite <- app_assoc. cbn. eauto.
  - intros t v (r1 & r2 & Hpl); cbn [fst snd] in *. run_hook; cbn; eauto.
  - intros t v (r1 & r2 & Hpl); cbn [fst snd] in *. run_hook; cbn; eauto.
  - intros t v (r1 & r2 & Hpl); cbn [fst snd] in *. run_hook; cbn; eauto.
  - intros t v (r1 & r2 & Hpl); cbn [fst snd] in *. run_hook; cbn; eauto.
Qed.

Lemma not_native_fresh type h (l : list (string * Fn)) :
  (∀ type' h', (type', h') ∈ l → is_native h' = true) →
  is_native h = false → (type, h) ∉ l.
Proof. intros Hl Hh Hin. apply Hl in Hin. congruence. Qed.

(** In a browser, with rejections captured, [start] appends its two
    listeners to those of [window]. *)
Lemma start_window_listeners this w win :
  isActive this = false → window w = Some win →
  enablePromiseRejections (options this) = true →
  (∀ type h, (type, h) ∈ window_listeners w → is_native h = true) →
  ∃ r1 r2,
    window_listeners (start this w).2
    = window_listeners w
      ++ [("unhandledrejection", BrowserRejectionHandler r1 (reporter this));
          ("error", WindowErrorHandler r2 (reporter this))].
Proof.
  intros Hact Hwin Hon Hnat.
  set (P0 := λ st : ErrorMonitor * World,
         reporter st.1 = reporter this ∧ options st.1 = options this
         ∧ window st.2 = Some win
         ∧ window_listeners st.2 = window_listeners w).
  set (P1 := λ st : ErrorMonitor * World,
         reporter st.1 = reporter this ∧ options st.1 = options this
         ∧ window st.2 = Some win
         ∧ ∃ r1, window_listeners st.2
                 = window_listeners w
                   ++ [("unhandledrejection",
                        BrowserRejectionHandler r1 (reporter this))]).
  set (P := λ st : ErrorMonitor * World,
         ∃ r1 r2,
           window_listeners st.2
           = window_listeners w
             ++ [("unhandledrejection",
                  BrowserRejectionHandler r1 (reporter this));
                 ("error", WindowErrorHandler r2 (reporter this))]).
  apply (start_stages P0 P0 P1 P1 P P P this w Hact); subst P0 P1 P; cbn beta.
  - auto 10.
  - intros t v (Hr & Ho & Hw & Hwl); cbn [fst snd] in *. frame_stage.
  - intros t v (Hr & Ho & Hw & Hwl); cbn [fst snd] in *.
    unfold hook_rejections, fresh. rewrite Ho, Hon, Hw. cbn -[addEventListener].
    rewrite Hr, Hwl. rewrite addEventListener_fresh
      by (apply not_native_fresh; [exact Hnat|reflexivity]).
    eauto 10.
  - intros t v (Hr & Ho & Hw & r1 & Hwl); cbn [fst snd] in *.
    run_hook; cbn; eauto 10.
  - intros t v (Hr & Ho & Hw & r1 & Hwl); cbn [fst snd] in *.
    unfold hook_window_error, fresh. rewrite Hw. cbn -[addEventListener].
    rewrite Hr, Hwl. rewrite addEventListener_fresh.
    + rewrite <- app_assoc. cbn. eauto.
    + intros [Hin|Hin]%elem_of_app.
      * apply Hnat in Hin. discriminate.
      * apply list_elem_of_singleton in Hin. discriminate.
  - intros t v (r1 & r2 & Hwl); cbn [fst snd] in *. run_hook; cbn; eauto.
  - intros t v (r1 & r2 & Hwl); cbn [fst snd] in *. run_hook; cbn; eauto.
Qed.

Lemma emit_each_native hs1 hs2 args w :
  (∀ h, h ∈ hs1 → is_native h = true) →
  emit_each host (hs1 ++ hs2) args w = emit_each host hs2 args w.
Proof.
  induction hs1 as [|h hs1 IH]; intros Hn; [reflexivity|].
  cbn. unfold bind.
  assert (is_native h = true) as Hh by (apply Hn; left).
  destruct h; try discriminate. cbn.
  apply IH. intros h' Hh'. apply Hn. right. exact Hh'.
Qed.

Lemma dispatch_each_native hs1 hs2 event w :
  (∀ h, h ∈ hs1 → is_native h = true) →
  dispatch_each host (hs1 ++ hs2) event w = dispatch_each host hs2 event w.
Proof.
  induction hs1 as [|h hs1 IH]; intros Hn; [reflexivity|].
  cbn. unfold bind, try_catch.
  assert (is_native h = true) as Hh by (apply Hn; left).
  destruct h; try discriminate. cbn.
  apply IH. intros h' Hh'. apply Hn. right. exact Hh'.
Qed.

Lemma listeners_for_app type (l1 l2 : list (string * Fn)) :
  listeners_for type (l1 ++ l2) = listeners_for type l1 ++ listeners_for type l2.
Proof. apply omap_app. Qed.

Lemma listeners_for_two (type ty1 ty2 : string) (h1 h2 : Fn) :
  listeners_for type [(ty1, h1); (ty2, h2)]
  = (if decide (ty1 = type) then [h1] else [])
    ++ (if decide (ty2 = type) then [h2] else []).
Proof. unfold listeners_for. cbn. repeat case_decide; reflexivity. Qed.

Lemma listeners_for_elem type h (l : list (string * Fn)) :
  h ∈ listeners_for type l → (type, h) ∈ l.
Proof.
  unfold listeners_for. intros Hin. apply list_elem_of_omap in Hin as ([t h'] & Hin & Hsome).
  cbn in Hsome. case_decide; [|discriminate]. injection Hsome as ->. subst t. exact Hin.
Qed.

End ListenerFacts.

(** X14.  In Node.js (no [window]) a monitor that captures rejections reports
    each uncaught exception and each unhandled rejection exactly once:
    emitting the event on [process] after [start] starts one report, with
    the classification of the event.  A reason that is an error is reported
    as it is; any other reason is reported as an error whose message is the
    reason's text. *)
Theorem node_events_are_reported_once :
  ∀ (host : Host) (this : ErrorMonitor) (w : World)
    (error reason rejected : Value),
    isActive this = false → has_process w = true → window w = None →
    enablePromiseRejections (options this) = true →
    (∀ type h, (type, h) ∈ process_listeners w → is_native h = true) →
    let v := (start this w).2 in
    process_emit host "uncaughtException" [error] v
    = (Normal tt,
       set_spawned
         (spawned v
          ++ [{| call_monitor := reporter this;
                 call_event := "uncaught_exception";
                 call_err := error; call_errorType := uncaught |}]) v)
    ∧ ∃ e v',
        process_emit host "unhandledRejection" [reason; rejected] v
        = (Normal tt, v')
        ∧ spawned v'
          = spawned v
            ++ [{| call_monitor := reporter this;
                   call_event := "unhandled_promise_rejection";
                   call_err := e; call_errorType := promise |}]
        ∧ instanceof_Error e = true
        ∧ (instanceof_Error reason = true → e = reason)
        ∧ (instanceof_Error reason = false →
           error_message e = js_String reason).
Proof.
  intros host this w error reason rejected Hact Hp Hwin Hon Hnat v.
  destruct (start_process_listeners this w Hact Hp Hwin Hon) as (r1 & r2 & Hpl).
  fold v in Hpl.
  assert (∀ type, ∀ h, h ∈ listeners_for type (process_listeners w) →
                       is_native h = true) as Hnat'.
  { intros type h Hin. apply listeners_for_elem in Hin. eapply Hnat, Hin. }
  split.
  - unfold process_emit. rewrite Hpl, listeners_for_app, listeners_for_two.
    rewrite decide_True, decide_False by done.
    rewrite emit_each_native by apply Hnat'.
    reflexivity.
  - unfold process_emit. rewrite Hpl, listeners_for_app, listeners_for_two.
    rewrite decide_False, decide_True by done.
    rewrite emit_each_native by apply Hnat'.
    cbn. unfold bind, node_rejectionHandler, bind, arg. cbn.
    destruct (instanceof_Error reason) eqn:E; cbn.
    + eexists _, _. split; [reflexivity|]. cbn.
      split; [reflexivity|]. split; [exact E|]. split; [reflexivity|congruence].
    + eexists _, _. split; [reflexivity|]. cbn.
      split; [reflexivity|]. split; [reflexivity|]. split; [discriminate|reflexivity].
Qed.

(** The monitor of the default options in Node.js, and a rejection with
    the reason "no credits". *)
Lemma node_events_are_reported_once_witness :
  let v := (start (new_ErrorMonitor "k" no_options) node_world).2 in
  ∃ e v',
    process_emit host_up "unhandledRejection"
      [VStr "no credits"; VObject 5] v = (Normal tt, v')
    ∧ spawned v'
      = [{| call_monitor := reporter (new_ErrorMonitor "k" no_options);
            call_event := "unhandled_promise_rejection";
            call_err := e; call_errorType := promise |}]
    ∧ error_message e = "no credits".
Proof.
  cbv zeta.
  destruct (node_events_are_reported_once host_up
              (new_ErrorMonitor "k" no_options) node_world VUndefined
              (VStr "no credits") (VObject 5) eq_refl eq_refl eq_refl eq_refl)
    as (_ & e & v' & Hemit & Hspawned & _ & _ & Hmsg).
  - intros type h Hin. apply list_elem_of_singleton in Hin as [= -> ->].
    reflexivity.
  - exists e, v'. split; [exact Hemit|]. split; [exact Hspawned|].
    apply Hmsg. reflexivity.
Defined.

(** X15.  In a browser a monitor that captures rejections reports each
    [unhandledrejection] event and each [error] event exactly once.  For an
    [error] event whose [error] property is falsy (as for a script of
    another origin) the report is an error made of the event's message;
    otherwise it is the value of the property. *)
Theorem browser_events_are_reported_once :
  ∀ (host : Host) (this : ErrorMonitor) (w : World) (win : nat)
    (reason error : Value) (message : string),
    isActive this = false → window w = Some win →
    enablePromiseRejections (options this) = true →
    (∀ type h, (type, h) ∈ window_listeners w → is_native h = true) →
    let v := (start this w).2 in
    (∃ e v',
       window_dispatchEvent host (PromiseRejectionEvent reason) v
       = (Normal tt, v')
       ∧ spawned v'
         = spawned v
           ++ [{| call_monitor := reporter this;
                  call_event := "unhandled_promise_rejection";
                  call_err := e; call_errorType := promise |}]
       ∧ instanceof_Error e = true
       ∧ (instanceof_Error reason = true → e = reason)
       ∧ (instanceof_Error reason = false →
          error_message e = js_String reason))
    ∧ (∃ e v',
         window_dispatchEvent host (ErrorEvent error message) v
         = (Normal tt, v')
         ∧ spawned v'
           = spawned v
             ++ [{| call_monitor := reporter this;
                    call_event := "global_error";
                    call_err := e; call_errorType := uncaught |}]
         ∧ (truthy error = true → e = error)
         ∧ (truthy error = false →
            instanceof_Error e = true ∧ error_message e = message)).
Proof.
  intros host this w win reason error message Hact Hwin Hon Hnat v.
  destruct (start_window_listeners this w win Hact Hwin Hon Hnat)
    as (r1 & r2 & Hwl).
  fold v in Hwl.
  assert (∀ type, ∀ h, h ∈ listeners_for type (window_listeners w) →
                       is_native h = true) as Hnat'.
  { intros type h Hin. apply listeners_for_elem in Hin. eapply Hnat, Hin. }
  split.
  - unfold window_dispatchEvent. rewrite Hwl, listeners_for_app, listeners_for_two.
    cbn [ev_type PromiseRejectionEvent].
    rewrite decide_True, decide_False by done.
    rewrite dispatch_each_native by apply Hnat'.
    cbn. unfold bind, try_catch, browser_rejectionHandler, bind. cbn.
    destruct (instanceof_Error reason) eqn:E; cbn.
    + eexists _, _. split; [reflexivity|]. cbn.
      split; [reflexivity|]. split; [exact E|]. split; [reflexivity|congruence].
    + eexists _, _. split; [reflexivity|]. cbn.
      split; [reflexivity|]. split; [reflexivity|]. split; [discriminate|reflexivity].
  - unfold window_dispatchEvent. rewrite Hwl, listeners_for_app, listeners_for_two.
    cbn [ev_type ErrorEvent].
    rewrite decide_False, decide_True by done.
    rewrite dispatch_each_native by apply Hnat'.
    cbn. unfold bind, try_catch, errorHandler, bind. cbn.
    destruct (truthy error) eqn:E; cbn.
    + eexists _, _. split; [reflexivity|]. cbn. split; [reflexivity|].
      split; [reflexivity|discriminate].
    + eexists _, _. split; [reflexivity|]. cbn. split; [reflexivity|].
      split; [discriminate|]. intros _. split; reflexivity.
Qed.

(** The monitor of the default options in the browser, and an [error]
    event of a script of another origin. *)
Lemma browser_events_are_reported_once_witness :
  let v := (start (new_ErrorMonitor "k" no_options) browser_world).2 in
  ∃ e v',
    window_dispatchEvent host_up (ErrorEvent VNull "Script error.") v
    = (Normal tt, v')
    ∧ spawned v'
      = [{| call_monitor := reporter (new_ErrorMonitor "k" no_options);
            call_event := "global_error";
            call_err := e; call_errorType := uncaught |}]
    ∧ error_message e = "Script error.".
Proof.
  cbv zeta.
  destruct (browser_events_are_reported_once host_up
              (new_ErrorMonitor "k" no_options) browser_world 1%nat VUndefined
              VNull "Script error." eq_refl eq_refl eq_refl)
    as (_ & e & v' & Hemit & Hspawned & _ & Hmsg).
  - intros type h Hin. apply list_elem_of_singleton in Hin as [= -> ->].
    reflexivity.
  - exists e, v'. split; [exact Hemit|]. split; [exact Hspawned|].
    apply Hmsg. reflexivity.
Defined.

(** ** The wrappers of [fetch] at work *)

Section FetchFacts.
Context (host : Host) (app_fetch : nat → Value → AppFetch).

Lemma url_of_returns input w :
  nullish input = false → ∃ url, url_of host input w = (Normal url, w).
Proof. destruct input; try discriminate; intros _; eexists; reflexivity. Qed.

Lemma url_of_throws input w :
  nullish input = true →
  ∃ message,
    url_of host input w
    = (Throw (VError (next_ref w) message (new_stack host message)),
       set_next_ref (S (next_ref w)) w).
Proof. destruct input; try discriminate; intros _; eexists; reflexivity. Qed.

End FetchFacts.

(** X17.  A wrapper of [fetch] hands on the response of the function it wraps.
    When the status is not a monitored one it does nothing else.  When it is
    (and the input is neither [undefined] nor [null]) it starts exactly one
    report, whose event is [fetch_] followed by the status and whose error
    has the message [HTTP <status>: <statusText>]; whether the body of the
    response can be read does not matter. *)
Theorem fetch_wrapper_reports_monitored_status :
  ∀ (host : Host) (app_fetch : nat → Value → AppFetch) (monitor : Reporter)
    (originalFetch f : Fn) (input : Value) (response : Response)
    (w w1 : World),
    fetch_wrapper_of monitor originalFetch f →
    await_fetch_call host app_fetch originalFetch input w
    = (Normal response, w1) →
    (monitored_status monitor response = false →
       await_fetch_call host app_fetch f input w = (Normal response, w1))
    ∧ (monitored_status monitor response = true → nullish input = false →
       ∃ e w2,
         await_fetch_call host app_fetch f input w = (Normal response, w2)
         ∧ spawned w2
           = spawned w1
             ++ [{| call_monitor := monitor;
                    call_event :=
                      "fetch_" +:+ js_String (VNum (resp_status response));
                    call_err := e; call_errorType := manual |}]
         ∧ instanceof_Error e = true
         ∧ error_message e = http_error response
         ∧ slots w2 = slots w1 ∧ http_log w2 = http_log w1
         ∧ console_out w2 = console_out w1).
Proof.
  intros host app_fetch monitor originalFetch f input response w w1
    (r & [-> | ->]) Horig; cbn [await_fetch_call]; unfold try_catch, bind;
    rewrite Horig; (split; [intros ->; reflexivity|]); intros -> Hin;
    destruct (url_of_returns host input w1 Hin) as (url & ->); cbn.
  - unfold try_catch, read_body. destruct (resp_text response); cbn;
      eexists _, _; (split; [reflexivity|]); cbn; repeat split.
  - eexists _, _. split; [reflexivity|]. cbn. repeat split.
Qed.

(** The default monitor in the browser and a server that answers 503: the
    one report has the event [fetch_503]. *)
Lemma fetch_wrapper_reports_monitored_status_witness :
  let v := (start (new_ErrorMonitor "k" no_options) browser_world).2 in
  ∃ f response e w2,
    window_fetch v = Some f
    ∧ await_fetch_call host_up fetch_503 f (VStr "/api/cart") v
      = (Normal response, w2)
    ∧ resp_status response = 503
    ∧ spawned w2
      = [{| call_monitor := reporter (new_ErrorMonitor "k" no_options);
            call_event := "fetch_503";
            call_err := e; call_errorType := manual |}]
    ∧ error_message e = "HTTP 503: Service Unavailable".
Proof.
  cbv zeta.
  destruct (fetch_wrapper_reports_monitored_status host_up fetch_503
              (reporter (new_ErrorMonitor "k" no_options)) (Native 2)
              (WindowFetchWrapper 13 (reporter (new_ErrorMonitor "k" no_options))
                 (Native 2))
              (VStr "/api/cart")
              {| resp_ref := 50; resp_status := 503;
                 resp_statusText := "Service Unavailable";
                 resp_text := Some "busy" |}
              (start (new_ErrorMonitor "k" no_options) browser_world).2
              (start (new_ErrorMonitor "k" no_options) browser_world).2)
    as (_ & Hreport).
  - exists 13%nat. left. reflexivity.
  - reflexivity.
  - destruct (Hreport eq_refl eq_refl) as (e & w2 & Hcall & Hspawned & _ & Hmsg & _).
    eexists _, _, e, w2. split; [vm_compute; reflexivity|].
    split; [exact Hcall|]. split; [reflexivity|].
    split; [exact Hspawned|exact Hmsg].
Defined.

(** X18.  When the wrapped function throws or its promise rejects (a network
    failure), a wrapper of [fetch] starts exactly one report of that very
    value under the event [fetch_network_error] and throws it again; the
    option [monitorHttpErrors] is not read. *)
Theorem fetch_wrapper_reports_network_failure :
  ∀ (host : Host) (app_fetch : nat → Value → AppFetch) (monitor : Reporter)
    (originalFetch f : Fn) (input fetchError : Value) (w w1 : World),
    fetch_wrapper_of monitor originalFetch f →
    await_fetch_call host app_fetch originalFetch input w
    = (Throw fetchError, w1) →
    nullish input = false →
    await_fetch_call host app_fetch f input w
    = (Throw fetchError,
       set_spawned
         (spawned w1
          ++ [{| call_monitor := monitor;
                 call_event := "fetch_network_error";
                 call_err := fetchError; call_errorType := manual |}]) w1).
Proof.
  intros host app_fetch monitor originalFetch f input fetchError w w1
    (r & [-> | ->]) Horig Hin; cbn [await_fetch_call]; unfold try_catch, bind;
    rewrite Horig; destruct (url_of_returns host input w1 Hin) as (url & ->);
    reflexivity.
Qed.

Lemma fetch_wrapper_reports_network_failure_witness :
  let m := new_ErrorMonitor "k" all_off in
  await_fetch_call host_up fetch_down
    (GlobalFetchWrapper 11 (reporter m) (Native 2)) (VStr "/api/cart")
    node_world
  = (Throw (VError 51 "Failed to fetch" None),
     set_spawned
       [{| call_monitor := reporter m; call_event := "fetch_network_error";
           call_err := VError 51 "Failed to fetch" None;
           call_errorType := manual |}] node_world).
Proof.
  cbv zeta.
  apply (fetch_wrapper_reports_network_failure host_up fetch_down
           (reporter (new_ErrorMonitor "k" all_off)) (Native 2)
           (GlobalFetchWrapper 11 (reporter (new_ErrorMonitor "k" all_off))
              (Native 2))
           (VStr "/api/cart") (VError 51 "Failed to fetch" None)
           node_world node_world).
  - exists 11%nat. right. reflexivity.
  - reflexivity.
  - reflexivity.
Defined.

(** X19.  For an input that is [undefined] or [null] a wrapper of [fetch]
    changes the outcome of the call: where the wrapped function fails, the
    caller gets a new error in place of the failure; where it answers with a
    monitored status, the caller gets a new error in place of the response.
    In both cases nothing is reported. *)
Theorem fetch_wrapper_masks_the_outcome_for_nullish_input :
  ∀ (host : Host) (app_fetch : nat → Value → AppFetch) (monitor : Reporter)
    (originalFetch f : Fn) (input : Value) (w w1 : World),
    fetch_wrapper_of monitor originalFetch f →
    nullish input = true →
    (∀ fetchError,
       await_fetch_call host app_fetch originalFetch input w
       = (Throw fetchError, w1) →
       ∃ message w2,
         await_fetch_call host app_fetch f input w
         = (Throw (VError (next_ref w1) message (new_stack host message)), w2)
         ∧ spawned w2 = spawned w1)
    ∧ (∀ response,
         await_fetch_call host app_fetch originalFetch input w
         = (Normal response, w1) →
         monitored_status monitor response = true →
         ∃ message w2,
           await_fetch_call host app_fetch f input w
           = (Throw (VError (S (next_ref w1)) message (new_stack host message)),
              w2)
           ∧ spawned w2 = spawned w1).
Proof.
  intros host app_fetch monitor originalFetch f input w w1
    (r & [-> | ->]) Hin; (split; [intros fetchError Horig|intros response Horig Hmon]);
    cbn [await_fetch_call]; unfold try_catch, bind; rewrite Horig; rewrite ?Hmon.
  all: destruct (url_of_throws host input w1 Hin) as (message & Hurl);
    rewrite Hurl.
  all: try (eexists _, _; split; reflexivity).
  all: destruct (url_of_throws host input (set_next_ref (S (next_ref w1)) w1) Hin)
         as (message' & Hurl').
  all: rewrite Hurl'; cbn; eexists _, _; split; reflexivity.
Qed.

Lemma fetch_wrapper_masks_the_outcome_for_nullish_input_witness :
  ∃ message w2,
    await_fetch_call host_up fetch_down
      (WindowFetchWrapper 11 (reporter (new_ErrorMonitor "k" no_options))
         (Native 2)) VUndefined browser_world
    = (Throw (VError 10 message (sample_stack message)), w2)
    ∧ spawned w2 = [].
Proof.
  destruct (fetch_wrapper_masks_the_outcome_for_nullish_input host_up fetch_down
              (reporter (new_ErrorMonitor "k" no_options)) (Native 2)
              (WindowFetchWrapper 11 (reporter (new_ErrorMonitor "k" no_options))
                 (Native 2)) VUndefined browser_world browser_world)
    as (Hfail & _).
  - exists 11%nat. left. reflexivity.
  - reflexivity.
  - exact (Hfail (VError 51 "Failed to fetch" None) eq_refl).
Defined.

Section FetchFacts2.
Context (host : Host) (app_fetch : nat → Value → AppFetch).

Lemma await_native f input w :
  is_native f = true →
  await_fetch_call host app_fetch f input w
  = match app_fetch (fn_ref f) input with
    | AppThrows e => (Throw e, w)
    | AppRejects reason => (Throw reason, w)
    | AppResponds response => (Normal response, w)
    end.
Proof.
  destruct f; try discriminate. intros _. cbn.
  destruct (app_fetch _ input); reflexivity.
Qed.

End FetchFacts2.

(** X20.  Where [window] and [global] are one object, a started monitor reports
    each failure of [fetch] twice: the failure passes through the two
    wrappers that [start] has put around the one function, and each of them
    starts a report. *)
Theorem aliased_fetch_failure_is_reported_twice :
  ∀ (host : Host) (app_fetch : nat → Value → AppFetch) (this : ErrorMonitor)
    (w : World) (o : nat) (f0 : Fn) (input fetchError : Value),
    isActive this = false → enableFetchMonitoring (options this) = true →
    window w = Some o → global w = Some o → fetch_of w !! o = Some f0 →
    is_native f0 = true →
    app_fetch (fn_ref f0) input = AppRejects fetchError →
    nullish input = false →
    let v := (start this w).2 in
    let report :=
      {| call_monitor := reporter this; call_event := "fetch_network_error";
         call_err := fetchError; call_errorType := manual |} in
    ∃ g, window_fetch v = Some g ∧ global_fetch v = Some g
         ∧ await_fetch_call host app_fetch g input v
           = (Throw fetchError,
              set_spawned (spawned v ++ [report; report]) v).
Proof.
  intros host app_fetch this w o f0 input fetchError Hact Hon Hwin Hglob Hf
    Hnat Hfail Hin v report.
  destruct (start_wraps_aliased_fetch this w o f0 Hact Hon Hwin Hglob Hf)
    as (r1 & r2 & Hfo & _ & _ & Hw & Hg).
  fold v in Hfo, Hw, Hg.
  eexists. split; [unfold window_fetch; rewrite Hw; exact Hfo|].
  split; [unfold global_fetch; rewrite Hg; exact Hfo|].
  cbn [await_fetch_call]. unfold try_catch, bind.
  fold (await_fetch_call host app_fetch f0 input v).
  rewrite (await_native host app_fetch f0 input v Hnat), Hfail.
  destruct (url_of_returns host input v Hin) as (url & Hurl). rewrite Hurl.
  cbn. 
  destruct (url_of_returns host input (set_spawned (spawned v ++ [report]) v) Hin)
    as (url' & Hurl'). 
  subst report. cbn in Hurl' |- *. rewrite Hurl'. cbn.
  rewrite <- app_assoc. reflexivity.
Qed.

Lemma aliased_fetch_failure_is_reported_twice_witness :
  let m := new_ErrorMonitor "k" no_options in
  let v := (start m aliased_world).2 in
  let report :=
    {| call_monitor := reporter m; call_event := "fetch_network_error";
       call_err := VError 51 "Failed to fetch" None;
       call_errorType := manual |} in
  ∃ g, window_fetch v = Some g ∧ global_fetch v = Some g
       ∧ await_fetch_call host_up fetch_down g (VStr "/api/cart") v
         = (Throw (VError 51 "Failed to fetch" None),
            set_spawned (spawned v ++ [report; report]) v).
Proof.
  apply (aliased_fetch_failure_is_reported_twice host_up fetch_down
           (new_ErrorMonitor "k" no_options) aliased_world 1%nat (Native 2)
           (VStr "/api/cart") (VError 51 "Failed to fetch" None));
    reflexivity.
Defined.

(** ** Programs that use the exported functions *)

Section RoundTrips.
Context (host : Host).
Implicit Types (this t : ErrorMonitor) (w v : World) (md : Module).

Lemma same_env_trans w v u : same_env w v → same_env v u → same_env w u.
Proof.
  unfold same_env. intros (H1 & H2 & H3 & H4) (H5 & H6 & H7 & H8).
  repeat split; congruence.
Qed.

Lemma restored_env reg w v :
  same_env w v → slots v = slots w → restored reg v = restored reg w.
Proof.
  unfold same_env, slots, restored, restored_process_listeners,
    restored_window_listeners, restored_console_error, restored_fetch_of.
  intros (H1 & H2 & H3 & H4) [= H5 H6 H7 H8].
  rewrite H1, H2, H3, H4, H5, H6, H7, H8. reflexivity.
Qed.

Lemma restore_next_ref this w : next_ref (restore this w) = next_ref w.
Proof.
  unfold restore.
  rewrite !unhook_process_set.
  destruct (has_process w) eqn:Hp; destruct (window w) eqn:Hw;
    cbn; rewrite ?Hw, ?unhook_window_set, ?restore_console_error_set;
    unfold restore_global_fetch, restore_window_fetch, assign_fetch;
    cbn; rewrite ?Hw;
    destruct (originalHandlers this !! "fetch");
    destruct (originalHandlers this !! "global.fetch");
    destruct (global w) eqn:Hg; cbn; rewrite ?Hg; cbn; reflexivity.
Qed.

Lemma elem_of_remove_first (x y : string * Fn) l :
  x ∈ remove_first y l → x ∈ l.
Proof.
  induction l as [|z l IH]; cbn; [auto|].
  destruct (decide (y = z)).
  - intros H. right. exact H.
  - intros [->|H]%elem_of_cons; [left|right; auto].
Qed.

Lemma restore_allocated this w :
  listeners_allocated w → listeners_allocated (restore this w).
Proof.
  intros Hall type h Hin. rewrite restore_next_ref.
  apply (Hall type h).
  pose proof (slots_restore this w) as Hs.
  unfold slots, restored in Hs. injection Hs as _ Hwl _ _.
  rewrite Hwl in Hin. unfold restored_window_listeners, drop_listener in Hin.
  destruct (window w); [|exact Hin].
  repeat case_match; unfold removeEventListener in Hin;
    repeat apply elem_of_remove_first in Hin; exact Hin.
Qed.

(** Stopping the global monitor gives back the slots of [w]. *)
Lemma stop_governed w m v :
  same_env w v → listeners_allocated v → isActive m = true →
  restored (originalHandlers m) v = slots w →
  same_env w (stop m v).2 ∧ listeners_allocated (stop m v).2
  ∧ slots (stop m v).2 = slots w ∧ isActive (stop m v).1 = false.
Proof.
  intros Henv Hall Hact Hres. unfold stop. rewrite Hact. cbn [negb fst snd].
  split; [|split; [|split]].
  - eapply same_env_trans; [exact Henv|apply env_restore].
  - apply restore_allocated, Hall.
  - rewrite slots_restore. exact Hres.
  - reflexivity.
Qed.

(** Starting a new monitor where the slots are those of [w]. *)
Lemma start_governed w apiKey options v :
  separate_globals w →
  same_env w v → listeners_allocated v → slots v = slots w →
  let st := start (new_ErrorMonitor apiKey options) v in
  same_env w st.2 ∧ listeners_allocated st.2 ∧ isActive st.1 = true
  ∧ restored (originalHandlers st.1) st.2 = slots w.
Proof.
  intros Hsep Henv Hall Hslots st.
  assert (separate_globals v) as Hsep'.
  { destruct Henv as (_ & Hw & Hg & _). intros o. rewrite Hw, Hg. apply Hsep. }
  destruct (start_installs (new_ErrorMonitor apiKey options) v eq_refl eq_refl
              Hall Hsep') as (Henv' & Hall' & Hres & _).
  fold st in Henv', Hall', Hres.
  split; [eapply same_env_trans; eassumption|]. split; [exact Hall'|].
  split; [apply start_is_active|]. rewrite Hres. exact Hslots.
Qed.

(** A report leaves the slots and the facilities alone and hands out
    addresses only. *)
Lemma reportError_frame this event err errorType w :
  slots (reportError host this event err errorType w).2 = slots w
  ∧ same_env w (reportError host this event err errorType w).2
  ∧ (next_ref w ≤ next_ref (reportError host this event err errorType w).2)%nat.
Proof.
  unfold reportError, promise_of, report, async, try_catch, report_try, bind,
    error_object, console_log, await_fetch, throw_new_Error, new_Error, fresh,
    bind, throw, ret.
  destruct (has_console w) eqn:Hc.
  - destruct (instanceof_Error err); cbn; rewrite Hc; cbn.
    all: destruct (transport host _ _) as [e|reason|status]; cbn.
    all: try destruct (response_ok status); cbn.
    all: unfold console_error_call; cbn; rewrite ?Hc.
    all: try match goal with
         | |- context [call_console_error ?f ?args ?w] =>
             destruct (call_console_error_returns f args w) as (c & more & ->)
         end.
    all: cbn; unfold same_env; cbn; repeat split; first [reflexivity | lia].
  - destruct (instanceof_Error err); cbn; rewrite Hc; cbn;
      unfold console_error_call; cbn; rewrite Hc; cbn;
      unfold same_env; cbn; repeat split; first [reflexivity | lia].
Qed.

Lemma allocated_frame w v :
  slots v = slots w → (next_ref w ≤ next_ref v)%nat →
  listeners_allocated w → listeners_allocated v.
Proof.
  intros [= _ Hwl _ _] Hn Hall type h Hin. rewrite Hwl in Hin.
  specialize (Hall type h Hin). lia.
Qed.

End RoundTrips.

Section RoundTrips2.
Context (host : Host).
Implicit Types (this t : ErrorMonitor) (w v : World) (md : Module).

Lemma monitor_with_global apiKey options md w g old :
  globalMonitor md = Some g → monitors md !! g = Some old →
  monitor apiKey options md w
  = (length (monitors md),
     {| monitors :=
          <[g := (stop old w).1]> (monitors md)
          ++ [(start (new_ErrorMonitor apiKey options) (stop old w).2).1];
        globalMonitor := Some (length (monitors md)) |},
     (start (new_ErrorMonitor apiKey options) (stop old w).2).2).
Proof.
  intros Hg Hold.
  unfold monitor, update_at, allocate, set_globalMonitor.
  rewrite Hg, Hold. destruct (stop old w) as [old' w1]. cbn -[start].
  rewrite lookup_app_r by (rewrite length_insert; reflexivity).
  rewrite length_insert, Nat.sub_diag. cbn -[start].
  destruct (start (new_ErrorMonitor apiKey options) w1) as [m' w2].
  cbn -[start].
  rewrite insert_app_r_alt by (rewrite length_insert; reflexivity).
  rewrite length_insert, Nat.sub_diag. reflexivity.
Qed.

Lemma monitor_without_global apiKey options md w :
  globalMonitor md = None →
  monitor apiKey options md w
  = (length (monitors md),
     {| monitors :=
          monitors md ++ [(start (new_ErrorMonitor apiKey options) w).1];
        globalMonitor := Some (length (monitors md)) |},
     (start (new_ErrorMonitor apiKey options) w).2).
Proof.
  intros Hg.
  unfold monitor, update_at, allocate, set_globalMonitor.
  rewrite Hg. cbn -[start].
  rewrite lookup_app_r by reflexivity.
  rewrite Nat.sub_diag. cbn -[start].
  destruct (start (new_ErrorMonitor apiKey options) w) as [m' w2].
  cbn -[start].
  rewrite insert_app_r_alt by reflexivity.
  rewrite Nat.sub_diag. reflexivity.
Qed.

Lemma stopMonitoring_with_global md w g old :
  globalMonitor md = Some g → monitors md !! g = Some old →
  stopMonitoring md w
  = ({| monitors := <[g := (stop old w).1]> (monitors md);
        globalMonitor := None |}, (stop old w).2).
Proof.
  intros Hg Hold. unfold stopMonitoring, update_at, set_globalMonitor.
  rewrite Hg, Hold. destruct (stop old w). reflexivity.
Qed.

Lemma monitor_governed w apiKey options st :
  separate_globals w → Governed w st →
  Governed w ((monitor apiKey options st.1 st.2).1.2,
              (monitor apiKey options st.1 st.2).2).
Proof.
  intros Hsep (Henv & Hall & Hglob). destruct st as [md v]. cbn [fst snd] in *.
  destruct (globalMonitor md) as [g|] eqn:Hg.
  - destruct Hglob as (m & Hm & Hact & Hres).
    rewrite (monitor_with_global apiKey options md v g m Hg Hm).
    destruct (stop_governed w m v Henv Hall Hact Hres) as (Henv1 & Hall1 & Hs1 & _).
    destruct (start_governed w apiKey options (stop m v).2 Hsep Henv1 Hall1 Hs1)
      as (Henv2 & Hall2 & Hact2 & Hres2).
    split; [exact Henv2|]. split; [exact Hall2|]. cbn [fst snd globalMonitor monitors].
    eexists. split; [|split; [exact Hact2|exact Hres2]].
    rewrite lookup_app_r by (rewrite length_insert; reflexivity).
    rewrite length_insert, Nat.sub_diag. reflexivity.
  - rewrite (monitor_without_global apiKey options md v Hg).
    destruct (start_governed w apiKey options v Hsep Henv Hall Hglob)
      as (Henv2 & Hall2 & Hact2 & Hres2).
    split; [exact Henv2|]. split; [exact Hall2|]. cbn [fst snd globalMonitor monitors].
    eexists. split; [|split; [exact Hact2|exact Hres2]].
    rewrite lookup_app_r by reflexivity.
    rewrite Nat.sub_diag. reflexivity.
Qed.

Lemma stopMonitoring_governed w st :
  Governed w st →
  Governed w (stopMonitoring st.1 st.2)
  ∧ globalMonitor (stopMonitoring st.1 st.2).1 = None
  ∧ slots (stopMonitoring st.1 st.2).2 = slots w.
Proof.
  intros (Henv & Hall & Hglob). destruct st as [md v]. cbn [fst snd] in *.
  destruct (globalMonitor md) as [g|] eqn:Hg.
  - destruct Hglob as (m & Hm & Hact & Hres).
    rewrite (stopMonitoring_with_global md v g m Hg Hm).
    destruct (stop_governed w m v Henv Hall Hact Hres) as (Henv1 & Hall1 & Hs1 & _).
    cbn [fst snd]. split; [|split; [reflexivity|exact Hs1]].
    split; [exact Henv1|]. split; [exact Hall1|]. exact Hs1.
  - unfold stopMonitoring. rewrite Hg. cbn [fst snd].
    split; [|split; [exact Hg|exact Hglob]].
    split; [exact Henv|]. split; [exact Hall|]. cbn [fst snd]. rewrite Hg.
    exact Hglob.
Qed.

Lemma issueUpdate_governed w apiKey event err data st :
  Governed w st →
  Governed w ((issueUpdate host apiKey event err data st.1 st.2).1.2,
              (issueUpdate host apiKey event err data st.1 st.2).2).
Proof.
  intros (Henv & Hall & Hglob). destruct st as [md v]. cbn [fst snd] in *.
  unfold issueUpdate.
  destruct (the_globalMonitor md) as [m|] eqn:Hthe.
  - destruct (reportError_frame host m event err manual v) as (Hs & He & Hn).
    destruct (reportError host m event err manual v) as [p v']. cbn [fst snd] in *.
    split; [eapply same_env_trans; eassumption|].
    split; [eapply allocated_frame; eassumption|].
    cbn [fst snd].
    destruct (globalMonitor md) as [g|]; [|rewrite Hs; exact Hglob].
    destruct Hglob as (m' & Hm' & Hact & Hres).
    exists m'. split; [exact Hm'|]. split; [exact Hact|].
    rewrite (restored_env _ v v' He Hs). exact Hres.
  - unfold allocate.
    destruct (reportError_frame host (new_ErrorMonitor apiKey data) event err
                manual v) as (Hs & He & Hn).
    destruct (reportError host (new_ErrorMonitor apiKey data) event err manual v)
      as [p v']. cbn [fst snd globalMonitor monitors] in *.
    split; [eapply same_env_trans; eassumption|].
    split; [eapply allocated_frame; eassumption|].
    cbn [fst snd globalMonitor monitors].
    destruct (globalMonitor md) as [g|] eqn:Hg; [|rewrite Hs; exact Hglob].
    destruct Hglob as (m' & Hm' & _).
    unfold the_globalMonitor in Hthe. rewrite Hg in Hthe. cbn in Hthe.
    congruence.
Qed.

Lemma run_call_governed w st c :
  separate_globals w → Governed w st → Governed w (run_call host st c).
Proof.
  intros Hsep Hgov. destruct c as [apiKey options| | |apiKey event err data]; cbn.
  - pose proof (monitor_governed w apiKey options st Hsep Hgov) as H.
    destruct (monitor apiKey options st.1 st.2) as [[addr md] v]. exact H.
  - apply stopMonitoring_governed, Hgov.
  - exact Hgov.
  - pose proof (issueUpdate_governed w apiKey event err data st Hgov) as H.
    destruct (issueUpdate host apiKey event err data st.1 st.2) as [[p md] v].
    exact H.
Qed.

Lemma run_calls_governed w calls : ∀ st,
  separate_globals w → Governed w st →
  Governed w (foldl (run_call host) st calls).
Proof.
  induction calls as [|c calls IH]; intros st Hsep Hgov; [exact Hgov|].
  cbn. apply IH; [exact Hsep|]. apply run_call_governed; assumption.
Qed.

End RoundTrips2.

(** X25.  A program that patches the runtime through the exported functions only
    can always undo it.  Whatever calls of [monitor], [stopMonitoring],
    [getMonitor] and [issueUpdate] it has made, whenever no global monitor
    exists [console.error], the [fetch] slots and the listeners are those the
    program began with, and a call of [stopMonitoring] brings this about:
    wrappers of monitors that were replaced do not pile up.  The runtime is
    one where [window] and [global] are not one object. *)
Theorem exported_functions_always_restore_the_globals :
  ∀ (host : Host) (calls : list ApiCall) (w : World),
    listeners_allocated w → separate_globals w →
    let st := run_calls host calls w in
    (getMonitor st.1 = None → slots st.2 = slots w)
    ∧ getMonitor (stopMonitoring st.1 st.2).1 = None
    ∧ slots (stopMonitoring st.1 st.2).2 = slots w.
Proof.
  intros host calls w Hall Hsep st.
  assert (Governed w st) as Hgov.
  { apply run_calls_governed; [exact Hsep|].
    split; [repeat split|]. split; [exact Hall|reflexivity]. }
  split.
  - unfold getMonitor. intros Hnone. destruct Hgov as (_ & _ & H).
    rewrite Hnone in H. exact H.
  - apply (stopMonitoring_governed w st Hgov).
Qed.

(** Two monitors in a row, a report in between, then [stopMonitoring], in
    the browser. *)
Lemma exported_functions_always_restore_the_globals_witness :
  let st := run_calls host_up
              [CallMonitor "a" no_options;
               CallIssueUpdate "x" "checkout" (VStr "boom") no_options;
               CallMonitor "b" no_options] browser_world in
  getMonitor (stopMonitoring st.1 st.2).1 = None
  ∧ slots (stopMonitoring st.1 st.2).2 = slots browser_world.
Proof.
  cbv zeta.
  refine (proj2 (exported_functions_always_restore_the_globals host_up
           [CallMonitor "a" no_options;
            CallIssueUpdate "x" "checkout" (VStr "boom") no_options;
            CallMonitor "b" no_options] browser_world _ _)).
  - intros type h Hin. apply list_elem_of_singleton in Hin as [= -> ->].
    cbn. lia.
  - intros o Hw Hg. discriminate.
Defined.

(** ** After [stop] *)

Section Quiet.
Context (host : Host) (app_fetch : nat → Value → AppFetch).

(** In an unpatched runtime no event, no call of [console.error] and no
    call of [fetch] starts a report. *)
Lemma unpatched_is_quiet w :
  unpatched w →
  (∀ type args, process_emit host type args w = (Normal tt, w))
  ∧ (∀ event, window_dispatchEvent host event w = (Normal tt, w))
  ∧ (∀ args, has_console w = true →
       ∃ w', console_error_call host args w = (Normal tt, w')
             ∧ spawned w' = spawned w)
  ∧ (∀ o f input, fetch_of w !! o = Some f →
       (await_fetch_call host app_fetch f input w).2 = w).
Proof.
  intros (Hp & Hw & Hc & Hf). split; [|split; [|split]].
  - intros type args. unfold process_emit.
    rewrite <- (app_nil_r (listeners_for type (process_listeners w))).
    apply emit_each_native. intros h Hin.
    apply listeners_for_elem in Hin. eapply Hp, Hin.
  - intros event. unfold window_dispatchEvent.
    rewrite <- (app_nil_r (listeners_for (ev_type event) (window_listeners w))).
    apply dispatch_each_native. intros h Hin.
    apply listeners_for_elem in Hin. eapply Hw, Hin.
  - intros args Hcon. unfold console_error_call. rewrite Hcon.
    destruct (console_error w); try discriminate. cbn.
    eexists. split; reflexivity.
  - intros o f input Hlook. rewrite await_native by (eapply Hf, Hlook).
    destruct (app_fetch (fn_ref f) input); reflexivity.
Qed.

End Quiet.

(** X16.  After [start] and [stop] in a runtime that was unpatched, every
    interception point is off again: the listeners, [console.error] and every
    [fetch] are functions of the host, so that no event on [process] or
    [window], no call of [console.error] and no call of a [fetch] starts a
    report.  The monitor is one that was not active, and [window] and
    [global] are not one object. *)
Theorem stopped_monitor_reports_nothing :
  ∀ (host : Host) (app_fetch : nat → Value → AppFetch) (this : ErrorMonitor)
    (w : World),
    Reachable this → isActive this = false →
    listeners_allocated w → separate_globals w → unpatched w →
    let v := (stop (start this w).1 (start this w).2).2 in
    unpatched v
    ∧ (∀ type args, process_emit host type args v = (Normal tt, v))
    ∧ (∀ event, window_dispatchEvent host event v = (Normal tt, v))
    ∧ (∀ args, has_console v = true →
         ∃ v', console_error_call host args v = (Normal tt, v')
               ∧ spawned v' = spawned v)
    ∧ (∀ o f input, fetch_of v !! o = Some f →
         (await_fetch_call host app_fetch f input v).2 = v).
Proof.
  intros host app_fetch this w Hreach Hact Hall Hsep Hun v.
  assert (unpatched v) as Hv; [|split; [exact Hv|apply unpatched_is_quiet, Hv]].
  pose proof (inactive_registry_empty this Hreach Hact) as Hreg.
  destruct (start_installs this w Hreg Hact Hall Hsep) as (Henv & Hall' & Hres & _).
  destruct (stop_governed w (start this w).1 (start this w).2 Henv Hall'
              (start_is_active this w) Hres) as (_ & _ & Hslots & _).
  fold v in Hslots. unfold slots in Hslots.
  injection Hslots as Hpl Hwl Hce Hfo.
  unfold unpatched. rewrite Hpl, Hwl, Hce, Hfo. exact Hun.
Qed.

Lemma stopped_monitor_reports_nothing_witness :
  let m := new_ErrorMonitor "k" no_options in
  let v := (stop (start m node_world).1 (start m node_world).2).2 in
  process_emit host_up "unhandledRejection" [VStr "no credits"; VObject 5] v
  = (Normal tt, v)
  ∧ (await_fetch_call host_up fetch_down (Native 2) (VStr "/api/cart") v).2 = v.
Proof.
  cbv zeta.
  destruct (stopped_monitor_reports_nothing host_up fetch_down
              (new_ErrorMonitor "k" no_options) node_world
              (reach_new "k" no_options) eq_refl) as (_ & Hemit & _ & _ & Hfetch).
  - intros type h Hin. apply elem_of_nil in Hin. destruct Hin.
  - intros o Hw. discriminate.
  - split; [|split; [|split]].
    + intros type h Hin. apply list_elem_of_singleton in Hin as [= -> ->].
      reflexivity.
    + intros type h Hin. apply elem_of_nil in Hin. destruct Hin.
    + reflexivity.
    + intros o f Hlook. cbn in Hlook.
      apply lookup_singleton_Some in Hlook as [_ <-]. reflexivity.
  - split; [apply Hemit|]. apply (Hfetch 1%nat). vm_compute. reflexivity.
Defined.

(** ** Wrapped objects and decorated methods *)

Section WrapObjectFacts.
Context (host : Host).
Implicit Types (obj done todo : JsObject) (prop : string) (p : Property).

Lemma own_property_fresh done prop p rest :
  prop ∉ map fst done → own_property (done ++ (prop, p) :: rest) prop = Some p.
Proof.
  induction done as [|[k q] done IH]; intros Hk; cbn.
  - rewrite decide_True by reflexivity. reflexivity.
  - rewrite decide_False.
    + apply IH. intros Hin. apply Hk. right. exact Hin.
    + intros ->. apply Hk. left.
Qed.

Lemma set_property_fresh done prop p q rest :
  prop ∉ map fst done →
  set_property prop q (done ++ (prop, p) :: rest) = done ++ (prop, q) :: rest.
Proof.
  induction done as [|[k p'] done IH]; intros Hk; cbn.
  - rewrite decide_True by reflexivity. reflexivity.
  - rewrite decide_False.
    + rewrite IH; [reflexivity|]. intros Hin. apply Hk. right. exact Hin.
    + intros ->. apply Hk. left.
Qed.

Lemma own_property_map this objectName obj prop :
  own_property (map (wrapped_property host this objectName) obj) prop
  = (λ p, (wrapped_property host this objectName (prop, p)).2)
      <$> own_property obj prop.
Proof.
  induction obj as [|[k q] obj IH]; [reflexivity|].
  destruct q as [f settable|x|]; cbn;
    (destruct (decide (k = prop)) as [->|Hne]; [reflexivity|exact IH]).
Qed.

Lemma wrapped_property_key this objectName entry :
  (wrapped_property host this objectName entry).1 = entry.1.
Proof. destruct entry as [k []]; reflexivity. Qed.

Lemma wrapped_keys this objectName obj :
  map fst (map (wrapped_property host this objectName) obj) = map fst obj.
Proof.
  induction obj as [|entry obj IH]; [reflexivity|]. cbn.
  rewrite wrapped_property_key, IH. reflexivity.
Qed.

(** The loop over properties that can be assigned to, with the properties
    already visited in [done] and those still to come in [tail]. *)
Lemma wrap_each_assignable this objectName todo : ∀ done tail names w,
  NoDup (map fst (done ++ todo ++ tail)) →
  forallb assignable todo = true →
  wrap_each host this objectName (map fst todo ++ names)
    (done ++ todo ++ tail) w
  = wrap_each host this objectName names
      (done ++ map (wrapped_property host this objectName) todo ++ tail) w.
Proof.
  induction todo as [|[k p] todo IH]; intros done tail names w Hnd Hok;
    [reflexivity|].
  cbn in Hok. apply andb_true_iff in Hok as [Hp Hok].
  assert (k ∉ map fst done) as Hk.
  { rewrite map_app in Hnd. apply NoDup_app in Hnd as (_ & Hdis & _).
    intros Hin. apply (Hdis k Hin). left. }
  cbn [map fst wrap_each app]. unfold wrap_property.
  rewrite own_property_fresh by exact Hk.
  assert (∀ q, NoDup (map fst ((done ++ [(k, q)]) ++ todo ++ tail))) as Hnd'.
  { intros q. rewrite <- app_assoc. cbn.
    rewrite map_app in Hnd |- *. exact Hnd. }
  destruct p as [f settable|x|].
  - cbn in Hp. subst settable. rewrite set_property_fresh by exact Hk.
    rewrite (cons_middle _ done (todo ++ tail)), app_assoc.
    rewrite IH by (try exact Hok; apply Hnd').
    rewrite <- app_assoc. reflexivity.
  - rewrite (cons_middle _ done (todo ++ tail)), app_assoc.
    rewrite IH by (try exact Hok; apply Hnd').
    rewrite <- app_assoc. reflexivity.
  - rewrite (cons_middle _ done (todo ++ tail)), app_assoc.
    rewrite IH by (try exact Hok; apply Hnd').
    rewrite <- app_assoc. reflexivity.
Qed.

Lemma label_not_empty a b : String.eqb (a +:+ "." +:+ b) "" = false.
Proof. destruct a; reflexivity. Qed.

End WrapObjectFacts.

(** X22.  [wrapObject] on an object that accepts an assignment to each of
    its methods (an ordinary object whose methods are writable; not a frozen
    object, not a module namespace) returns, and leaves the object with the
    same property names in the same order.  Properties that are not methods are untouched.  Each own method
    is replaced by its wrapper: it has the name of the method, and when the
    method throws it reports the thrown value once, under the event
    [<objectName or Object>.<property>], and throws it again. *)
Theorem wrapObject_wraps_each_own_method :
  ∀ (host : Host) (this : ErrorMonitor) (obj : JsObject)
    (objectName : option string) (w : World),
    NoDup (map fst obj) → forallb assignable obj = true →
    ∃ obj',
      wrapObject host this obj objectName w = (Normal tt, obj', w)
      ∧ map fst obj' = map fst obj
      ∧ (∀ prop x, own_property obj prop = Some (Field x) →
                   own_property obj' prop = Some (Field x))
      ∧ (∀ prop, own_property obj prop = Some Accessor →
                 own_property obj' prop = Some Accessor)
      ∧ (∀ prop, own_property obj prop = None → own_property obj' prop = None)
      ∧ (∀ prop f settable,
           own_property obj prop = Some (Method f settable) →
           ∃ g, own_property obj' prop = Some (Method g true)
                ∧ fn_name g = fn_name f
                ∧ ∀ self args v e v1,
                    fn_apply f self args v = (Throw e, v1) →
                    fn_apply g self args v
                    = (Throw e,
                       set_spawned
                         (spawned v1
                          ++ [{| call_monitor := reporter this;
                                 call_event :=
                                   or_else objectName "Object" +:+ "."
                                   +:+ prop;
                                 call_err := e;
                                 call_errorType := manual |}]) v1)).
Proof.
  intros host this obj objectName w Hnd Hok.
  exists (map (wrapped_property host this objectName) obj).
  split.
  { unfold wrapObject.
    pose proof (wrap_each_assignable host this objectName obj [] [] [] w) as H.
    rewrite !app_nil_r in H. cbn [app] in H. rewrite H by assumption.
    reflexivity. }
  split.
  { apply wrapped_keys. }
  split; [|split; [|split]].
  - intros prop x Hp. rewrite own_property_map, Hp. reflexivity.
  - intros prop Hp. rewrite own_property_map, Hp. reflexivity.
  - intros prop Hp. rewrite own_property_map, Hp. reflexivity.
  - intros prop f settable Hp. eexists. rewrite own_property_map, Hp.
    split; [reflexivity|]. split; [reflexivity|].
    intros self args v e v1 Hf. cbn. unfold try_catch, bind. rewrite Hf.
    cbn. rewrite label_not_empty. reflexivity.
Qed.

Lemma wrapObject_wraps_each_own_method_witness :
  ∃ obj',
    wrapObject host_up (new_ErrorMonitor "k" no_options) cart (Some "Cart")
      node_world = (Normal tt, obj', node_world)
    ∧ map fst obj' = ["total"; "charge"; "tax"; "ask"]
    ∧ own_property obj' "total" = Some (Field (VNum 42))
    ∧ ∃ g, own_property obj' "charge" = Some (Method g true)
           ∧ fn_apply g VUndefined [] node_world
             = (Throw (VError 7 "card declined" None),
                set_spawned
                  [{| call_monitor := reporter (new_ErrorMonitor "k" no_options);
                      call_event := "Cart.charge";
                      call_err := VError 7 "card declined" None;
                      call_errorType := manual |}] node_world).
Proof.
  destruct (wrapObject_wraps_each_own_method host_up
              (new_ErrorMonitor "k" no_options) cart (Some "Cart") node_world)
    as (obj' & Hrun & Hnames & Hfield & _ & _ & Hmethod).
  - unfold cart. cbn. repeat (apply NoDup_cons; split; [rewrite ?elem_of_cons, elem_of_nil; intuition discriminate|]).
    apply NoDup_nil_2.
  - reflexivity.
  - exists obj'. split; [exact Hrun|]. split; [exact Hnames|].
    split; [apply Hfield; reflexivity|].
    destruct (Hmethod "charge" fn_throwing true eq_refl) as (g & Hg & _ & Hcall).
    exists g. split; [exact Hg|]. apply (Hcall VUndefined [] node_world). reflexivity.
Defined.

(** X23.  [wrapObject] stops at the first own method that cannot be assigned to
    (a method of a frozen object, or of a module namespace): the call throws,
    the methods before it are already wrapped, and that method and the
    properties after it are as they were. *)
Theorem wrapObject_stops_at_a_read_only_method :
  ∀ (host : Host) (this : ErrorMonitor) (pre post : JsObject) (prop : string)
    (f : JsFunction) (objectName : option string) (w : World),
    NoDup (map fst (pre ++ (prop, Method f false) :: post)) →
    forallb assignable pre = true →
    ∃ e w',
      wrapObject host this (pre ++ (prop, Method f false) :: post) objectName w
      = (Throw e,
         map (wrapped_property host this objectName) pre
         ++ (prop, Method f false) :: post, w')
      ∧ instanceof_Error e = true.
Proof.
  intros host this pre post prop f objectName w Hnd Hok.
  unfold wrapObject. rewrite map_app.
  pose proof (wrap_each_assignable host this objectName pre []
                ((prop, Method f false) :: post)
                (map fst ((prop, Method f false) :: post)) w) as H.
  cbn [app] in H. rewrite H by assumption. clear H.
  cbn [map fst wrap_each]. unfold wrap_property.
  rewrite own_property_fresh.
  - cbn. eexists _, _. split; reflexivity.
  - rewrite wrapped_keys.
    rewrite map_app in Hnd. apply NoDup_app in Hnd as (_ & Hdis & _).
    intros Hin. apply (Hdis prop Hin). left.
Qed.

Lemma wrapObject_stops_at_a_read_only_method_witness :
  ∃ e w',
    wrapObject host_up (new_ErrorMonitor "k" no_options) frozen_cart None
      node_world
    = (Throw e,
       [("total",
         Method (wrapFunction host_up (new_ErrorMonitor "k" no_options)
                   fn_returning (Some "Object.total")) true);
        ("charge", Method fn_throwing false);
        ("ask", Method fn_rejecting true)], w')
    ∧ instanceof_Error e = true.
Proof.
  apply (wrapObject_stops_at_a_read_only_method host_up
           (new_ErrorMonitor "k" no_options)
           [("total", Method fn_returning true)]
           [("ask", Method fn_rejecting true)] "charge" fn_throwing None
           node_world).
  - cbn. repeat (apply NoDup_cons; split; [rewrite ?elem_of_cons, elem_of_nil; intuition discriminate|]).
    apply NoDup_nil_2.
  - reflexivity.
Defined.

(** X21.  Wrapping is not idempotent: a function wrapped twice (by two calls of
    [wrapFunction], or by [wrapObject] on an object whose methods are
    already wrapped) reports each failure twice, first under the label of
    the inner wrapper, and still throws the value once. *)
Theorem wrapping_twice_reports_twice :
  ∀ (host : Host) (a b : ErrorMonitor) (fn : JsFunction)
    (inner outer : option string) (self : Value) (args : list Value)
    (w w1 : World) (e : Value),
    fn_apply fn self args w = (Throw e, w1) →
    let label name := or_else name (or_else (Some (fn_name fn))
                                      "anonymous_function") in
    fn_apply (wrapFunction host b (wrapFunction host a fn inner) outer)
      self args w
    = (Throw e,
       set_spawned
         (spawned w1
          ++ [{| call_monitor := reporter a; call_event := label inner;
                 call_err := e; call_errorType := manual |};
              {| call_monitor := reporter b; call_event := label outer;
                 call_err := e; call_errorType := manual |}]) w1).
Proof.
  intros host a b fn inner outer self args w w1 e Hfn label.
  cbn. unfold try_catch, bind. rewrite Hfn. cbn.
  rewrite <- app_assoc. reflexivity.
Qed.

Lemma wrapping_twice_reports_twice_witness :
  let m := new_ErrorMonitor "k" no_options in
  fn_apply (wrapFunction host_up m (wrapFunction host_up m fn_throwing None)
              (Some "Cart.charge")) VUndefined [] node_world
  = (Throw (VError 7 "card declined" None),
     set_spawned
       [{| call_monitor := reporter m; call_event := "charge";
           call_err := VError 7 "card declined" None;
           call_errorType := manual |};
        {| call_monitor := reporter m; call_event := "Cart.charge";
           call_err := VError 7 "card declined" None;
           call_errorType := manual |}] node_world).
Proof.
  apply (wrapping_twice_reports_twice host_up (new_ErrorMonitor "k" no_options)
           (new_ErrorMonitor "k" no_options) fn_throwing None
           (Some "Cart.charge") VUndefined [] node_world node_world
           (VError 7 "card declined" None)).
  reflexivity.
Defined.

(** X24.  The decorator [monitored].  (1) Without a global monitor it warns and
    returns the descriptor as it is: the method is not wrapped.  (2) With a
    global monitor it replaces the method by a wrapper, bound to that
    monitor: whenever the method throws, in whatever state the module is by
    then, the wrapper starts one report through the monitor that was the
    global one when the class was defined, under the event
    [<name of target.constructor>.<property>] (for a static member the
    constructor of the target is [Function]), and throws the value again.
    (3) With a global monitor, on an accessor (a descriptor without
    [value]) it throws. *)
Theorem monitored_binds_the_monitor_of_decoration_time :
  ∀ (host : Host) (target : Target) (propertyName : string)
    (descriptor : PropertyDescriptor) (md : Module) (w : World),
    (the_globalMonitor md = None → has_console w = true →
       monitored host target propertyName descriptor md w
       = (Normal descriptor, [not_initialized], w))
    ∧ (∀ m method,
         the_globalMonitor md = Some m →
         desc_value descriptor = Some method →
         ∃ wrapped,
           monitored host target propertyName descriptor md w
           = (Normal {| desc_value := Some wrapped;
                        desc_writable := desc_writable descriptor;
                        desc_enumerable := desc_enumerable descriptor;
                        desc_configurable := desc_configurable descriptor |},
              [], w)
           ∧ fn_name wrapped = fn_name method
           ∧ ∀ self args v e v1,
               fn_apply method self args v = (Throw e, v1) →
               fn_apply wrapped self args v
               = (Throw e,
                  set_spawned
                    (spawned v1
                     ++ [{| call_monitor := reporter m;
                            call_event :=
                              constructor_name target +:+ "."
                              +:+ propertyName;
                            call_err := e;
                            call_errorType := manual |}]) v1))
    ∧ (∀ m, the_globalMonitor md = Some m → desc_value descriptor = None →
         ∃ e w',
           monitored host target propertyName descriptor md w
           = (Throw e, [], w')
           ∧ instanceof_Error e = true).
Proof.
  intros host target propertyName descriptor md w. unfold monitored.
  split; [|split].
  - intros -> ->. reflexivity.
  - intros m method -> ->. eexists. split; [reflexivity|].
    split; [reflexivity|].
    intros self args v e v1 Hf. cbn. unfold try_catch, bind. rewrite Hf.
    cbn. rewrite label_not_empty. reflexivity.
  - intros m -> ->. cbn. eexists _, _. split; reflexivity.
Qed.

(** A static method decorated while the monitor of key [k] is the global
    one: the event is [Function.charge]. *)
Lemma monitored_binds_the_monitor_of_decoration_time_witness :
  let st := run_calls host_up [CallMonitor "k" no_options] node_world in
  let d := {| desc_value := Some fn_throwing; desc_writable := true;
              desc_enumerable := false; desc_configurable := true |} in
  ∃ wrapped,
    monitored host_up (Constructor "Cart") "charge" d st.1 st.2
    = (Normal {| desc_value := Some wrapped; desc_writable := true;
                 desc_enumerable := false; desc_configurable := true |},
       [], st.2)
    ∧ fn_apply wrapped VUndefined [] mute_world
      = (Throw (VError 7 "card declined" None),
         set_spawned
           [{| call_monitor := reporter (new_ErrorMonitor "k" no_options);
               call_event := "Function.charge";
               call_err := VError 7 "card declined" None;
               call_errorType := manual |}] mute_world).
Proof.
  cbv zeta.
  destruct (monitored_binds_the_monitor_of_decoration_time host_up
              (Constructor "Cart") "charge"
              {| desc_value := Some fn_throwing; desc_writable := true;
                 desc_enumerable := false; desc_configurable := true |}
              (run_calls host_up [CallMonitor "k" no_options] node_world).1
              (run_calls host_up [CallMonitor "k" no_options] node_world).2)
    as (_ & Hwrap & _).
  destruct (Hwrap (start (new_ErrorMonitor "k" no_options) node_world).1
              fn_throwing) as (wrapped & Hrun & _ & Hcall).
  - vm_compute. reflexivity.
  - reflexivity.
  - exists wrapped. split; [exact Hrun|].
    apply (Hcall VUndefined [] mute_world). reflexivity.
Defined.
